(** * anlffr.preproc.peak_finder: a shallow embedding and its properties

    The development follows [src/anlffr/preproc.py], function
    [peak_finder] (lines 93-251).  The NumPy array [x0] is a float64 array, as
    the docstring ("a real vector") asks; its entries are idealised as exact
    rationals ([Q]), so rounding, infinities and NaN are outside the model,
    and so are arrays of integer type, in which the assignment of line 146
    cannot store [-eps].  Exact arithmetic and float64 part in two places:
    the product of two differences on line 148 can be rounded to zero, which
    hides a turning point, and the sums and differences with the threshold
    on lines 194, 204, 210, 220 and 236 are rounded before they are
    compared.  The statements below that depend on either say so in their
    hypotheses: a threshold that is omitted or not negative, and
    neighbouring samples that are equal or at least [tiny] apart.  Python
    exceptions are explicit results ([Raise]),
    local variables of the scanning loop are a record threaded through the
    loop, and the [while] loop runs on a counter that is proved to be large
    enough.  The call [logger.info] only writes to the log and is not
    modelled; the [@verbose] decorator passes its arguments and result
    through unchanged. *)

From Stdlib Require Import ZArith QArith Qround List Bool Sorted Lia Lqa.
Import ListNotations.

Local Open Scope Z_scope.

(** ** Python results: values and exceptions *)

Inductive exn : Type :=
| ValueError
| AssertionError
| TypeError
| IndexError
| UnboundLocalError.

Inductive outcome (A : Type) : Type :=
| Return (a : A)
| Raise (e : exn)
| OutOfFuel.

Arguments Return {A} a.
Arguments Raise {A} e.
Arguments OutOfFuel {A}.

Definition bind {A B : Type} (m : outcome A) (k : A -> outcome B) : outcome B :=
  match m with
  | Return a => k a
  | Raise e => Raise e
  | OutOfFuel => OutOfFuel
  end.

Notation "x <- m ;; k" := (bind m (fun x => k))
  (at level 61, m at next level, right associativity).
Notation "' pat <- m ;; k" := (bind m (fun x => match x with pat => k end))
  (at level 61, pat pattern, m at next level, right associativity).

(** What a Python name can be bound to at the end of [peak_finder]: a NumPy
    scalar ([x[x_ind]], [ind[x_ind]]), a Python list ([[]]) or a NumPy
    array. *)
Inductive pyval (A : Type) : Type :=
| NpScalar (a : A)
| PyList (l : list A)
| NpArray (l : list A).

Arguments NpScalar {A} a.
Arguments PyList {A} l.
Arguments NpArray {A} l.

(** [len(v)]: a NumPy scalar has no length. *)
Definition len {A : Type} (v : pyval A) : outcome Z :=
  match v with
  | NpScalar _ => Raise TypeError
  | PyList l => Return (Z.of_nat (length l))
  | NpArray l => Return (Z.of_nat (length l))
  end.

(** [v *= f] for a float [f]: a Python list cannot be multiplied by a float. *)
Definition imul_float (v : pyval Q) (f : Q) : outcome (pyval Q) :=
  match v with
  | NpScalar a => Return (NpScalar (a * f)%Q)
  | PyList _ => Raise TypeError
  | NpArray l => Return (NpArray (map (fun a => (a * f)%Q) l))
  end.

(** The entries of a result. *)
Definition items {A : Type} (v : pyval A) : list A :=
  match v with
  | NpScalar a => [a]
  | PyList l => l
  | NpArray l => l
  end.

(** ** Comparisons and NumPy primitives on sequences *)

Definition Qltb (a b : Q) : bool := negb (Qle_bool b a).
Definition Qgtb (a b : Q) : bool := Qltb b a.

(** [l[i]] with Python's negative indices. *)
Definition getitem {A : Type} (l : list A) (i : Z) : outcome A :=
  let n := Z.of_nat (length l) in
  let j := if i <? 0 then i + n else i in
  if (0 <=? j) && (j <? n) then
    match nth_error l (Z.to_nat j) with
    | Some a => Return a
    | None => Raise IndexError
    end
  else Raise IndexError.

Fixpoint update {A : Type} (l : list A) (n : nat) (v : A) : list A :=
  match l, n with
  | [], _ => []
  | _ :: t, O => v :: t
  | a :: t, S m => a :: update t m v
  end.

(** [l[i] = v]. *)
Definition setitem {A : Type} (l : list A) (i : Z) (v : A) : outcome (list A) :=
  let n := Z.of_nat (length l) in
  let j := if i <? 0 then i + n else i in
  if (0 <=? j) && (j <? n) then Return (update l (Z.to_nat j) v)
  else Raise IndexError.

Definition slice_bound (n i : Z) : Z :=
  Z.max 0 (Z.min n (if i <? 0 then i + n else i)).

(** [l[lo:hi]], either bound possibly omitted. *)
Definition slice {A : Type} (l : list A) (lo hi : option Z) : list A :=
  let n := Z.of_nat (length l) in
  let a := match lo with None => 0 | Some i => slice_bound n i end in
  let b := match hi with None => n | Some i => slice_bound n i end in
  firstn (Z.to_nat (b - a)) (skipn (Z.to_nat a) l).

(** [l[idx]] for an integer array [idx]. *)
Fixpoint take {A : Type} (l : list A) (idx : list Z) : outcome (list A) :=
  match idx with
  | [] => Return []
  | i :: rest =>
      a <- getitem l i ;;
      t <- take l rest ;;
      Return (a :: t)
  end.

(** [np.diff]. *)
Fixpoint diff (l : list Q) : list Q :=
  match l with
  | a :: (b :: _) as t => (b - a)%Q :: diff t
  | _ => []
  end.

(** Elementwise product of two arrays of the same length. *)
Fixpoint mul_arrays (a b : list Q) : list Q :=
  match a, b with
  | u :: a', v :: b' => (u * v)%Q :: mul_arrays a' b'
  | _, _ => []
  end.

(** [np.where(mask)[0]], counting positions from [i]. *)
Fixpoint where_from (i : Z) (mask : list bool) : list Z :=
  match mask with
  | [] => []
  | b :: rest => if b then i :: where_from (i + 1) rest else where_from (i + 1) rest
  end.

Definition np_where (mask : list bool) : list Z := where_from 0 mask.

Definition np_min (l : list Q) : outcome Q :=
  match l with
  | [] => Raise ValueError
  | a :: t => Return (fold_left (fun m v => if Qltb v m then v else m) t a)
  end.

Definition np_max (l : list Q) : outcome Q :=
  match l with
  | [] => Raise ValueError
  | a :: t => Return (fold_left (fun m v => if Qltb m v then v else m) t a)
  end.

(** [np.argmax]: the first position of the largest entry. *)
Fixpoint argmax_from (l : list Q) (i best_i : Z) (best : Q) : Z :=
  match l with
  | [] => best_i
  | v :: rest =>
      if Qltb best v then argmax_from rest (i + 1) i v
      else argmax_from rest (i + 1) best_i best
  end.

Definition np_argmax (l : list Q) : outcome Z :=
  match l with
  | [] => Raise ValueError
  | a :: t => Return (argmax_from t 1 0 a)
  end.

(** [np.sign]. *)
Definition np_sign (q : Q) : Z := Z.sgn (Qnum q).

(** [np.finfo(float).eps], 2^-52. *)
Definition eps : Q := 1 # 4503599627370496.

(** [int(ceil(n / 2.0))]. *)
Definition ceil_half (n : Z) : Z := Qceiling (inject_Z n / 2).

(** ** The input array *)

Record ndarray : Type := mk_ndarray { ndim : nat; flat : list Q }.

Definition vector (l : list Q) : ndarray := mk_ndarray 1 l.

(** [np.diff] refuses a 0-dimensional array. *)
Definition np_diff (nd : nat) (l : list Q) : outcome (list Q) :=
  match nd with
  | O => Raise ValueError
  | _ => Return (diff l)
  end.

(** ** Lines 144-152: the candidate subsequence

    The product of line 148 is exact here.  In float64 it is rounded, and a
    product of two very small differences is rounded to zero, which is not
    negative: the turning point is then no candidate. *)

(** Line 146, [dx0[dx0 == 0] = -eps], on one entry. *)
Definition nudge (d : Q) : Q := if Qeq_bool d 0 then (- eps)%Q else d.

Definition candidates (nd : nat) (x0 : list Q) : outcome (list Q * list Z) :=
  let s := Z.of_nat (length x0) in
  dx0 <- np_diff nd x0 ;;
  let dx0 := map nudge dx0 in
  let ind := map (fun i => i + 1)
                 (np_where (map (fun p => Qltb p 0)
                                (mul_arrays (slice dx0 None (Some (-1)))
                                            (slice dx0 (Some 1) None)))) in
  mid <- take x0 ind ;;
  let x := slice x0 None (Some 1) ++ mid ++ slice x0 (Some (-1)) None in
  let ind := [0] ++ ind ++ [s - 1] in
  Return (x, ind).

(** ** Lines 158-232: the scanner *)

Record scan_state : Type := mk_state {
  ii : Z;
  temp_mag : Q;
  temp_loc : option Z;
  found_peak : bool;
  left_min : Q;
  peak_loc : list Z;
  peak_mag : list Q;
  c_ind : Z
}.

(** Reading a local variable that may not have been assigned yet. *)
Definition read_local {A : Type} (v : option A) : outcome A :=
  match v with
  | Some a => Return a
  | None => Raise UnboundLocalError
  end.

(** Lines 168-181: where the cursor starts, and whether the first point is
    dropped.  Returns [(ii, x, ind, length)]. *)
Definition bootstrap (x : list Q) (ind : list Z) (length : Z)
  : outcome (Z * list Q * list Z * Z) :=
  let signDx := map np_sign (diff (slice x None (Some 3))) in
  s0 <- getitem signDx 0 ;;
  if s0 <=? 0 then
    s1 <- getitem signDx 1 ;;
    if s0 =? s1 then
      Return (-1, slice x None (Some 1) ++ slice x (Some 2) None,
              slice ind None (Some 1) ++ slice ind (Some 2) None, length - 1)
    else Return (-1, x, ind, length)
  else
    s1 <- getitem signDx 1 ;;
    if s0 =? s1 then
      Return (0, slice x (Some 1) None, slice ind (Some 1) None, length - 1)
    else Return (0, x, ind, length).

Section Scan.
Variable x : list Q.
Variable length : Z.
Variable min_mag : Q.
Variable thresh : Q.

(** Lines 193-194: the test that reopens the search.  [peak_mag[-1]] is the
    last slot of the preallocated array. *)
Definition reset_test (st : scan_state) : outcome bool :=
  if found_peak st then
    xi <- getitem x (ii st) ;;
    last <- getitem (peak_mag st) (-1) ;;
    if Qgtb xi last then Return true
    else Return (Qltb (left_min st) (last - thresh))
  else Return false.

(** Lines 193-196. *)
Definition reset_pending (st : scan_state) : outcome scan_state :=
  c <- reset_test st ;;
  if (c : bool) then
    Return (mk_state (ii st) min_mag (temp_loc st) false (left_min st)
                     (peak_loc st) (peak_mag st) (c_ind st))
  else Return st.

(** Lines 204-206.  The sum [left_min + thresh] is exact here; float64
    rounds it before the comparison. *)
Definition track_pending (st : scan_state) : outcome scan_state :=
  xi <- getitem x (ii st) ;;
  if Qgtb xi (temp_mag st) && Qgtb xi (left_min st + thresh) then
    Return (mk_state (ii st) xi (Some (ii st)) (found_peak st) (left_min st)
                     (peak_loc st) (peak_mag st) (c_ind st))
  else Return st.

(** Lines 208-217. *)
Definition valley_step (st : scan_state) : outcome scan_state :=
  let i := ii st + 1 in
  c <- (if negb (found_peak st) then
          xi <- getitem x i ;; Return (Qgtb (temp_mag st) (thresh + xi))
        else Return false) ;;
  if (c : bool) then
    xi <- getitem x i ;;
    loc <- read_local (temp_loc st) ;;
    pl <- setitem (peak_loc st) (c_ind st) loc ;;
    pm <- setitem (peak_mag st) (c_ind st) (temp_mag st) ;;
    Return (mk_state i (temp_mag st) (temp_loc st) true xi pl pm (c_ind st + 1))
  else
    xi <- getitem x i ;;
    if Qltb xi (left_min st) then
      Return (mk_state i (temp_mag st) (temp_loc st) (found_peak st) xi
                       (peak_loc st) (peak_mag st) (c_ind st))
    else
      Return (mk_state i (temp_mag st) (temp_loc st) (found_peak st) (left_min st)
                       (peak_loc st) (peak_mag st) (c_ind st)).

Definition set_ii (st : scan_state) (i : Z) : scan_state :=
  mk_state i (temp_mag st) (temp_loc st) (found_peak st) (left_min st)
           (peak_loc st) (peak_mag st) (c_ind st).

(** Lines 190-196: the cursor moves onto a peak candidate. *)
Definition peak_step (st : scan_state) : outcome scan_state :=
  reset_pending (set_ii st (ii st + 1)).

(** Lines 189-217: the [while] loop; [fuel] bounds the number of
    iterations. *)
Fixpoint scan_loop (fuel : nat) (st : scan_state) : outcome scan_state :=
  if ii st <? length - 1 then
    match fuel with
    | O => OutOfFuel
    | S fuel' =>
        st <- peak_step st ;;
        if ii st =? length - 1 then Return st
        else
          st <- track_pending st ;;
          st <- valley_step st ;;
          scan_loop fuel' st
    end
  else Return st.

(** Lines 220-228. *)
Definition end_point (st : scan_state) : outcome scan_state :=
  xl <- getitem x (-1) ;;
  if Qgtb xl (temp_mag st) && Qgtb xl (left_min st + thresh) then
    pl <- setitem (peak_loc st) (c_ind st) (length - 1) ;;
    pm <- setitem (peak_mag st) (c_ind st) xl ;;
    Return (mk_state (ii st) (temp_mag st) (temp_loc st) (found_peak st)
                     (left_min st) pl pm (c_ind st + 1))
  else if negb (found_peak st) && Qgtb (temp_mag st) min_mag then
    loc <- read_local (temp_loc st) ;;
    pl <- setitem (peak_loc st) (c_ind st) loc ;;
    pm <- setitem (peak_mag st) (c_ind st) (temp_mag st) ;;
    Return (mk_state (ii st) (temp_mag st) (temp_loc st) (found_peak st)
                     (left_min st) pl pm (c_ind st + 1))
  else Return st.
End Scan.

(** The test of lines 193-194 as the comment above it words it ("the next
    peak is bigger than the last"): the reference is the most recently
    confirmed peak, [peak_mag[c_ind - 1]]. *)
Definition reset_test_last_confirmed (x : list Q) (thresh : Q) (st : scan_state)
  : outcome bool :=
  if found_peak st then
    xi <- getitem x (ii st) ;;
    last <- getitem (peak_mag st) (c_ind st - 1) ;;
    if Qgtb xi last then Return true
    else Return (Qltb (left_min st) (last - thresh))
  else Return false.

(** Lines 160-163 and 183-187: the state the loop starts from. *)
Definition init_state (ii0 : Z) (min_mag : Q) (maxPeaks : Z) : scan_state :=
  mk_state ii0 min_mag None false min_mag
           (repeat 0 (Z.to_nat maxPeaks)) (repeat 0%Q (Z.to_nat maxPeaks)) 0.

(** Lines 158-228: bootstrap, loop and end-point check.  Returns the
    candidate indices that survive the bootstrap and the final state. *)
Definition scanner (x : list Q) (ind : list Z) (min_mag thresh : Q)
  : outcome (list Z * scan_state) :=
  '(ii0, x, ind, length) <- bootstrap x ind (Z.of_nat (List.length x)) ;;
  let maxPeaks := ceil_half length in
  st <- scan_loop x length min_mag thresh (Z.to_nat length)
                  (init_state ii0 min_mag maxPeaks) ;;
  st <- end_point x length min_mag thresh st ;;
  Return (ind, st).

(** Lines 158-232: the scanner and the two arrays read from its state. *)
Definition scanner_branch (x : list Q) (ind : list Z) (min_mag thresh : Q)
  : outcome (pyval Z * pyval Q) :=
  '(ind, st) <- scanner x ind min_mag thresh ;;
  peak_inds <- take ind (slice (peak_loc st) None (Some (c_ind st))) ;;
  Return (NpArray peak_inds,
          NpArray (slice (peak_mag st) None (Some (c_ind st)))).

(** Lines 233-240.  The sum [min_mag + thresh] is exact here; float64
    rounds it before the comparison. *)
Definition degenerate (x : list Q) (ind : list Z) (min_mag thresh : Q)
  : outcome (pyval Z * pyval Q) :=
  x_ind <- np_argmax x ;;
  peak_mags <- getitem x x_ind ;;
  if Qgtb peak_mags (min_mag + thresh) then
    peak_inds <- getitem ind x_ind ;;
    Return (NpScalar peak_inds, NpScalar peak_mags)
  else Return (PyList [], PyList []).

(** ** Lines 129-251: [peak_finder] *)

Definition default_thresh (x0 : list Q) : outcome Q :=
  mx <- np_max x0 ;;
  mn <- np_min x0 ;;
  Return ((mx - mn) / 4)%Q.

(** Lines 136-137. *)
Definition resolve_thresh (thresh : option Q) (x0 : list Q) : outcome Q :=
  match thresh with
  | None => default_thresh x0
  | Some t => Return t
  end.

(** Lines 141-142: the working signal. *)
Definition working_signal (extrema : Z) (x0 : list Q) : list Q :=
  if extrema =? -1 then map (fun v => (inject_Z extrema * v)%Q) x0 else x0.

Definition peak_finder (x0 : ndarray) (thresh : option Q) (extrema : Z)
  : outcome (pyval Z * pyval Q) :=
  if (2 <=? ndim x0)%nat then Raise ValueError
  else
    thresh <- resolve_thresh thresh (flat x0) ;;
    if negb ((extrema =? -1) || (extrema =? 1)) then Raise AssertionError
    else
      '(x, ind) <- candidates (ndim x0) (working_signal extrema (flat x0)) ;;
      let length := Z.of_nat (List.length x) in
      min_mag <- np_min x ;;
      '(peak_inds, peak_mags) <-
        (if 2 <? length then scanner_branch x ind min_mag thresh
         else degenerate x ind min_mag thresh) ;;
      peak_mags <- (if extrema <? 0 then imul_float peak_mags (-1)
                    else Return peak_mags) ;;
      _ <- len peak_inds ;;
      Return (peak_inds, peak_mags).

(** A signal given by integer-valued samples. *)
Definition qs (l : list Z) : list Q := map inject_Z l.

(** The 2-by-2 array [[1, 2], [3, 4]]. *)
Definition matrix_2x2 : ndarray := mk_ndarray 2 (qs [1; 2; 3; 4]).

(** * Predicates used to state the properties *)

(** The entry at a position that is known to exist. *)
Definition at_ (l : list Q) (i : Z) : Q := nth (Z.to_nat i) l 0%Q.

(** The interior candidates, read off the signal directly: a sample is kept
    when the differences on its two sides have opposite signs. *)
Fixpoint interior (l : list Q) : list Q :=
  match l with
  | a :: t =>
      match t with
      | b :: t' =>
          match t' with
          | c :: _ =>
              if Qltb (nudge (b - a) * nudge (c - b)) 0
              then b :: interior t else interior t
          | [] => []
          end
      | [] => []
      end
  | [] => []
  end.

(** The mask of line 148 for the signal [l]. *)
Definition turn_mask (l : list Q) : list bool :=
  let dx0 := map nudge (diff l) in
  map (fun p => Qltb p 0)
      (mul_arrays (slice dx0 None (Some (-1))) (slice dx0 (Some 1) None)).

(** Rising and falling steps alternate along [l], starting with a rise when
    [up] holds; a step between equal values counts as falling. *)
Fixpoint alt (up : bool) (l : list Q) : Prop :=
  match l with
  | a :: t =>
      match t with
      | b :: _ => (if up then (a < b)%Q else (b <= a)%Q) /\ alt (negb up) t
      | [] => True
      end
  | [] => True
  end.

(** ** The invariant of the scanning loop *)

Section Invariant.
Variable x : list Q.
Variable L : Z.
Variable min_mag : Q.
Variable thresh : Q.
Variable cap : nat.

(** A computation is safe when it returns a state satisfying [P], or stops
    on an unassigned [temp_loc], which only a negative threshold allows. *)
Definition safe {A : Type} (P : A -> Prop) (m : outcome A) : Prop :=
  match m with
  | Return a => P a
  | Raise e => e = UnboundLocalError /\ (thresh < 0)%Q
  | OutOfFuel => False
  end.

(** The records confirmed so far. *)
Definition confirmed (st : scan_state) : list Z :=
  firstn (Z.to_nat (c_ind st)) (peak_loc st).

(** The cursor [v] rests on a valley: the next candidate is higher, and the
    one after that is not higher than the next. *)
Definition phase (v : Z) : Prop :=
  (0 <= v -> v + 1 < L -> (at_ x v < at_ x (v + 1))%Q) /\
  (v + 2 < L -> (at_ x (v + 2) <= at_ x (v + 1))%Q).

(** What the state holds while the cursor rests on the valley [v]: the
    arrays keep their size, at most one record was confirmed per valley
    visited, the confirmed locations increase and lie before [v], a pending
    peak that could still be confirmed is newer than every confirmed one,
    and [left_min] does not exceed the next candidate. *)
Record core (v : Z) (st : scan_state) : Prop := {
  core_len_loc : length (peak_loc st) = cap;
  core_len_mag : length (peak_mag st) = cap;
  core_c_lo : 0 <= c_ind st;
  core_c_hi : 2 * c_ind st <= v + 1;
  core_full : 2 * c_ind st = v + 1 -> 0 <= v ->
              found_peak st = true /\ (at_ x v <= temp_mag st)%Q;
  core_sorted : StronglySorted Z.lt (confirmed st);
  core_range : Forall (fun e => 0 <= e < v) (confirmed st);
  core_loc : forall j, temp_loc st = Some j -> 0 <= j < v;
  core_fresh : found_peak st = false -> (min_mag < temp_mag st)%Q ->
               exists j, temp_loc st = Some j /\
                         Forall (fun e => e < j) (confirmed st);
  core_min : (min_mag <= temp_mag st)%Q;
  core_neg : (thresh < 0)%Q ->
             (min_mag < temp_mag st)%Q \/ temp_loc st = None;
  core_lm : v + 1 < L -> (left_min st <= at_ x (v + 1))%Q
}.

(** The loop invariant, at the head of the loop. *)
Definition Inv (st : scan_state) : Prop :=
  -1 <= ii st <= L - 1 /\ phase (ii st) /\ core (ii st) st.

(** What holds when the loop is left. *)
Record Post (st : scan_state) : Prop := {
  post_ii : ii st = L - 1;
  post_len_loc : length (peak_loc st) = cap;
  post_len_mag : length (peak_mag st) = cap;
  post_c_lo : 0 <= c_ind st;
  post_c_hi : 2 * c_ind st <= L;
  post_room : 2 * c_ind st <= L - 1 \/
              (found_peak st = true /\ (at_ x (L - 1) <= temp_mag st)%Q);
  post_sorted : StronglySorted Z.lt (confirmed st);
  post_range : Forall (fun e => 0 <= e < L - 1) (confirmed st);
  post_fresh : found_peak st = false -> (min_mag < temp_mag st)%Q ->
               exists j, temp_loc st = Some j /\ 0 <= j < L - 1 /\
                         Forall (fun e => e < j) (confirmed st)
}.

(** What holds after the end-point check. *)
Record Final (st : scan_state) : Prop := {
  final_len_loc : length (peak_loc st) = cap;
  final_len_mag : length (peak_mag st) = cap;
  final_c : 0 <= c_ind st <= Z.of_nat cap;
  final_sorted : StronglySorted Z.lt (confirmed st);
  final_range : Forall (fun e => 0 <= e < L) (confirmed st)
}.

(** The state between the peak step and the valley step. *)
Record mid (v : Z) (F1 : bool) (T2 : Q) (tl2 : option Z) (pl : list Z) (c : Z)
  : Prop := {
  mid_min : (min_mag <= T2)%Q;
  mid_top : (thresh < 0)%Q -> (at_ x (v + 1) <= T2)%Q;
  mid_loc : forall j, tl2 = Some j -> 0 <= j < v + 2;
  mid_fresh : F1 = false -> (min_mag < T2)%Q ->
              exists j, tl2 = Some j /\
                        Forall (fun e => e < j) (firstn (Z.to_nat c) pl);
  mid_neg : (thresh < 0)%Q -> (min_mag < T2)%Q \/ tl2 = None
}.

End Invariant.

(** * Further predicates *)

(** Each sample is above the one before it. *)
Fixpoint rising (l : list Q) : Prop :=
  match l with
  | a :: t =>
      match t with
      | b :: _ => (a < b)%Q /\ rising t
      | [] => True
      end
  | [] => True
  end.

(** No sample is above the one before it. *)
Fixpoint falling (l : list Q) : Prop :=
  match l with
  | a :: t =>
      match t with
      | b :: _ => (b <= a)%Q /\ falling t
      | [] => True
      end
  | [] => True
  end.

(** What the scanner keeps about the values it stores: [left_min] is not
    below the smallest candidate, a pending peak is a candidate more than
    [thresh] above it, and so is every record written so far. *)
Record vals (x : list Q) (min_mag thresh : Q) (st : scan_state) : Prop := {
  vals_lm : (min_mag <= left_min st)%Q;
  vals_pending : temp_mag st = min_mag \/
                 exists j, temp_loc st = Some j /\ temp_mag st = at_ x j /\
                           (min_mag + thresh < temp_mag st)%Q;
  vals_records : forall k, (k < Z.to_nat (c_ind st))%nat ->
                 nth k (peak_mag st) 0%Q = at_ x (nth k (peak_loc st) 0) /\
                 (min_mag + thresh < nth k (peak_mag st) 0%Q)%Q
}.

(** The entry at [j] is a local maximum of the first [L] entries of [l]:
    above the entry before it and not below the entry after it, where
    these exist. *)
Definition top (l : list Q) (L j : Z) : Prop :=
  (0 < j -> (at_ l (j - 1) < at_ l j)%Q) /\
  (j + 1 < L -> (at_ l (j + 1) <= at_ l j)%Q).

(** What the scanner keeps about the places it stores: a pending location
    and every recorded one is a local maximum of the candidates, and a
    cursor that has moved on is on a local maximum or on a candidate that
    the end-point check turns down. *)
Record tops (x : list Q) (L : Z) (thresh : Q) (st : scan_state) : Prop := {
  tops_pending : forall j, temp_loc st = Some j -> top x L j;
  tops_records : forall k, (k < Z.to_nat (c_ind st))%nat ->
                 top x L (nth k (peak_loc st) 0);
  tops_end : 0 < ii st ->
             top x L (ii st) \/ (at_ x (ii st) <= temp_mag st)%Q \/
             (at_ x (ii st) <= left_min st + thresh)%Q
}.

(** The entry at [j] is a local minimum of the first [L] entries of [l]. *)
Definition bottom (l : list Q) (L j : Z) : Prop :=
  (0 < j -> (at_ l j < at_ l (j - 1))%Q) /\
  (j + 1 < L -> (at_ l j <= at_ l (j + 1))%Q).

(** [2^-500].  The product of two float64 numbers of at least this size is
    at least [2^-1000], far above the smallest positive float64: it is not
    rounded to zero. *)
Definition tiny : Q := 1 # (2 ^ 500).

(** Neighbouring samples are equal or at least [tiny] apart: on such a
    signal no product of line 148 is rounded to zero. *)
Fixpoint well_separated (l : list Q) : Prop :=
  match l with
  | a :: t =>
      match t with
      | b :: _ => ((a == b)%Q \/ (tiny <= b - a)%Q \/ (tiny <= a - b)%Q) /\
                  well_separated t
      | [] => True
      end
  | [] => True
  end.

(** The step from sample [j] of [w] to the next one rises. *)
Definition rises (w : list Q) (j : Z) : bool := Qltb (at_ w j) (at_ w (j + 1)).

(** ** The scanner on any candidate list *)

(** What the state holds at the head of the loop, with the cursor on [v],
    for any list [x] of candidates and a threshold that is not negative:
    the arrays keep their size, at most one record was confirmed for every
    two candidates passed, the confirmed locations increase and lie before
    [v], a pending peak that could still be confirmed is newer than every
    confirmed one, and every magnitude kept is the candidate at its
    location. *)
Record steady (x : list Q) (min_mag : Q) (cap : nat) (v : Z) (st : scan_state)
  : Prop := {
  steady_len_loc : length (peak_loc st) = cap;
  steady_len_mag : length (peak_mag st) = cap;
  steady_c_lo : 0 <= c_ind st;
  steady_c_hi : 2 * c_ind st <= v + 1;
  steady_full : 2 * c_ind st = v + 1 -> 0 <= v ->
                found_peak st = true /\ (at_ x v <= temp_mag st)%Q;
  steady_sorted : StronglySorted Z.lt (confirmed st);
  steady_range : Forall (fun e => 0 <= e < v) (confirmed st);
  steady_loc : forall j, temp_loc st = Some j -> 0 <= j < v;
  steady_fresh : found_peak st = false -> (min_mag < temp_mag st)%Q ->
                 exists j, temp_loc st = Some j /\
                           Forall (fun e => e < j) (confirmed st);
  steady_min : (min_mag <= temp_mag st)%Q;
  steady_pending : temp_mag st = min_mag \/
                   exists j, temp_loc st = Some j /\ temp_mag st = at_ x j;
  steady_records : forall k, (k < Z.to_nat (c_ind st))%nat ->
                   nth k (peak_mag st) 0%Q = at_ x (nth k (peak_loc st) 0)
}.

(** What holds when the loop is left. *)
Record settled (x : list Q) (L : Z) (min_mag : Q) (cap : nat) (st : scan_state)
  : Prop := {
  settled_len_loc : length (peak_loc st) = cap;
  settled_len_mag : length (peak_mag st) = cap;
  settled_c_lo : 0 <= c_ind st;
  settled_c_hi : 2 * c_ind st <= L;
  settled_room : 2 * c_ind st <= L - 1 \/
                 (found_peak st = true /\ (at_ x (L - 1) <= temp_mag st)%Q);
  settled_sorted : StronglySorted Z.lt (confirmed st);
  settled_range : Forall (fun e => 0 <= e < L - 1) (confirmed st);
  settled_fresh : found_peak st = false -> (min_mag < temp_mag st)%Q ->
                  exists j, temp_loc st = Some j /\ 0 <= j < L - 1 /\
                            Forall (fun e => e < j) (confirmed st);
  settled_pending : temp_mag st = min_mag \/
                    exists j, temp_loc st = Some j /\ temp_mag st = at_ x j;
  settled_records : forall k, (k < Z.to_nat (c_ind st))%nat ->
                    nth k (peak_mag st) 0%Q = at_ x (nth k (peak_loc st) 0)
}.

(** What holds after the end-point check. *)
Record finished (x : list Q) (L : Z) (cap : nat) (st : scan_state) : Prop := {
  finished_len_loc : length (peak_loc st) = cap;
  finished_len_mag : length (peak_mag st) = cap;
  finished_c : 0 <= c_ind st <= Z.of_nat cap;
  finished_sorted : StronglySorted Z.lt (confirmed st);
  finished_range : Forall (fun e => 0 <= e < L) (confirmed st);
  finished_records : forall k, (k < Z.to_nat (c_ind st))%nat ->
                     nth k (peak_mag st) 0%Q = at_ x (nth k (peak_loc st) 0)
}.

(** * Properties *)

(** ** Rational comparisons *)

Lemma Qltb_lt (a b : Q) : Qltb a b = true <-> (a < b)%Q.
Proof.
  unfold Qltb. rewrite negb_true_iff. split.
  - intros H. apply Qnot_le_lt. intros Hle.
    apply Qle_bool_iff in Hle. congruence.
  - intros H. destruct (Qle_bool b a) eqn:E; [ | reflexivity].
    apply Qle_bool_iff in E. exfalso. apply (Qlt_not_le _ _ H E).
Qed.

Lemma Qltb_ge (a b : Q) : Qltb a b = false <-> (b <= a)%Q.
Proof.
  unfold Qltb. rewrite negb_false_iff. apply Qle_bool_iff.
Qed.

Lemma Qgtb_gt (a b : Q) : Qgtb a b = true <-> (b < a)%Q.
Proof. apply Qltb_lt. Qed.

Lemma Qgtb_le (a b : Q) : Qgtb a b = false <-> (a <= b)%Q.
Proof. apply Qltb_ge. Qed.

(** Turn the boolean tests found in the hypotheses into order facts. *)
Ltac qprop :=
  repeat match goal with
  | H : Qltb _ _ = true |- _ => apply Qltb_lt in H
  | H : Qltb _ _ = false |- _ => apply Qltb_ge in H
  | H : Qgtb _ _ = true |- _ => apply Qgtb_gt in H
  | H : Qgtb _ _ = false |- _ => apply Qgtb_le in H
  | H : andb _ _ = true |- _ => apply andb_true_iff in H; destruct H
  | H : negb _ = true |- _ => apply negb_true_iff in H
  | H : negb _ = false |- _ => apply negb_false_iff in H
  end.

(** ** Indexing *)

Lemma getitem_norm {A : Type} (l : list A) (i j : Z) (d : A) :
  j = (if i <? 0 then i + Z.of_nat (length l) else i) ->
  0 <= j < Z.of_nat (length l) ->
  getitem l i = Return (nth (Z.to_nat j) l d).
Proof.
  intros Hj H. unfold getitem. cbv zeta. rewrite <- Hj.
  replace (0 <=? j) with true by (symmetry; apply Z.leb_le; lia).
  replace (j <? Z.of_nat (length l)) with true by (symmetry; apply Z.ltb_lt; lia).
  cbn [andb]. destruct (nth_error l (Z.to_nat j)) eqn:E.
  - rewrite (nth_error_nth _ _ d E). reflexivity.
  - apply nth_error_None in E. lia.
Qed.

Lemma getitem_in_range {A : Type} (l : list A) (i : Z) (d : A) :
  0 <= i < Z.of_nat (length l) ->
  getitem l i = Return (nth (Z.to_nat i) l d).
Proof.
  intros H. apply getitem_norm; [ | exact H].
  replace (i <? 0) with false by (symmetry; apply Z.ltb_ge; lia). reflexivity.
Qed.

Lemma getitem_last {A : Type} (l : list A) (d : A) :
  (0 < length l)%nat ->
  getitem l (-1) = Return (nth (length l - 1) l d).
Proof.
  intros H.
  rewrite (getitem_norm l (-1) (Z.of_nat (length l) - 1) d).
  - do 2 f_equal. lia.
  - change (-1 <? 0) with true. cbv iota. lia.
  - lia.
Qed.

Lemma update_length {A : Type} (l : list A) (n : nat) (v : A) :
  length (update l n v) = length l.
Proof.
  revert n. induction l as [ | a t IH]; intros [ | n]; simpl; auto.
Qed.

Lemma update_firstn_snoc {A : Type} (l : list A) (n : nat) (v : A) :
  (n < length l)%nat ->
  firstn (S n) (update l n v) = firstn n l ++ [v].
Proof.
  revert n. induction l as [ | a t IH]; intros [ | n] H; simpl in *; try lia.
  - reflexivity.
  - f_equal. apply IH. lia.
Qed.

Lemma setitem_in_range {A : Type} (l : list A) (i : Z) (v : A) :
  0 <= i < Z.of_nat (length l) ->
  setitem l i v = Return (update l (Z.to_nat i) v).
Proof.
  intros H. unfold setitem.
  replace (i <? 0) with false by (symmetry; apply Z.ltb_ge; lia).
  replace (0 <=? i) with true by (symmetry; apply Z.leb_le; lia).
  replace (i <? Z.of_nat (length l)) with true by (symmetry; apply Z.ltb_lt; lia).
  reflexivity.
Qed.

(** ** Slices *)

Lemma slice_prefix {A : Type} (l : list A) (k : Z) :
  0 <= k -> slice l None (Some k) = firstn (Z.to_nat k) l.
Proof.
  intros Hk. unfold slice, slice_bound.
  replace (k <? 0) with false by (symmetry; apply Z.ltb_ge; lia).
  simpl skipn. rewrite Z.sub_0_r.
  destruct (Z_le_gt_dec k (Z.of_nat (length l))).
  - f_equal. lia.
  - rewrite !firstn_all2 by lia. reflexivity.
Qed.

Lemma slice_suffix {A : Type} (l : list A) (k : Z) :
  0 <= k -> slice l (Some k) None = skipn (Z.to_nat k) l.
Proof.
  intros Hk. unfold slice, slice_bound.
  replace (k <? 0) with false by (symmetry; apply Z.ltb_ge; lia).
  destruct (Z_le_gt_dec k (Z.of_nat (length l))).
  - replace (Z.max 0 (Z.min (Z.of_nat (length l)) k)) with k by lia.
    apply firstn_all2. rewrite length_skipn. lia.
  - rewrite (skipn_all2 l (n := Z.to_nat k)) by lia.
    rewrite skipn_all2 by lia. apply firstn_nil.
Qed.

Lemma slice_drop_last {A : Type} (l : list A) :
  slice l None (Some (-1)) = removelast l.
Proof.
  unfold slice, slice_bound. simpl skipn.
  replace (-1 <? 0) with true by reflexivity.
  rewrite Z.sub_0_r.
  replace (Z.to_nat (Z.max 0 (Z.min (Z.of_nat (length l)) (-1 + Z.of_nat (length l)))))
    with (length l - 1)%nat by lia.
  destruct l as [ | a t]; [reflexivity | ].
  rewrite removelast_firstn_len. f_equal. lia.
Qed.

Lemma slice_last {A : Type} (l : list A) :
  slice l (Some (-1)) None = skipn (length l - 1) l.
Proof.
  unfold slice, slice_bound.
  replace (-1 <? 0) with true by reflexivity.
  replace (Z.to_nat (Z.max 0 (Z.min (Z.of_nat (length l)) (-1 + Z.of_nat (length l)))))
    with (length l - 1)%nat by lia.
  apply firstn_all2. rewrite length_skipn. lia.
Qed.

(** ** Sorted index lists *)

Lemma sorted_snoc (l : list Z) (j : Z) :
  StronglySorted Z.lt l -> Forall (fun e => e < j) l ->
  StronglySorted Z.lt (l ++ [j]).
Proof.
  induction 1 as [ | a l Hs IH Ha]; intros Hj; simpl.
  - constructor; constructor.
  - inversion Hj as [ | ? ? Haj Hlj]; subst. constructor.
    + apply IH. exact Hlj.
    + apply Forall_app. split; [exact Ha | constructor; [exact Haj | constructor]].
Qed.

(** ** The scanner keeps its records ordered and within its arrays *)

Section ScanProofs.
Variable x : list Q.
Variable L : Z.
Variable min_mag : Q.
Variable thresh : Q.
Variable cap : nat.

Hypothesis HL : L = Z.of_nat (length x).
Hypothesis HL2 : 2 <= L.
Hypothesis Hcap : L <= 2 * Z.of_nat cap <= L + 1.
Hypothesis Hmin : forall k, 0 <= k < L -> (min_mag <= at_ x k)%Q.
(** Consecutive candidates alternate between rising and falling. *)
Hypothesis Halt : forall k, 0 <= k -> k + 2 < L ->
  ((at_ x k < at_ x (k + 1))%Q -> (at_ x (k + 2) <= at_ x (k + 1))%Q) /\
  ((at_ x (k + 1) <= at_ x k)%Q -> (at_ x (k + 1) < at_ x (k + 2))%Q).

(* Inside this section the predicates of section [Invariant] are used at
   the section's variables. *)
Local Abbreviation safe := (safe thresh).
Local Abbreviation phase := (phase x L).
Local Abbreviation core := (core x L min_mag thresh cap).
Local Abbreviation mid := (mid x min_mag thresh).
Local Abbreviation Inv := (Inv x L min_mag thresh cap).
Local Abbreviation Post := (Post x L min_mag cap).
Local Abbreviation Final := (Final L cap).

Lemma phase_next (v : Z) : -1 <= v -> phase v -> phase (v + 2).
Proof.
  intros Hv [Hup Hdown]. unfold phase.
  assert (Hmid : v + 3 < L -> (at_ x (v + 2) < at_ x (v + 3))%Q).
  { intros H. destruct (Halt (v + 1) ltac:(lia) ltac:(lia)) as [_ H2].
    replace (v + 1 + 1) with (v + 2) in H2 by lia.
    replace (v + 1 + 2) with (v + 3) in H2 by lia.
    apply H2. apply Hdown. lia. }
  split.
  - intros _ H. replace (v + 2 + 1) with (v + 3) by lia. apply Hmid. lia.
  - intros H. destruct (Halt (v + 2) ltac:(lia) ltac:(lia)) as [H1 _].
    replace (v + 2 + 1) with (v + 3) in * by lia.
    apply H1. apply Hmid. lia.
Qed.

Lemma cap_pos : (0 < cap)%nat.
Proof. lia. Qed.

Lemma peak_step_cases (v : Z) T tl F lm pl pm c :
  -1 <= v -> v + 1 < L -> length pm = cap ->
  exists T1 F1,
    peak_step x min_mag thresh (mk_state v T tl F lm pl pm c)
    = Return (mk_state (v + 1) T1 tl F1 lm pl pm c) /\
    ((T1 = T /\ F1 = F) \/ (T1 = min_mag /\ F1 = false)).
Proof.
  intros Hv Hlt Hpm. unfold peak_step, reset_pending, reset_test, set_ii. cbn [ii found_peak
    temp_mag temp_loc left_min peak_loc peak_mag c_ind].
  destruct F.
  - rewrite (getitem_in_range x (v + 1) 0%Q) by lia.
    rewrite (getitem_last pm 0%Q) by (pose proof cap_pos; lia).
    cbn [bind].
    destruct (Qgtb _ _); cbn [bind].
    + exists min_mag, false. split; [reflexivity | right; auto].
    + destruct (Qltb _ _).
      * exists min_mag, false. split; [reflexivity | right; auto].
      * exists T, true. split; [reflexivity | left; auto].
  - cbn [bind]. exists T, false. split; [reflexivity | left; auto].
Qed.

Lemma track_pending_cases (p : Z) T tl F lm pl pm c :
  0 <= p < L ->
  exists T2 tl2,
    track_pending x thresh (mk_state p T tl F lm pl pm c)
    = Return (mk_state p T2 tl2 F lm pl pm c) /\
    ((T2 = T /\ tl2 = tl /\
      ((at_ x p <= T)%Q \/ (at_ x p <= lm + thresh)%Q)) \/
     (T2 = at_ x p /\ tl2 = Some p /\
      (T < at_ x p)%Q /\ (lm + thresh < at_ x p)%Q)).
Proof.
  intros Hp. unfold track_pending. cbn [ii found_peak
    temp_mag temp_loc left_min peak_loc peak_mag c_ind].
  rewrite (getitem_in_range x p 0%Q) by lia. cbn [bind]. fold (at_ x p).
  destruct (Qgtb (at_ x p) T) eqn:E1; cbn [andb].
  - destruct (Qgtb (at_ x p) (lm + thresh)) eqn:E2.
    + exists (at_ x p), (Some p). split; [reflexivity | right].
      qprop. auto.
    + exists T, tl. split; [reflexivity | left]. qprop. auto.
  - exists T, tl. split; [reflexivity | left]. qprop. auto.
Qed.

Ltac fields := unfold confirmed in *;
               cbn [ii found_peak temp_mag temp_loc left_min peak_loc
                       peak_mag c_ind] in *.

Lemma mid_after_track (v : Z) T tl F lm pl pm c T1 F1 T2 tl2 :
  -1 <= v -> v + 1 < L -> phase v ->
  core v (mk_state v T tl F lm pl pm c) ->
  ((T1 = T /\ F1 = F) \/ (T1 = min_mag /\ F1 = false)) ->
  ((T2 = T1 /\ tl2 = tl /\
    ((at_ x (v + 1) <= T1)%Q \/ (at_ x (v + 1) <= lm + thresh)%Q)) \/
   (T2 = at_ x (v + 1) /\ tl2 = Some (v + 1) /\
    (T1 < at_ x (v + 1))%Q /\ (lm + thresh < at_ x (v + 1))%Q)) ->
  mid v F1 T2 tl2 pl c.
Proof.
  intros Hv Hlt [Hup _] Hc H1 H2.
  pose proof (core_min _ _ _ _ _ _ _ Hc) as HminT.
  pose proof (core_lm _ _ _ _ _ _ _ Hc Hlt) as Hlm.
  pose proof (core_loc _ _ _ _ _ _ _ Hc) as Hloc.
  pose proof (core_fresh _ _ _ _ _ _ _ Hc) as Hfresh.
  pose proof (core_neg _ _ _ _ _ _ _ Hc) as Hneg.
  pose proof (core_range _ _ _ _ _ _ _ Hc) as Hrange.
  pose proof (Hmin (v + 1) ltac:(lia)) as Hm1.
  fields.
  assert (HT1 : (min_mag <= T1)%Q).
  { destruct H1 as [[-> _] | [-> _]]; [exact HminT | apply Qle_refl]. }
  constructor.
  - destruct H2 as [(-> & _) | (-> & _)]; assumption.
  - intros Hth. destruct H2 as [(-> & _ & [H | H]) | (-> & _)];
      [exact H | lra | apply Qle_refl].
  - intros j Hj. destruct H2 as [(_ & -> & _) | (_ & -> & _)].
    + apply Hloc in Hj. lia.
    + inversion Hj. lia.
  - intros HF HT. destruct H2 as [(-> & -> & _) | (-> & -> & _)].
    + destruct H1 as [[-> ->] | [-> _]].
      * apply Hfresh; assumption.
      * exfalso. apply (Qlt_irrefl _ HT).
    + exists (v + 1). split; [reflexivity | ].
      eapply Forall_impl; [ | exact Hrange]. cbv beta. intros e He. lia.
  - intros Hth. destruct H2 as [(-> & -> & [H | H]) | (-> & -> & Hgt & _)].
    + destruct (Z_le_gt_dec 0 v) as [Hv0 | Hv0].
      * left. pose proof (Hup Hv0 Hlt) as Hu.
        pose proof (Hmin v ltac:(lia)) as Hm0. lra.
      * right. destruct tl as [j | ]; [ | reflexivity].
        specialize (Hloc j eq_refl). lia.
    + lra.
    + left. lra.
Qed.

Lemma firstn_confirm (pl : list Z) (c j : Z) :
  0 <= c < Z.of_nat (length pl) ->
  firstn (Z.to_nat (c + 1)) (update pl (Z.to_nat c) j)
  = firstn (Z.to_nat c) pl ++ [j].
Proof.
  intros H. replace (Z.to_nat (c + 1)) with (S (Z.to_nat c)) by lia.
  apply update_firstn_snoc. lia.
Qed.

(** A cursor resting on [v + 2] after a valley step that confirmed no
    record. *)
Lemma core_keep (v : Z) F1 T2 tl2 lm' pl pm c :
  -1 <= v -> v + 2 < L -> phase (v + 2) ->
  length pl = cap -> length pm = cap -> 0 <= c -> 2 * c <= v + 1 ->
  StronglySorted Z.lt (firstn (Z.to_nat c) pl) ->
  Forall (fun e => 0 <= e < v) (firstn (Z.to_nat c) pl) ->
  mid v F1 T2 tl2 pl c ->
  (lm' <= at_ x (v + 2))%Q ->
  core (v + 2) (mk_state (v + 2) T2 tl2 F1 lm' pl pm c).
Proof.
  intros Hv Hlt [Hup _] Hpl Hpm Hc0 Hc1 Hs Hr Hm Hlm.
  destruct Hm as [Mmin Mtop Mloc Mfresh Mneg].
  constructor; fields; try assumption; try lia.
  - eapply Forall_impl; [ | exact Hr]. cbv beta. intros e He. lia.
  - intros H. replace (v + 2 + 1) with (v + 3) in * by lia.
    specialize (Hup ltac:(lia) H). lra.
Qed.

Lemma valley_step_safe (v : Z) F1 T2 tl2 lm pl pm c :
  -1 <= v -> v + 2 < L -> phase v ->
  length pl = cap -> length pm = cap -> 0 <= c -> 2 * c <= v + 1 ->
  StronglySorted Z.lt (firstn (Z.to_nat c) pl) ->
  Forall (fun e => 0 <= e < v) (firstn (Z.to_nat c) pl) ->
  mid v F1 T2 tl2 pl c ->
  safe (fun st => Inv st /\ ii st = v + 2)
       (valley_step x thresh (mk_state (v + 1) T2 tl2 F1 lm pl pm c)).
Proof.
  intros Hv Hlt Hph Hpl Hpm Hc0 Hc1 Hs Hr Hm.
  pose proof (phase_next v Hv Hph) as Hph2.
  pose proof (Hmin (v + 2) ltac:(lia)) as Hm2.
  assert (Hdown : (at_ x (v + 2) <= at_ x (v + 1))%Q) by (apply Hph; lia).
  unfold valley_step. fields.
  replace (v + 1 + 1) with (v + 2) by lia.
  rewrite (getitem_in_range x (v + 2) 0%Q) by lia. fold (at_ x (v + 2)).
  assert (Hkeep : forall lm', (lm' <= at_ x (v + 2))%Q ->
            safe (fun st => Inv st /\ ii st = v + 2)
                 (Return (mk_state (v + 2) T2 tl2 F1 lm' pl pm c))).
  { intros lm' Hlm'. cbn [safe]. split; [ | reflexivity]. unfold Inv. fields.
    split; [lia | split; [exact Hph2 | ]].
    apply core_keep with (F1 := F1); assumption. }
  assert (Hrest :
    safe (fun st => Inv st /\ ii st = v + 2)
         (if Qltb (at_ x (v + 2)) lm
          then Return (mk_state (v + 2) T2 tl2 F1 (at_ x (v + 2)) pl pm c)
          else Return (mk_state (v + 2) T2 tl2 F1 lm pl pm c))).
  { destruct (Qltb (at_ x (v + 2)) lm) eqn:E.
    - apply Hkeep. apply Qle_refl.
    - apply Hkeep. qprop. exact E. }
  destruct F1; cbn [negb bind]; [exact Hrest | ].
  destruct (Qgtb T2 (thresh + at_ x (v + 2))) eqn:E; [ | exact Hrest].
  qprop. destruct Hm as [Mmin Mtop Mloc Mfresh Mneg].
  destruct tl2 as [j | ]; cbn [read_local bind].
  - assert (HT : (min_mag < T2)%Q).
    { destruct (Qlt_le_dec thresh 0) as [Hth | Hth].
      - destruct (Mneg Hth) as [H | H]; [exact H | discriminate].
      - lra. }
    destruct (Mfresh eq_refl HT) as (j' & Hj' & Hlt_j).
    inversion Hj'; subst j'.
    rewrite (setitem_in_range pl c j) by lia.
    rewrite (setitem_in_range pm c T2) by lia.
    cbn [bind safe]. split; [ | reflexivity]. unfold Inv. fields.
    split; [lia | split; [exact Hph2 | ]].
    constructor; fields; try lia.
    + rewrite update_length. exact Hpl.
    + rewrite update_length. exact Hpm.
    + intros _ _. split; [reflexivity | ].
      destruct (Qlt_le_dec thresh 0) as [Hth | Hth].
      * specialize (Mtop Hth). lra.
      * lra.
    + rewrite firstn_confirm by lia. apply sorted_snoc; assumption.
    + rewrite firstn_confirm by lia. apply Forall_app. split.
      * eapply Forall_impl; [ | exact Hr]. cbv beta. intros e He. lia.
      * constructor; [ | constructor]. specialize (Mloc j eq_refl). lia.
    + intros j0 Hj0. inversion Hj0; subst. apply Mloc. reflexivity.
    + exact Mmin.
    + intros _. left. exact HT.
    + intros H. destruct Hph2 as [Hup2 _].
      replace (v + 2 + 1) with (v + 3) in * by lia.
      specialize (Hup2 ltac:(lia) H). lra.
  - cbn [safe]. split; [reflexivity | ].
    destruct (Qlt_le_dec thresh 0) as [Hth | Hth]; [exact Hth | exfalso].
    assert (HT : (min_mag < T2)%Q) by lra.
    destruct (Mfresh eq_refl HT) as (j' & Hj' & _). discriminate.
Qed.

Lemma safe_bind {A B : Type} (P : A -> Prop) (R : B -> Prop)
      (m : outcome A) (k : A -> outcome B) :
  safe P m -> (forall a, P a -> safe R (k a)) -> safe R (bind m k).
Proof.
  destruct m as [a | e | ]; cbn [safe bind]; intros Hm Hk.
  - apply Hk. exact Hm.
  - exact Hm.
  - exact Hm.
Qed.

(** One full turn of the loop body. *)
Lemma body_safe (st : scan_state) :
  Inv st -> ii st + 2 < L ->
  safe (fun st' => Inv st' /\ ii st' = ii st + 2)
       (st1 <- peak_step x min_mag thresh st ;;
        st2 <- track_pending x thresh st1 ;;
        valley_step x thresh st2).
Proof.
  destruct st as [v T tl F lm pl pm c]. intros (Hr & Hph & Hc) Hlt.
  cbn [ii] in *.
  destruct (peak_step_cases v T tl F lm pl pm c) as (T1 & F1 & E1 & H1);
    [lia | lia | apply Hc | ].
  rewrite E1. cbn [bind].
  destruct (track_pending_cases (v + 1) T1 tl F1 lm pl pm c)
    as (T2 & tl2 & E2 & H2); [lia | ].
  rewrite E2. cbn [bind].
  pose proof (mid_after_track v T tl F lm pl pm c T1 F1 T2 tl2
                ltac:(lia) ltac:(lia) Hph Hc H1 H2) as Hm.
  destruct Hc as [C1 C2 C3 C4 C5 C6 C7 C8 C9 C10 C11 C12]. fields.
  apply valley_step_safe; try assumption; lia.
Qed.

(** Leaving the loop through [break]. *)
Lemma peak_break (st : scan_state) :
  Inv st -> ii st + 2 = L ->
  exists st1, peak_step x min_mag thresh st = Return st1 /\ Post st1.
Proof.
  destruct st as [v T tl F lm pl pm c]. intros (Hr & Hph & Hc) Hlt.
  cbn [ii] in *.
  destruct (peak_step_cases v T tl F lm pl pm c) as (T1 & F1 & E1 & H1);
    [lia | lia | apply Hc | ].
  exists (mk_state (v + 1) T1 tl F1 lm pl pm c). split; [exact E1 | ].
  destruct Hc as [C1 C2 C3 C4 C5 C6 C7 C8 C9 C10 C11 C12]. fields.
  constructor; fields; try assumption; try lia.
  - eapply Forall_impl; [ | exact C7]. cbv beta. intros e He. lia.
  - intros HF HT. destruct H1 as [[-> ->] | [-> _]].
    + destruct (C9 HF HT) as (j & Hj & Hlt_j). exists j.
      split; [exact Hj | split; [ | exact Hlt_j]].
      specialize (C8 j Hj). lia.
    + exfalso. apply (Qlt_irrefl _ HT).
Qed.

(** Leaving the loop through its condition. *)
Lemma Inv_exit (st : scan_state) : Inv st -> ii st = L - 1 -> Post st.
Proof.
  destruct st as [v T tl F lm pl pm c]. intros (Hr & Hph & Hc) Hv.
  cbn [ii] in *. subst v.
  destruct Hc as [C1 C2 C3 C4 C5 C6 C7 C8 C9 C10 C11 C12]. fields.
  constructor; fields; try assumption; try lia.
  - destruct (Z.eq_dec (2 * c) (L - 1 + 1)) as [E | E].
    + right. apply C5; lia.
    + left. lia.
  - intros HF HT. destruct (C9 HF HT) as (j & Hj & Hlt_j). exists j.
    split; [exact Hj | split; [ | exact Hlt_j]].
    specialize (C8 j Hj). lia.
Qed.

Lemma scan_loop_safe (fuel : nat) : forall st,
  Inv st -> (Z.to_nat (L - 1 - ii st) <= fuel)%nat ->
  safe Post (scan_loop x L min_mag thresh fuel st).
Proof.
  induction fuel as [ | fuel IH]; intros st HI Hfuel.
  - cbn [scan_loop]. destruct (ii st <? L - 1) eqn:E.
    + apply Z.ltb_lt in E. lia.
    + apply Z.ltb_ge in E. cbn [safe]. apply Inv_exit; [exact HI | ].
      destruct HI as (Hr & _). lia.
  - cbn [scan_loop]. destruct (ii st <? L - 1) eqn:E.
    + apply Z.ltb_lt in E.
      destruct (Z.eq_dec (ii st + 2) L) as [Hlast | Hlast].
      * destruct (peak_break st HI Hlast) as (st1 & E1 & HP).
        rewrite E1. cbn [bind].
        replace (ii st1 =? L - 1) with true
          by (symmetry; apply Z.eqb_eq; apply HP).
        cbn [safe]. exact HP.
      * pose proof (body_safe st HI ltac:(lia)) as Hb.
        destruct st as [v T tl F lm pl pm c].
        destruct HI as (Hr & Hph & Hc). cbn [ii] in *.
        destruct (peak_step_cases v T tl F lm pl pm c) as (T1 & F1 & E1 & _);
          [lia | lia | apply Hc | ].
        rewrite E1 in *. cbn [bind ii] in *.
        replace (v + 1 =? L - 1) with false
          by (symmetry; apply Z.eqb_neq; lia).
        destruct (track_pending x thresh _) as [st2 | e | ];
          cbn [bind safe] in *; try exact Hb.
        destruct (valley_step x thresh st2) as [st3 | e | ];
          cbn [bind safe] in *; try exact Hb.
        destruct Hb as [HI3 Hii3]. apply IH; [exact HI3 | lia].
    + apply Z.ltb_ge in E. cbn [safe]. apply Inv_exit; [exact HI | ].
      destruct HI as (Hr & _). lia.
Qed.

(** The end-point check always has room for its record. *)
Lemma end_point_final (st : scan_state) :
  Post st ->
  exists st', end_point x L min_mag thresh st = Return st' /\ Final st'.
Proof.
  destruct st as [v T tl F lm pl pm c].
  intros [P1 P2 P3 P4 P5 P6 P7 P8 P9]. fields.
  unfold end_point. fields.
  rewrite (getitem_last x 0%Q) by lia.
  replace (length x - 1)%nat with (Z.to_nat (L - 1)) by lia.
  fold (at_ x (L - 1)). cbn [bind].
  assert (Hdone : Final (mk_state v T tl F lm pl pm c)).
  { constructor; fields; try assumption; try lia.
    eapply Forall_impl; [ | exact P8]. cbv beta. intros e He. lia. }
  assert (Hadd : forall j, 2 * c <= L - 1 -> 0 <= j < L ->
            Forall (fun e => e < j) (firstn (Z.to_nat c) pl) ->
            forall m, exists st',
              (pl' <- setitem pl c j ;; pm' <- setitem pm c m ;;
               Return (mk_state v T tl F lm pl' pm' (c + 1))) = Return st' /\
              Final st').
  { intros j Hroom Hj Hlt m.
    rewrite (setitem_in_range pl c j) by lia.
    rewrite (setitem_in_range pm c m) by lia. cbn [bind].
    eexists. split; [reflexivity | ].
    constructor; fields; try lia.
    - rewrite update_length. exact P2.
    - rewrite update_length. exact P3.
    - rewrite firstn_confirm by lia. apply sorted_snoc; assumption.
    - rewrite firstn_confirm by lia. apply Forall_app. split.
      + eapply Forall_impl; [ | exact P8]. cbv beta. intros e He. lia.
      + constructor; [lia | constructor]. }
  destruct (Qgtb (at_ x (L - 1)) T && Qgtb (at_ x (L - 1)) (lm + thresh)) eqn:E1.
  - qprop. apply Hadd.
    + destruct P6 as [H6 | [_ H6]]; [exact H6 | lra].
    + lia.
    + eapply Forall_impl; [ | exact P8]. cbv beta. intros e He. lia.
  - destruct (negb F && Qgtb T min_mag) eqn:E2.
    + qprop. destruct (P9 H H0) as (j & -> & Hj & Hlt). cbn [read_local bind].
      apply Hadd.
      * destruct P6 as [H6 | [H6 _]]; [exact H6 | congruence].
      * lia.
      * exact Hlt.
    + eexists. split; [reflexivity | exact Hdone].
Qed.

Lemma Inv_init (ii0 maxPeaks : Z) :
  ii0 = -1 \/ ii0 = 0 -> phase ii0 -> cap = Z.to_nat maxPeaks ->
  Inv (init_state ii0 min_mag maxPeaks).
Proof.
  intros Hii Hph Hmax. unfold Inv, init_state. fields.
  split; [lia | split; [exact Hph | ]].
  constructor; fields; try lia.
  - rewrite repeat_length. lia.
  - rewrite repeat_length. lia.
  - constructor.
  - constructor.
  - intros j Hj. discriminate.
  - intros _ H. exfalso. apply (Qlt_irrefl _ H).
  - apply Qle_refl.
  - intros _. right. reflexivity.
  - intros H. apply Hmin. lia.
Qed.

(** Loop and end-point check, from the state the scanner starts in. *)
Lemma scan_safe (ii0 maxPeaks : Z) :
  ii0 = -1 \/ ii0 = 0 -> phase ii0 -> cap = Z.to_nat maxPeaks ->
  safe Final
       (st <- scan_loop x L min_mag thresh (Z.to_nat L)
                        (init_state ii0 min_mag maxPeaks) ;;
        end_point x L min_mag thresh st).
Proof.
  intros Hii Hph Hmax.
  apply safe_bind with (P := Post).
  - apply scan_loop_safe.
    + apply Inv_init; assumption.
    + unfold init_state. fields. lia.
  - intros st HP. destruct (end_point_final st HP) as (st' & -> & HF).
    exact HF.
Qed.
End ScanProofs.

(** ** The candidate subsequence alternates *)

Lemma eps_pos : (0 < eps)%Q.
Proof. reflexivity. Qed.

Lemma nudge_pos (a b : Q) : (0 < nudge (b - a))%Q <-> (a < b)%Q.
Proof.
  unfold nudge. pose proof eps_pos as He.
  destruct (Qeq_bool (b - a) 0) eqn:E.
  - apply Qeq_bool_iff in E. split; intros H; lra.
  - split; intros H; lra.
Qed.

Lemma nudge_neg (a b : Q) : (nudge (b - a) < 0)%Q <-> (b <= a)%Q.
Proof.
  unfold nudge. pose proof eps_pos as He.
  destruct (Qeq_bool (b - a) 0) eqn:E.
  - apply Qeq_bool_iff in E. split; intros H; lra.
  - apply Qeq_bool_neq in E. split; intros H; [lra | ].
    destruct (Qlt_le_dec (b - a) 0) as [Hlt | Hge]; [exact Hlt | ].
    exfalso. apply E. lra.
Qed.

Lemma turn_xorb (a b c : Q) :
  Qltb (nudge (b - a) * nudge (c - b)) 0 = xorb (Qltb a b) (Qltb b c).
Proof.
  destruct (Qltb a b) eqn:E1; destruct (Qltb b c) eqn:E2; cbn [xorb]; qprop.
  - apply Qltb_ge. apply nudge_pos in E1. apply nudge_pos in E2.
    apply Qmult_le_0_compat; apply Qlt_le_weak; assumption.
  - apply Qltb_lt. apply nudge_pos in E1. apply nudge_neg in E2. nra.
  - apply Qltb_lt. apply nudge_neg in E1. apply nudge_pos in E2. nra.
  - apply Qltb_ge. apply nudge_neg in E1. apply nudge_neg in E2. nra.
Qed.

Lemma turn_mask_cons (a b c : Q) (r : list Q) :
  turn_mask (a :: b :: c :: r)
  = Qltb (nudge (b - a) * nudge (c - b)) 0 :: turn_mask (b :: c :: r).
Proof.
  unfold turn_mask. cbv zeta.
  rewrite !slice_drop_last, !slice_suffix by lia.
  change (Z.to_nat 1) with 1%nat.
  change (diff (a :: b :: c :: r)) with ((b - a)%Q :: diff (b :: c :: r)).
  change (diff (b :: c :: r)) with ((c - b)%Q :: diff (c :: r)).
  cbn [map removelast skipn mul_arrays]. reflexivity.
Qed.

Lemma interior_cons (a b c : Q) (r : list Q) :
  interior (a :: b :: c :: r)
  = if Qltb (nudge (b - a) * nudge (c - b)) 0
    then b :: interior (b :: c :: r) else interior (b :: c :: r).
Proof. reflexivity. Qed.

Lemma take_interior (l : list Q) : forall pre : list Q,
  take (pre ++ l)
       (map (fun i => i + 1) (where_from (Z.of_nat (length pre)) (turn_mask l)))
  = Return (interior l).
Proof.
  induction l as [ | a l IH]; intros pre; [reflexivity | ].
  destruct l as [ | b [ | c r]]; try reflexivity.
  rewrite turn_mask_cons, interior_cons. cbn [where_from].
  assert (Hrest :
    take (pre ++ a :: b :: c :: r)
         (map (fun i => i + 1)
              (where_from (Z.of_nat (length pre) + 1) (turn_mask (b :: c :: r))))
    = Return (interior (b :: c :: r))).
  { specialize (IH (pre ++ [a])). rewrite <- app_assoc in IH.
    rewrite length_app in IH. cbn [length app] in IH.
    replace (Z.of_nat (length pre + 1)) with (Z.of_nat (length pre) + 1) in IH by lia.
    exact IH. }
  destruct (Qltb (nudge (b - a) * nudge (c - b)) 0).
  - cbn [map take].
    rewrite (getitem_in_range (pre ++ a :: b :: c :: r) (Z.of_nat (length pre) + 1) 0%Q)
      by (rewrite length_app; cbn [length]; lia).
    replace (Z.to_nat (Z.of_nat (length pre) + 1)) with (length pre + 1)%nat by lia.
    rewrite app_nth2 by lia.
    replace (length pre + 1 - length pre)%nat with 1%nat by lia.
    cbn [nth bind]. rewrite Hrest. reflexivity.
  - exact Hrest.
Qed.

Lemma where_from_sorted (mask : list bool) : forall n : Z,
  StronglySorted Z.lt (where_from n mask) /\
  Forall (fun i => n <= i < n + Z.of_nat (length mask)) (where_from n mask).
Proof.
  induction mask as [ | b mask IH]; intros n; cbn [where_from length].
  - split; constructor.
  - destruct (IH (n + 1)) as [Hs Hr].
    assert (Hr' : Forall (fun i => n <= i < n + Z.of_nat (S (length mask)))
                         (where_from (n + 1) mask)).
    { eapply Forall_impl; [ | exact Hr]. cbv beta. intros i Hi. lia. }
    destruct b.
    + split.
      * constructor; [exact Hs | ].
        eapply Forall_impl; [ | exact Hr]. cbv beta. intros i Hi. lia.
      * constructor; [lia | exact Hr'].
    + split; assumption.
Qed.

Lemma turn_mask_length (l : list Q) : length (turn_mask l) = (length l - 2)%nat.
Proof.
  induction l as [ | a l IH]; [reflexivity | ].
  destruct l as [ | b [ | c r]]; try reflexivity.
  rewrite turn_mask_cons. cbn [length] in *. lia.
Qed.

Lemma interior_length (l : list Q) : forall n : Z,
  length (interior l) = length (where_from n (turn_mask l)).
Proof.
  induction l as [ | a l IH]; intros n; [reflexivity | ].
  destruct l as [ | b [ | c r]]; try reflexivity.
  rewrite turn_mask_cons, interior_cons. cbn [where_from].
  destruct (Qltb (nudge (b - a) * nudge (c - b)) 0); cbn [length];
    rewrite (IH (n + 1)); reflexivity.
Qed.

(** The candidate subsequence in closed form. *)
Lemma candidates_eq (nd : nat) (x0 : list Q) :
  nd <> O ->
  candidates nd x0
  = Return (firstn 1 x0 ++ interior x0 ++ skipn (length x0 - 1) x0,
            [0] ++ map (fun i => i + 1) (np_where (turn_mask x0))
                ++ [Z.of_nat (length x0) - 1]).
Proof.
  intros Hnd. unfold candidates, np_diff.
  destruct nd as [ | nd]; [congruence | ]. cbn [bind].
  fold (turn_mask x0). unfold np_where.
  pose proof (take_interior x0 []) as Ht. cbn [app length] in Ht.
  change (Z.of_nat 0) with 0 in Ht. rewrite Ht. cbn [bind].
  rewrite slice_prefix by lia. rewrite slice_last. reflexivity.
Qed.

Lemma interior_alt (r : list Q) : forall a b a0 : Q,
  (if Qltb a b then (a0 <= a)%Q else (a <= a0)%Q) ->
  alt (Qltb a b) (a0 :: interior (a :: b :: r) ++ [last (a :: b :: r) 0%Q]).
Proof.
  induction r as [ | c r IH]; intros a b a0 H0.
  - cbn [interior app last alt]. destruct (Qltb a b) eqn:E; qprop; split; auto; lra.
  - rewrite interior_cons, turn_xorb.
    change (last (a :: b :: c :: r) 0%Q) with (last (b :: c :: r) 0%Q).
    specialize (IH b c).
    destruct (Qltb a b) eqn:E1; destruct (Qltb b c) eqn:E2; cbn [xorb negb] in *; qprop.
    + apply IH. lra.
    + cbn [app alt]. split; [lra | ]. apply (IH b). apply Qle_refl.
    + cbn [app alt]. split; [lra | ]. apply (IH b). apply Qle_refl.
    + apply IH. lra.
Qed.

Lemma alt_tail (up : bool) (a : Q) (t : list Q) : alt up (a :: t) -> alt (negb up) t.
Proof.
  destruct t as [ | b t]; cbn [alt]; [auto | intros [_ H]; exact H].
Qed.

Lemma alt_nth (k : nat) : forall (up : bool) (l : list Q),
  alt up l -> (k + 2 < length l)%nat ->
  ((nth k l 0 < nth (k + 1) l 0)%Q -> (nth (k + 2) l 0 <= nth (k + 1) l 0)%Q) /\
  ((nth (k + 1) l 0 <= nth k l 0)%Q -> (nth (k + 1) l 0 < nth (k + 2) l 0)%Q).
Proof.
  induction k as [ | k IH]; intros up l Ha Hlen.
  - destruct l as [ | a [ | b [ | c r]]]; cbn [length] in Hlen; try lia.
    cbn [alt nth Nat.add] in *. destruct Ha as (H1 & H2 & _).
    destruct up; cbn [negb] in *; split; intros H; solve [assumption | lra].
  - destruct l as [ | a t]; cbn [length] in Hlen; [lia | ].
    apply alt_tail in Ha. cbn [Nat.add nth].
    apply (IH (negb up) t Ha). lia.
Qed.

Lemma alt_at (up : bool) (l : list Q) (k : Z) :
  alt up l -> 0 <= k -> k + 2 < Z.of_nat (length l) ->
  ((at_ l k < at_ l (k + 1))%Q -> (at_ l (k + 2) <= at_ l (k + 1))%Q) /\
  ((at_ l (k + 1) <= at_ l k)%Q -> (at_ l (k + 1) < at_ l (k + 2))%Q).
Proof.
  intros Ha Hk Hlen. unfold at_.
  replace (Z.to_nat (k + 1)) with (Z.to_nat k + 1)%nat by lia.
  replace (Z.to_nat (k + 2)) with (Z.to_nat k + 2)%nat by lia.
  apply (alt_nth _ up); [exact Ha | lia].
Qed.

(** ** [np.min], [np.sign] and the capacity *)

Lemma fold_min_le (t : list Q) : forall a : Q,
  (fold_left (fun m v => if Qltb v m then v else m) t a <= a)%Q /\
  Forall (fun v => (fold_left (fun m v => if Qltb v m then v else m) t a <= v)%Q) t.
Proof.
  induction t as [ | b t IH]; intros a; cbn [fold_left].
  - split; [apply Qle_refl | constructor].
  - destruct (IH (if Qltb b a then b else a)) as [H1 H2].
    destruct (Qltb b a) eqn:E; qprop.
    + split; [lra | constructor; [exact H1 | exact H2]].
    + split; [exact H1 | constructor; [lra | exact H2]].
Qed.

Lemma np_min_le (l : list Q) (m : Q) :
  np_min l = Return m -> Forall (fun v => (m <= v)%Q) l.
Proof.
  destruct l as [ | a t]; cbn [np_min]; intros H; [discriminate | ].
  inversion H; subst. destruct (fold_min_le t a) as [H1 H2].
  constructor; assumption.
Qed.

Lemma np_min_at (l : list Q) (m : Q) (k : Z) :
  np_min l = Return m -> 0 <= k < Z.of_nat (length l) -> (m <= at_ l k)%Q.
Proof.
  intros H Hk. pose proof (np_min_le l m H) as Hall.
  rewrite Forall_forall in Hall. apply Hall. unfold at_. apply nth_In. lia.
Qed.

Lemma np_sign_nonpos (a b : Q) : np_sign (b - a) <= 0 <-> (b <= a)%Q.
Proof.
  unfold np_sign. split; intros H.
  - assert (Hq : (b - a <= 0)%Q).
    { unfold Qle. cbn [Qnum Qden]. rewrite Z.mul_1_r, Z.mul_0_l.
      destruct (Qnum (b - a)); cbn in H; lia. }
    lra.
  - assert (Hq : (b - a <= 0)%Q) by lra.
    unfold Qle in Hq. cbn [Qnum Qden] in Hq. rewrite Z.mul_1_r, Z.mul_0_l in Hq.
    destruct (Qnum (b - a)); cbn; lia.
Qed.

Lemma np_sign_range (q : Q) : -1 <= np_sign q <= 1.
Proof. unfold np_sign. destruct (Qnum q); cbn; lia. Qed.

Lemma ceil_half_eq (n : Z) : ceil_half n = - ((- n) / 2).
Proof.
  unfold ceil_half, Qceiling, Qfloor, Qdiv, Qmult, Qinv, Qopp, inject_Z.
  cbn [Qnum Qden Pos.mul]. rewrite Z.mul_1_r. reflexivity.
Qed.

Lemma ceil_half_bounds (n : Z) : n <= 2 * ceil_half n <= n + 1.
Proof.
  rewrite ceil_half_eq.
  pose proof (Z.div_mod (- n) 2 ltac:(lia)) as H1.
  pose proof (Z.mod_pos_bound (- n) 2 ltac:(lia)) as H2.
  lia.
Qed.

(** With alternating candidates the bootstrap never drops the first point:
    it only chooses where the cursor starts. *)
Lemma bootstrap_alt (up : bool) (x : list Q) (ind : list Z) (n : Z) :
  alt up x -> (2 < length x)%nat ->
  bootstrap x ind n = Return ((if up then 0 else -1), x, ind, n) /\
  up = Qltb (at_ x 0) (at_ x 1).
Proof.
  intros Ha Hlen.
  destruct x as [ | a [ | b [ | c r]]]; cbn [length] in Hlen; try lia.
  cbn [alt] in Ha. destruct Ha as (H1 & H2 & _).
  unfold bootstrap. rewrite slice_prefix by lia.
  change (Z.to_nat 3) with 3%nat. cbn [firstn diff map].
  rewrite (getitem_in_range _ 0 0) by (cbn [length]; lia).
  rewrite (getitem_in_range _ 1 0) by (cbn [length]; lia).
  change (Z.to_nat 0) with 0%nat. change (Z.to_nat 1) with 1%nat.
  cbn [nth bind]. unfold at_. change (Z.to_nat 0) with 0%nat.
  change (Z.to_nat 1) with 1%nat. cbn [nth].
  pose proof (np_sign_nonpos a b) as S0. pose proof (np_sign_nonpos b c) as S1.
  pose proof (np_sign_range (b - a)) as R0. pose proof (np_sign_range (c - b)) as R1.
  destruct up; cbn [negb] in *.
  - replace (np_sign (b - a) <=? 0) with false
      by (symmetry; apply Z.leb_gt; apply Z.nle_gt; intros H; apply S0 in H; lra).
    replace (np_sign (b - a) =? np_sign (c - b)) with false.
    + split; [reflexivity | ]. symmetry. apply Qltb_lt. exact H1.
    + symmetry. apply Z.eqb_neq. intros E.
      assert (np_sign (c - b) <= 0) by (apply S1; exact H2).
      assert (~ np_sign (b - a) <= 0) by (intros H'; apply S0 in H'; lra). lia.
  - replace (np_sign (b - a) <=? 0) with true
      by (symmetry; apply Z.leb_le; apply S0; exact H1).
    replace (np_sign (b - a) =? np_sign (c - b)) with false.
    + split; [reflexivity | ]. symmetry. apply Qltb_ge. exact H1.
    + symmetry. apply Z.eqb_neq. intros E.
      assert (np_sign (b - a) <= 0) by (apply S0; exact H1).
      assert (~ np_sign (c - b) <= 0) by (intros H'; apply S1 in H'; lra). lia.
Qed.

(** ** From the signal to the scanner *)

Lemma skipn_last (l : list Q) :
  l <> [] -> skipn (length l - 1) l = [last l 0%Q].
Proof.
  induction l as [ | a t IH]; intros H; [congruence | ].
  destruct t as [ | b t']; [reflexivity | ].
  change (last (a :: b :: t') 0%Q) with (last (b :: t') 0%Q).
  rewrite <- IH by discriminate.
  cbn [length]. replace (S (S (length t')) - 1)%nat with (S (length t')) by lia.
  cbn [skipn]. f_equal. lia.
Qed.

(** The candidates of a signal with at least two samples alternate, starting
    with a rise exactly when the second sample exceeds the first. *)
Lemma candidates_alt (a b : Q) (r : list Q) :
  alt (Qltb a b)
      (firstn 1 (a :: b :: r) ++ interior (a :: b :: r)
       ++ skipn (length (a :: b :: r) - 1) (a :: b :: r)).
Proof.
  rewrite skipn_last by discriminate. cbn [firstn app].
  apply interior_alt. destruct (Qltb a b); apply Qle_refl.
Qed.

Lemma candidates_ind_sorted (x0 : list Q) :
  (2 <= length x0)%nat ->
  StronglySorted Z.lt
    ([0] ++ map (fun i => i + 1) (np_where (turn_mask x0))
         ++ [Z.of_nat (length x0) - 1]).
Proof.
  intros Hlen. unfold np_where.
  destruct (where_from_sorted (turn_mask x0) 0) as [Hs Hr].
  rewrite turn_mask_length in Hr.
  assert (Hs1 : StronglySorted Z.lt
                  (map (fun i => i + 1) (where_from 0 (turn_mask x0)))).
  { clear Hr. induction Hs as [ | i l Hs IH Hi]; cbn [map]; constructor.
    - exact IH.
    - rewrite Forall_map. eapply Forall_impl; [ | exact Hi]. cbv beta. intros; lia. }
  assert (Hr1 : Forall (fun i => 0 < i < Z.of_nat (length x0) - 1)
                  (map (fun i => i + 1) (where_from 0 (turn_mask x0)))).
  { rewrite Forall_map. eapply Forall_impl; [ | exact Hr]. cbv beta. intros; lia. }
  cbn [app]. constructor.
  - apply sorted_snoc; [exact Hs1 | ].
    eapply Forall_impl; [ | exact Hr1]. cbv beta. intros; lia.
  - apply Forall_app. split.
    + eapply Forall_impl; [ | exact Hr1]. cbv beta. intros; lia.
    + constructor; [lia | constructor].
Qed.

Lemma candidates_lengths (x0 : list Q) :
  x0 <> [] ->
  length (firstn 1 x0 ++ interior x0 ++ skipn (length x0 - 1) x0)
  = length ([0] ++ map (fun i => i + 1) (np_where (turn_mask x0))
                ++ [Z.of_nat (length x0) - 1]).
Proof.
  intros H. rewrite skipn_last by exact H.
  destruct x0 as [ | a t]; [congruence | ].
  rewrite !length_app, length_map. unfold np_where.
  rewrite (interior_length (a :: t) 0). reflexivity.
Qed.

(** The scanner on the candidates of any signal, in exact arithmetic,
    where the candidates alternate: it stops only on an unassigned
    [temp_loc] under a negative threshold, and otherwise returns the
    candidate indices unchanged and a state whose records are ordered and
    fit the preallocated arrays. *)
Lemma scanner_safe (x0 : list Q) (thresh : Q) (x : list Q) (ind : list Z)
      (min_mag : Q) :
  candidates 1 x0 = Return (x, ind) ->
  (2 < length x)%nat ->
  np_min x = Return min_mag ->
  safe thresh
       (fun r => fst r = ind /\
                 Final (Z.of_nat (length x))
                       (Z.to_nat (ceil_half (Z.of_nat (length x)))) (snd r))
       (scanner x ind min_mag thresh).
Proof.
  intros Hc Hlen Hm. rewrite candidates_eq in Hc by discriminate.
  assert (Hx : x = firstn 1 x0 ++ interior x0 ++ skipn (length x0 - 1) x0)
    by congruence.
  clear Hc.
  destruct x0 as [ | a [ | b r]];
    [ rewrite Hx in Hlen; simpl in Hlen; lia
    | rewrite Hx in Hlen; simpl in Hlen; lia | ].
  assert (Ha : alt (Qltb a b) x) by (rewrite Hx; apply candidates_alt).
  clear Hx.
  unfold scanner.
  remember (Z.of_nat (length x)) as L eqn:HL.
  pose proof (ceil_half_bounds L) as Hcb.
  destruct (bootstrap_alt (Qltb a b) x ind L Ha Hlen) as [Hb Hup].
  rewrite Hb. cbn [bind].
  set (ii0 := if Qltb a b then 0 else -1).
  assert (Halt : forall k, 0 <= k -> k + 2 < L ->
    ((at_ x k < at_ x (k + 1))%Q -> (at_ x (k + 2) <= at_ x (k + 1))%Q) /\
    ((at_ x (k + 1) <= at_ x k)%Q -> (at_ x (k + 1) < at_ x (k + 2))%Q)).
  { intros k Hk Hk2. apply (alt_at (Qltb a b)); [exact Ha | exact Hk | lia]. }
  assert (HL2 : 2 <= L) by lia.
  assert (Hcap : L <= 2 * Z.of_nat (Z.to_nat (ceil_half L)) <= L + 1) by lia.
  pose proof (scan_safe x L min_mag thresh (Z.to_nat (ceil_half L))
                HL HL2 Hcap
                (fun k Hk => np_min_at x min_mag k Hm ltac:(lia)) Halt
                ii0 (ceil_half L)) as Hs.
  assert (Hii : ii0 = -1 \/ ii0 = 0) by (unfold ii0; destruct (Qltb a b); auto).
  assert (Hph : phase x L ii0).
  { unfold phase, ii0. destruct (Qltb a b) eqn:E.
    - symmetry in Hup. apply Qltb_lt in Hup. split.
      + intros _ _. exact Hup.
      + intros H. apply (Halt 0); [lia | lia | exact Hup].
    - symmetry in Hup. apply Qltb_ge in Hup. split.
      + intros H. lia.
      + intros _. exact Hup. }
  specialize (Hs Hii Hph eq_refl).
  destruct (scan_loop x L min_mag thresh (Z.to_nat L) _) as [st | e | ];
    cbn [bind safe] in *; try exact Hs.
  destruct (end_point x L min_mag thresh st) as [st' | e | ];
    cbn [bind safe] in *; try exact Hs.
  split; [reflexivity | exact Hs].
Qed.

(** ** Reading the records out *)

Lemma sorted_nth (l : list Z) :
  StronglySorted Z.lt l ->
  forall (i j : nat) (d : Z), (i < j < length l)%nat -> nth i l d < nth j l d.
Proof.
  induction 1 as [ | a l Hs IH Ha]; intros i j d Hij; cbn [length] in Hij; [lia | ].
  destruct j as [ | j]; [lia | ]. destruct i as [ | i]; cbn [nth].
  - rewrite Forall_forall in Ha. apply Ha. apply nth_In. lia.
  - apply IH. lia.
Qed.

Lemma take_in_range {A : Type} (l : list A) (d : A) (ps : list Z) :
  Forall (fun e => 0 <= e < Z.of_nat (length l)) ps ->
  take l ps = Return (map (fun e => nth (Z.to_nat e) l d) ps).
Proof.
  induction 1 as [ | e ps He Hps IH]; [reflexivity | ].
  cbn [take map]. rewrite (getitem_in_range l e d He). cbn [bind].
  rewrite IH. reflexivity.
Qed.

Lemma map_nth_sorted (l ps : list Z) :
  StronglySorted Z.lt l -> StronglySorted Z.lt ps ->
  Forall (fun e => 0 <= e < Z.of_nat (length l)) ps ->
  StronglySorted Z.lt (map (fun e => nth (Z.to_nat e) l 0) ps).
Proof.
  intros Hl Hps. induction Hps as [ | e ps Hs IH He]; intros Hr; cbn [map].
  - constructor.
  - inversion Hr as [ | ? ? He0 Hr0]; subst. constructor; [apply IH; exact Hr0 | ].
    rewrite Forall_map. rewrite Forall_forall in *. intros e' Hin.
    specialize (He e' Hin). specialize (Hr0 e' Hin).
    apply sorted_nth; [exact Hl | lia].
Qed.

Lemma argmax_from_range (l : list Q) : forall (i best_i : Z) (best : Q),
  0 <= best_i < i ->
  0 <= argmax_from l i best_i best < i + Z.of_nat (length l).
Proof.
  induction l as [ | v l IH]; intros i best_i best H; cbn [argmax_from length].
  - lia.
  - destruct (Qltb best v).
    + specialize (IH (i + 1) i v ltac:(lia)). lia.
    + specialize (IH (i + 1) best_i best ltac:(lia)). lia.
Qed.

Lemma np_argmax_range (l : list Q) (k : Z) :
  np_argmax l = Return k -> 0 <= k < Z.of_nat (length l).
Proof.
  destruct l as [ | a t]; cbn [np_argmax]; intros H; [discriminate | ].
  inversion H; subst. pose proof (argmax_from_range t 1 0 a ltac:(lia)).
  cbn [length]. lia.
Qed.

(** ** Every call of [peak_finder] *)

Lemma np_min_cases (l : list Q) :
  (l = [] /\ np_min l = Raise ValueError) \/ (exists m, l <> [] /\ np_min l = Return m).
Proof.
  destruct l as [ | a t]; [left; auto | right].
  eexists. split; [discriminate | reflexivity].
Qed.

Lemma degenerate_outcome (x : list Q) (ind : list Z) (min_mag thresh : Q) :
  x <> [] -> length x = length ind ->
  (exists i v, degenerate x ind min_mag thresh = Return (NpScalar i, NpScalar v)) \/
  degenerate x ind min_mag thresh = Return (PyList [], PyList []).
Proof.
  intros Hx Hlen. unfold degenerate.
  destruct (np_argmax x) as [k | e | ] eqn:Hk;
    [ | destruct x; [congruence | discriminate] .. ].
  pose proof (np_argmax_range x k Hk) as Hr. cbn [bind].
  rewrite (getitem_in_range x k 0%Q Hr). cbn [bind].
  destruct (Qgtb _ _); [ | right; reflexivity].
  rewrite (getitem_in_range ind k 0) by lia. cbn [bind].
  left. eexists. eexists. reflexivity.
Qed.

Lemma scanner_branch_safe (w : list Q) (t : Q) (x : list Q) (ind : list Z) (m : Q) :
  candidates 1 w = Return (x, ind) ->
  (2 < length x)%nat ->
  np_min x = Return m ->
  safe t (fun r => exists l mags, r = (NpArray l, NpArray mags) /\
                                  StronglySorted Z.lt l /\ length l = length mags)
       (scanner_branch x ind m t).
Proof.
  intros Hc Hbig Hm.
  pose proof (scanner_safe w t x ind m Hc Hbig Hm) as Hs.
  rewrite candidates_eq in Hc by discriminate.
  assert (Hx : x = firstn 1 w ++ interior w ++ skipn (length w - 1) w)
    by congruence.
  assert (Hind : ind = [0] ++ map (fun i => i + 1) (np_where (turn_mask w))
                           ++ [Z.of_nat (length w) - 1]) by congruence.
  clear Hc.
  assert (Hw : (2 <= length w)%nat).
  { rewrite Hx in Hbig. destruct w as [ | a [ | b r]]; simpl in Hbig; try lia.
    cbn [length]. lia. }
  assert (Hlen : length x = length ind).
  { rewrite Hx, Hind. apply candidates_lengths. destruct w; [cbn in Hw; lia | discriminate]. }
  unfold scanner_branch.
  destruct (scanner x ind m t) as [[ind' st] | e | ]; cbn [safe bind] in *;
    [ | exact Hs | exact Hs].
  destruct Hs as [Hi HF]. cbn [fst snd] in *. subst ind'.
  destruct HF as [F1 F2 F3 F4 F5]. unfold confirmed in *.
  rewrite !slice_prefix by lia.
  rewrite (take_in_range ind 0) by (rewrite <- Hlen; exact F5).
  cbn [bind safe]. eexists. eexists. split; [reflexivity | ]. split.
  - apply map_nth_sorted; [ | exact F4 | rewrite <- Hlen; exact F5].
    rewrite Hind. apply candidates_ind_sorted. exact Hw.
  - rewrite length_map, !length_firstn. lia.
Qed.

Lemma peak_finder_None (x0 : ndarray) (extrema : Z) (mx mn : Q) :
  np_max (flat x0) = Return mx -> np_min (flat x0) = Return mn ->
  peak_finder x0 None extrema
  = peak_finder x0 (Some ((mx - mn) / 4)%Q) extrema.
Proof.
  intros Hmx Hmn. unfold peak_finder, resolve_thresh, default_thresh.
  rewrite Hmx, Hmn. reflexivity.
Qed.

(** * The claims *)

(** ** C1: the reset test of the peak step *)

(** C1 (fails on the code).  The comment above line 193 and the claim say
    that a confirmed peak is forgotten when the new candidate exceeds the
    most recently confirmed peak or [left_min] lies more than [thresh] below
    it.  The code compares with [peak_mag[-1]], the last slot of the
    preallocated array, which is still [0.0] here.  For the signal
    [-3, 1, -3, -1, -3] with threshold 3 the first turn of the loop confirms
    the peak [(1, 1)] with [left_min = -3]; at the next peak step ([ii = 3])
    the test of the code is false, while the test against the confirmed
    peak is true ([-3 < 1 - 3]), and the code leaves [found_peak] set. *)
Theorem reset_test_ignores_confirmed_peak :
  let x := qs [-3; 1; -3; -1; -3] in
  candidates 1 x = Return (x, [0; 1; 2; 3; 4]) /\
  np_min x = Return (-3)%Q /\
  bootstrap x [0; 1; 2; 3; 4] 5 = Return (0, x, [0; 1; 2; 3; 4], 5) /\
  exists st1,
    (s <- peak_step x (-3) 3 (init_state 0 (-3) (ceil_half 5)) ;;
     s <- track_pending x 3 s ;;
     valley_step x 3 s) = Return st1 /\
    found_peak st1 = true /\
    ii st1 = 2 /\
    left_min st1 = (-3)%Q /\
    getitem (peak_mag st1) (c_ind st1 - 1) = Return 1%Q /\
    getitem (peak_mag st1) (-1) = Return 0%Q /\
    reset_test_last_confirmed x 3 (set_ii st1 3) = Return true /\
    reset_test x 3 (set_ii st1 3) = Return false /\
    peak_step x (-3) 3 st1 = Return (set_ii st1 3).
Proof.
  cbv zeta. repeat split; try (vm_compute; reflexivity).
  eexists. split; [vm_compute; reflexivity | ].
  repeat split; vm_compute; reflexivity.
Qed.

(** ** C2: the monotone signal [1, 2, 3, 4, 5] *)

(** C2 (fails on the code).  When [5 > 1 + t] the degenerate branch binds
    [peak_inds] to the NumPy scalar [ind[x_ind]], and [len(peak_inds)] on
    line 248 raises [TypeError]; the record [(4, 5)] is never returned.
    Otherwise the two empty lists are returned. *)
Theorem monotone_signal_outcome (t : Q) :
  peak_finder (vector (qs [1; 2; 3; 4; 5])) (Some t) 1
  = if Qgtb 5 (1 + t) then Raise TypeError
    else Return (PyList [], PyList []).
Proof.
  unfold peak_finder, vector. cbn [ndim flat resolve_thresh bind].
  change (2 <=? 1)%nat with false. cbv iota.
  change (negb ((1 =? -1) || (1 =? 1))) with false. cbv iota.
  change (working_signal 1 (qs [1; 2; 3; 4; 5])) with (qs [1; 2; 3; 4; 5]).
  replace (candidates 1 (qs [1; 2; 3; 4; 5]))
    with (Return (A := list Q * list Z) (qs [1; 5], [0; 4]))
    by (vm_compute; reflexivity).
  cbn [bind].
  change (np_min (qs [1; 5])) with (Return 1%Q). cbn [bind].
  change (2 <? Z.of_nat (length (qs [1; 5]))) with false. cbv iota.
  unfold degenerate.
  change (np_argmax (qs [1; 5])) with (Return 1). cbn [bind].
  change (getitem (qs [1; 5]) 1) with (Return 5%Q). cbn [bind].
  destruct (Qgtb 5 (1 + t)).
  - reflexivity.
  - reflexivity.
Qed.

(** ** C3: minima against maxima of the negated signal *)

Lemma Qmult_minus_one (v : Q) : (inject_Z (-1) * v)%Q = (- v)%Q.
Proof. destruct v as [n d]. destruct n; reflexivity. Qed.

(** What does hold between the two calls: the call for minima is the call
    for maxima on the negated signal followed by the in-place product with
    [-1.0], which raises [TypeError] on a Python list. *)
Lemma minima_mirror (S : list Q) (t : Q) :
  peak_finder (vector S) (Some t) (-1)
  = (r <- peak_finder (vector (map Qopp S)) (Some t) 1 ;;
     m <- imul_float (snd r) (-1) ;;
     Return (fst r, m)).
Proof.
  unfold peak_finder, vector. cbn [ndim flat resolve_thresh bind].
  change (2 <=? 1)%nat with false. cbv iota.
  change (negb ((-1 =? -1) || (-1 =? 1))) with false.
  change (negb ((1 =? -1) || (1 =? 1))) with false. cbv iota.
  replace (working_signal (-1) S) with (map Qopp S)
    by (unfold working_signal; cbv iota; apply map_ext; intros v;
        symmetry; apply Qmult_minus_one).
  change (working_signal 1 (map Qopp S)) with (map Qopp S).
  destruct (candidates 1 (map Qopp S)) as [[x ind] | e | ]; cbn [bind];
    try reflexivity.
  destruct (np_min x) as [m | e | ]; cbn [bind]; try reflexivity.
  match goal with
  | |- bind ?b _ = _ => destruct b as [[pi pm] | e | ]
  end; cbn [bind]; try reflexivity.
  change (-1 <? 0) with true. change (1 <? 0) with false. cbv iota. cbn [bind].
  destruct pi; destruct pm; reflexivity.
Qed.

(** C3 (fails on the code).  For [S = [1, 2, 3]] and threshold 5 no extremum
    clears the threshold.  On [-S] with maxima the two empty lists are
    returned; on [S] with minima line 244 multiplies the empty Python list
    by [-1.0] and [TypeError] is raised. *)
Theorem minima_empty_result_raises :
  peak_finder (vector (qs [1; 2; 3])) (Some 5%Q) (-1) = Raise TypeError /\
  peak_finder (vector (map Qopp (qs [1; 2; 3]))) (Some 5%Q) 1
  = Return (PyList [], PyList []).
Proof. split; vm_compute; reflexivity. Qed.

Lemma nth_update_same {A : Type} (l : list A) : forall (n : nat) (v d : A),
  (n < length l)%nat -> nth n (update l n v) d = v.
Proof.
  induction l as [ | a t IH]; intros [ | n] v d H; cbn [length] in H; try lia.
  - reflexivity.
  - cbn [update nth]. apply IH. lia.
Qed.

Lemma nth_update_other {A : Type} (l : list A) : forall (n k : nat) (v d : A),
  k <> n -> nth k (update l n v) d = nth k l d.
Proof.
  induction l as [ | a t IH]; intros [ | n] [ | k] v d H; try reflexivity; try lia.
  cbn [update nth]. apply IH. lia.
Qed.

Lemma Forall2_firstn_map {A B C : Type} (f : A -> C) (R : C -> B -> Prop)
      (da : A) (db : B) (n : nat) : forall (la : list A) (lb : list B),
  (n <= length la)%nat -> (n <= length lb)%nat ->
  (forall k, (k < n)%nat -> R (f (nth k la da)) (nth k lb db)) ->
  Forall2 R (map f (firstn n la)) (firstn n lb).
Proof.
  induction n as [ | n IH]; intros la lb Ha Hb H; [constructor | ].
  destruct la as [ | a la]; cbn [length] in Ha; [lia | ].
  destruct lb as [ | b lb]; cbn [length] in Hb; [lia | ].
  cbn [firstn map]. constructor.
  - apply (H 0%nat). lia.
  - apply IH; [lia | lia | ]. intros k Hk. apply (H (S k)). lia.
Qed.

(** ** The scanner on any candidate list, with a threshold that is not
    negative *)

Lemma confirm_snoc (pl : list Z) (c j : Z) :
  0 <= c < Z.of_nat (length pl) ->
  firstn (Z.to_nat (c + 1)) (update pl (Z.to_nat c) j)
  = firstn (Z.to_nat c) pl ++ [j].
Proof.
  intros H. replace (Z.to_nat (c + 1)) with (S (Z.to_nat c)) by lia.
  apply update_firstn_snoc. lia.
Qed.

Section ScanAny.
Variable x : list Q.
Variable L : Z.
Variable min_mag : Q.
Variable thresh : Q.
Variable cap : nat.

Hypothesis HL : L = Z.of_nat (length x).
Hypothesis HL2 : 2 <= L.
Hypothesis Hcap : L <= 2 * Z.of_nat cap <= L + 1.
Hypothesis Hmin : forall k, 0 <= k < L -> (min_mag <= at_ x k)%Q.
Hypothesis Hth : (0 <= thresh)%Q.

Local Abbreviation steady := (steady x min_mag cap).
Local Abbreviation settled := (settled x L min_mag cap).
Local Abbreviation finished := (finished x L cap).

Ltac fields4 := unfold confirmed in *;
                cbn [ii found_peak temp_mag temp_loc left_min peak_loc
                        peak_mag c_ind] in *.

Lemma records_snoc (pl : list Z) (pm : list Q) (c j : Z) (m : Q) :
  0 <= c < Z.of_nat (length pl) -> length pm = length pl ->
  (forall k, (k < Z.to_nat c)%nat -> nth k pm 0%Q = at_ x (nth k pl 0)) ->
  m = at_ x j ->
  forall k, (k < Z.to_nat (c + 1))%nat ->
    nth k (update pm (Z.to_nat c) m) 0%Q
    = at_ x (nth k (update pl (Z.to_nat c) j) 0).
Proof.
  intros Hc Hlen Hrec Hm k Hk.
  destruct (Nat.eq_dec k (Z.to_nat c)) as [-> | Hne].
  - rewrite !nth_update_same by lia. exact Hm.
  - rewrite !nth_update_other by exact Hne. apply Hrec. lia.
Qed.

(** One full turn of the loop body. *)
Lemma step_any (st : scan_state) :
  -1 <= ii st -> steady (ii st) st -> ii st + 2 < L ->
  exists st3,
    (st1 <- peak_step x min_mag thresh st ;;
     st2 <- track_pending x thresh st1 ;;
     valley_step x thresh st2) = Return st3 /\
    steady (ii st + 2) st3 /\ ii st3 = ii st + 2.
Proof.
  destruct st as [v T tl F lm pl pm c]. cbn [ii]. intros Hv Hc Hlt.
  destruct (peak_step_cases x L min_mag thresh cap HL HL2 Hcap v T tl F lm pl pm c)
    as (T1 & F1 & E1 & H1); [lia | lia | apply Hc | ].
  rewrite E1. cbn [bind].
  edestruct (track_pending_cases x L thresh cap HL (v + 1) T1 tl F1 lm pl pm c)
    as (T2 & tl2 & E2 & H2); [lia | ].
  rewrite E2. cbn [bind].
  destruct Hc as [C1 C2 C3 C4 C5 C6 C7 C8 C9 C10 C11 C12]. fields4.
  pose proof (Hmin (v + 1) ltac:(lia)) as Hm1.
  pose proof (Hmin (v + 2) ltac:(lia)) as Hm2.
  assert (HT1 : (min_mag <= T1)%Q).
  { destruct H1 as [[-> _] | [-> _]]; [exact C10 | apply Qle_refl]. }
  assert (Mmin : (min_mag <= T2)%Q).
  { destruct H2 as [(-> & _) | (-> & _)]; assumption. }
  assert (Mloc : forall j, tl2 = Some j -> 0 <= j < v + 2).
  { intros j Hj. destruct H2 as [(_ & -> & _) | (_ & -> & _)].
    - apply C8 in Hj. lia.
    - injection Hj as <-. lia. }
  assert (Mfresh : F1 = false -> (min_mag < T2)%Q ->
            exists j, tl2 = Some j /\
                      Forall (fun e => e < j) (firstn (Z.to_nat c) pl)).
  { intros HF HT. destruct H2 as [(-> & -> & _) | (-> & -> & _)].
    - destruct H1 as [[-> ->] | [-> _]].
      + apply C9; assumption.
      + exfalso. apply (Qlt_irrefl _ HT).
    - exists (v + 1). split; [reflexivity | ].
      eapply Forall_impl; [ | exact C7]. cbv beta. intros e He. lia. }
  assert (Mpend : T2 = min_mag \/ exists j, tl2 = Some j /\ T2 = at_ x j).
  { destruct H2 as [(-> & -> & _) | (-> & -> & _)].
    - destruct H1 as [[-> _] | [-> _]]; [exact C11 | left; reflexivity].
    - right. exists (v + 1). split; reflexivity. }
  unfold valley_step. fields4.
  replace (v + 1 + 1) with (v + 2) by lia.
  rewrite (getitem_in_range x (v + 2) 0%Q) by lia. fold (at_ x (v + 2)).
  assert (Hkeep : forall lm', exists st3,
            Return (mk_state (v + 2) T2 tl2 F1 lm' pl pm c) = Return st3 /\
            steady (v + 2) st3 /\ ii st3 = v + 2).
  { intros lm'. eexists. split; [reflexivity | split; [ | reflexivity]].
    constructor; fields4; try assumption; try lia.
    eapply Forall_impl; [ | exact C7]. cbv beta. intros e He. lia. }
  assert (Hrest : exists st3,
    (if Qltb (at_ x (v + 2)) lm
     then Return (mk_state (v + 2) T2 tl2 F1 (at_ x (v + 2)) pl pm c)
     else Return (mk_state (v + 2) T2 tl2 F1 lm pl pm c)) = Return st3 /\
    steady (v + 2) st3 /\ ii st3 = v + 2).
  { destruct (Qltb (at_ x (v + 2)) lm); apply Hkeep. }
  destruct F1; cbn [negb bind]; [exact Hrest | ].
  destruct (Qgtb T2 (thresh + at_ x (v + 2))) eqn:E; [ | exact Hrest].
  qprop.
  assert (HT : (min_mag < T2)%Q) by lra.
  destruct (Mfresh eq_refl HT) as (j & -> & Hlt_j). cbn [read_local bind].
  specialize (Mloc j eq_refl).
  rewrite (setitem_in_range pl c j) by lia.
  rewrite (setitem_in_range pm c T2) by lia.
  cbn [bind]. eexists. split; [reflexivity | split; [ | reflexivity]].
  constructor; fields4; try lia.
  - rewrite update_length. exact C1.
  - rewrite update_length. exact C2.
  - intros _ _. split; [reflexivity | lra].
  - rewrite confirm_snoc by lia. apply sorted_snoc; assumption.
  - rewrite confirm_snoc by lia. apply Forall_app. split.
    + eapply Forall_impl; [ | exact C7]. cbv beta. intros e He. lia.
    + constructor; [lia | constructor].
  - intros j0 Hj0. injection Hj0 as <-. lia.
  - exact Mmin.
  - exact Mpend.
  - apply records_snoc; try assumption; try lia.
    destruct Mpend as [-> | (j' & Hj' & HTj)];
      [exfalso; apply (Qlt_irrefl _ HT) | ].
    injection Hj' as <-. exact HTj.
Qed.

(** Leaving the loop through [break]. *)
Lemma break_any (st : scan_state) :
  -1 <= ii st -> steady (ii st) st -> ii st + 2 = L ->
  exists st1, peak_step x min_mag thresh st = Return st1 /\
              ii st1 = L - 1 /\ settled st1.
Proof.
  destruct st as [v T tl F lm pl pm c]. cbn [ii]. intros Hv Hc Hlt.
  destruct (peak_step_cases x L min_mag thresh cap HL HL2 Hcap v T tl F lm pl pm c)
    as (T1 & F1 & E1 & H1); [lia | lia | apply Hc | ].
  exists (mk_state (v + 1) T1 tl F1 lm pl pm c).
  split; [exact E1 | ]. split; [cbn [ii]; lia | ].
  destruct Hc as [C1 C2 C3 C4 C5 C6 C7 C8 C9 C10 C11 C12]. fields4.
  constructor; fields4; try assumption; try lia.
  - eapply Forall_impl; [ | exact C7]. cbv beta. intros e He. lia.
  - intros HF HT. destruct H1 as [[-> ->] | [-> _]].
    + destruct (C9 HF HT) as (j & Hj & Hlt_j). exists j.
      split; [exact Hj | split; [ | exact Hlt_j]].
      specialize (C8 j Hj). lia.
    + exfalso. apply (Qlt_irrefl _ HT).
  - destruct H1 as [[-> _] | [-> _]]; [exact C11 | left; reflexivity].
Qed.

(** Leaving the loop through its condition. *)
Lemma exit_any (st : scan_state) :
  steady (ii st) st -> ii st = L - 1 -> settled st.
Proof.
  destruct st as [v T tl F lm pl pm c]. cbn [ii]. intros Hc Hv. subst v.
  destruct Hc as [C1 C2 C3 C4 C5 C6 C7 C8 C9 C10 C11 C12]. fields4.
  constructor; fields4; try assumption; try lia.
  - destruct (Z.eq_dec (2 * c) (L - 1 + 1)) as [E | E].
    + right. apply C5; lia.
    + left. lia.
  - intros HF HT. destruct (C9 HF HT) as (j & Hj & Hlt_j). exists j.
    split; [exact Hj | split; [ | exact Hlt_j]].
    specialize (C8 j Hj). lia.
Qed.

Lemma loop_any (fuel : nat) : forall st,
  -1 <= ii st <= L - 1 -> steady (ii st) st ->
  (Z.to_nat (L - 1 - ii st) <= fuel)%nat ->
  exists st', scan_loop x L min_mag thresh fuel st = Return st' /\ settled st'.
Proof.
  induction fuel as [ | fuel IH]; intros st Hr HI Hfuel.
  - cbn [scan_loop]. destruct (ii st <? L - 1) eqn:E.
    + apply Z.ltb_lt in E. lia.
    + apply Z.ltb_ge in E. exists st. split; [reflexivity | ].
      apply exit_any; [exact HI | lia].
  - cbn [scan_loop]. destruct (ii st <? L - 1) eqn:E.
    + apply Z.ltb_lt in E.
      destruct (Z.eq_dec (ii st + 2) L) as [Hlast | Hlast].
      * destruct (break_any st ltac:(lia) HI Hlast) as (st1 & E1 & Hii1 & HP).
        rewrite E1. cbn [bind].
        replace (ii st1 =? L - 1) with true by (symmetry; apply Z.eqb_eq; exact Hii1).
        exists st1. split; [reflexivity | exact HP].
      * destruct (step_any st ltac:(lia) HI ltac:(lia)) as (st3 & Eb & HI3 & Hii3).
        destruct st as [v T tl F lm pl pm c]. cbn [ii] in *.
        destruct (peak_step_cases x L min_mag thresh cap HL HL2 Hcap
                    v T tl F lm pl pm c) as (T1 & F1 & E1 & _);
          [lia | lia | apply HI | ].
        rewrite E1 in *. cbn [bind ii] in *.
        replace (v + 1 =? L - 1) with false
          by (symmetry; apply Z.eqb_neq; lia).
        destruct (track_pending x thresh _) as [st2 | e | ];
          cbn [bind] in *; try discriminate.
        rewrite Eb.
        apply IH; [lia | rewrite Hii3; exact HI3 | lia].
    + apply Z.ltb_ge in E. exists st. split; [reflexivity | ].
      apply exit_any; [exact HI | lia].
Qed.

(** The end-point check always has room for its record. *)
Lemma end_any (st : scan_state) :
  settled st ->
  exists st', end_point x L min_mag thresh st = Return st' /\ finished st'.
Proof.
  destruct st as [v T tl F lm pl pm c].
  intros [P2 P3 P4 P5 P6 P7 P8 P9 P10 P11]. fields4.
  unfold end_point. fields4.
  rewrite (getitem_last x 0%Q) by lia.
  replace (length x - 1)%nat with (Z.to_nat (L - 1)) by lia.
  fold (at_ x (L - 1)). cbn [bind].
  assert (Hdone : finished (mk_state v T tl F lm pl pm c)).
  { constructor; fields4; try assumption; try lia.
    eapply Forall_impl; [ | exact P8]. cbv beta. intros e He. lia. }
  assert (Hadd : forall j, 2 * c <= L - 1 -> 0 <= j < L ->
            Forall (fun e => e < j) (firstn (Z.to_nat c) pl) ->
            forall m, m = at_ x j -> exists st',
              (pl' <- setitem pl c j ;; pm' <- setitem pm c m ;;
               Return (mk_state v T tl F lm pl' pm' (c + 1))) = Return st' /\
              finished st').
  { intros j Hroom Hj Hlt m Hm.
    rewrite (setitem_in_range pl c j) by lia.
    rewrite (setitem_in_range pm c m) by lia. cbn [bind].
    eexists. split; [reflexivity | ].
    constructor; fields4; try lia.
    - rewrite update_length. exact P2.
    - rewrite update_length. exact P3.
    - rewrite confirm_snoc by lia. apply sorted_snoc; assumption.
    - rewrite confirm_snoc by lia. apply Forall_app. split.
      + eapply Forall_impl; [ | exact P8]. cbv beta. intros e He. lia.
      + constructor; [lia | constructor].
    - apply records_snoc; try assumption; lia. }
  destruct (Qgtb (at_ x (L - 1)) T && Qgtb (at_ x (L - 1)) (lm + thresh)) eqn:E1.
  - qprop. apply Hadd.
    + destruct P6 as [H6 | [_ H6]]; [exact H6 | lra].
    + lia.
    + eapply Forall_impl; [ | exact P8]. cbv beta. intros e He. lia.
    + reflexivity.
  - destruct (negb F && Qgtb T min_mag) eqn:E2.
    + qprop. destruct (P9 H H0) as (j & -> & Hj & Hlt).
      cbn [read_local bind].
      apply Hadd.
      * destruct P6 as [H6 | [H6 _]]; [exact H6 | congruence].
      * lia.
      * exact Hlt.
      * destruct P10 as [-> | (j' & Hj' & HTj)];
          [exfalso; apply (Qlt_irrefl _ H0) | ].
        injection Hj' as <-. exact HTj.
    + eexists. split; [reflexivity | exact Hdone].
Qed.

Lemma init_any (ii0 maxPeaks : Z) :
  ii0 = -1 \/ ii0 = 0 -> cap = Z.to_nat maxPeaks ->
  steady ii0 (init_state ii0 min_mag maxPeaks).
Proof.
  intros Hii Hmax. unfold init_state.
  constructor; fields4; try lia.
  - rewrite repeat_length. lia.
  - rewrite repeat_length. lia.
  - constructor.
  - constructor.
  - intros j Hj. discriminate.
  - intros _ H. exfalso. apply (Qlt_irrefl _ H).
  - apply Qle_refl.
  - left. reflexivity.
Qed.

(** Loop and end-point check, from the state the scanner starts in. *)
Lemma scan_any (ii0 maxPeaks : Z) :
  ii0 = -1 \/ ii0 = 0 -> cap = Z.to_nat maxPeaks ->
  exists st',
    (st <- scan_loop x L min_mag thresh (Z.to_nat L)
                     (init_state ii0 min_mag maxPeaks) ;;
     end_point x L min_mag thresh st) = Return st' /\
    finished st'.
Proof.
  intros Hii Hmax.
  destruct (loop_any (Z.to_nat L) (init_state ii0 min_mag maxPeaks))
    as (st & El & Hs).
  - unfold init_state. cbn [ii]. lia.
  - unfold init_state at 1. cbn [ii]. apply init_any; assumption.
  - unfold init_state. cbn [ii]. lia.
  - rewrite El. cbn [bind]. apply end_any. exact Hs.
Qed.
End ScanAny.

(** Lines 168-181 on any list of more than two candidates: the bootstrap
    keeps the list or drops its first or second entry, together with the
    index that goes with it. *)
Lemma bootstrap_any (x : list Q) (ind : list Z) :
  (2 < length x)%nat -> length ind = length x ->
  exists (ii0 : Z) (x' : list Q) (ind' : list Z),
    bootstrap x ind (Z.of_nat (length x))
    = Return (ii0, x', ind', Z.of_nat (length x')) /\
    (ii0 = -1 \/ ii0 = 0) /\
    (2 <= length x')%nat /\
    (length x' = length x \/ S (length x') = length x) /\
    length ind' = length x' /\
    incl x' x /\
    incl (combine ind' x') (combine ind x) /\
    (StronglySorted Z.lt ind -> StronglySorted Z.lt ind').
Proof.
  intros Hx Hi.
  destruct x as [ | a [ | b [ | c r]]]; cbn [length] in Hx; try lia.
  destruct ind as [ | i0 [ | i1 [ | i2 ri]]]; cbn [length] in Hi; try lia.
  unfold bootstrap.
  rewrite (slice_prefix (a :: b :: c :: r) 3) by lia.
  change (firstn (Z.to_nat 3) (a :: b :: c :: r)) with [a; b; c].
  cbn [diff map]. change (getitem [np_sign (b - a); np_sign (c - b)] 0)
    with (Return (np_sign (b - a))).
  change (getitem [np_sign (b - a); np_sign (c - b)] 1)
    with (Return (np_sign (c - b))).
  cbn [bind].
  rewrite !(slice_prefix _ 1), !(slice_suffix _ 2), !(slice_suffix _ 1) by lia.
  change (Z.to_nat 1) with 1%nat. change (Z.to_nat 2) with 2%nat.
  cbn [firstn skipn app].
  destruct (np_sign (b - a) <=? 0); destruct (np_sign (b - a) =? np_sign (c - b)).
  - exists (-1), (a :: c :: r), (i0 :: i2 :: ri).
    split; [f_equal; f_equal; cbn [length]; lia | ].
    split; [auto | ]. cbn [length] in *.
    split; [lia | ]. split; [right; reflexivity | ]. split; [lia | ].
    split; [ | split].
    + intros v [<- | Hv]; [left; reflexivity | right; right; exact Hv].
    + cbn [combine]. intros p [<- | Hp]; [left; reflexivity | right; right; exact Hp].
    + intros Hs. inversion Hs as [ | ? ? Hs1 Hf1]; subst.
      inversion Hs1 as [ | ? ? Hs2 Hf2]; subst.
      constructor; [exact Hs2 | ]. inversion Hf1; subst. assumption.
  - exists (-1), (a :: b :: c :: r), (i0 :: i1 :: i2 :: ri).
    split; [reflexivity | ]. split; [auto | ]. cbn [length] in *.
    split; [lia | ]. split; [left; reflexivity | ]. split; [lia | ].
    split; [apply incl_refl | split; [apply incl_refl | auto]].
  - exists 0, (b :: c :: r), (i1 :: i2 :: ri).
    split; [f_equal; f_equal; cbn [length]; lia | ].
    split; [auto | ]. cbn [length] in *.
    split; [lia | ]. split; [right; reflexivity | ]. split; [lia | ].
    split; [ | split].
    + intros v Hv. right. exact Hv.
    + cbn [combine]. intros p Hp. right. exact Hp.
    + intros Hs. inversion Hs; subst. assumption.
  - exists 0, (a :: b :: c :: r), (i0 :: i1 :: i2 :: ri).
    split; [reflexivity | ]. split; [auto | ]. cbn [length] in *.
    split; [lia | ]. split; [left; reflexivity | ]. split; [lia | ].
    split; [apply incl_refl | split; [apply incl_refl | auto]].
Qed.

Lemma np_min_le_In (l : list Q) (m v : Q) :
  np_min l = Return m -> In v l -> (m <= v)%Q.
Proof.
  intros Hm Hv. apply (In_nth _ _ 0%Q) in Hv. destruct Hv as (k & Hk & <-).
  pose proof (np_min_at l m (Z.of_nat k) Hm ltac:(lia)) as H.
  unfold at_ in H. rewrite Nat2Z.id in H. exact H.
Qed.

(** The scanner on any list of more than two candidates, with a threshold
    that is not negative: it raises nothing, and the state it returns
    holds increasing locations within the list that the bootstrap kept,
    each with the candidate found there, in arrays that are large
    enough. *)
Lemma scanner_any (x : list Q) (ind : list Z) (min_mag thresh : Q) :
  (2 < length x)%nat -> length ind = length x ->
  np_min x = Return min_mag -> (0 <= thresh)%Q ->
  exists (ind' : list Z) (st : scan_state) (x' : list Q),
    scanner x ind min_mag thresh = Return (ind', st) /\
    finished x' (Z.of_nat (length x'))
             (Z.to_nat (ceil_half (Z.of_nat (length x')))) st /\
    (length x' = length x \/ S (length x') = length x) /\
    length ind' = length x' /\
    incl (combine ind' x') (combine ind x) /\
    (StronglySorted Z.lt ind -> StronglySorted Z.lt ind').
Proof.
  intros Hx Hi Hm Hth.
  destruct (bootstrap_any x ind Hx Hi)
    as (ii0 & x' & ind' & Hb & Hii & Hx2 & Hlen & Hi' & Hincl & Hcomb & Hsort).
  unfold scanner. rewrite Hb. cbn [bind].
  pose proof (ceil_half_bounds (Z.of_nat (length x'))) as Hcb.
  destruct (scan_any x' (Z.of_nat (length x')) min_mag thresh
              (Z.to_nat (ceil_half (Z.of_nat (length x'))))
              eq_refl ltac:(lia) ltac:(lia)
              (fun k Hk => np_min_le_In x min_mag _ Hm
                             (Hincl _ (nth_In x' 0%Q (n := Z.to_nat k) ltac:(lia))))
              Hth ii0 (ceil_half (Z.of_nat (length x'))) Hii eq_refl)
    as (st & Es & Hf).
  destruct (scan_loop _ _ _ _ _ _) as [s1 | e | ]; cbn [bind] in Es;
    try discriminate.
  cbn [bind]. rewrite Es. cbn [bind].
  exists ind', st, x'. repeat (split; [first [reflexivity | assumption] | ]).
  exact Hsort.
Qed.

(** Lines 158-232 on any list of more than two candidates with increasing
    positions, for a threshold that is not negative: two arrays come back,
    the indices increase, and every record pairs a position of the list
    with the candidate at that position. *)
Lemma scanner_branch_any (x : list Q) (ind : list Z) (min_mag thresh : Q) :
  (2 < length x)%nat -> length ind = length x ->
  StronglySorted Z.lt ind ->
  np_min x = Return min_mag -> (0 <= thresh)%Q ->
  exists (l : list Z) (ms : list Q),
    scanner_branch x ind min_mag thresh = Return (NpArray l, NpArray ms) /\
    StronglySorted Z.lt l /\
    Forall2 (fun i v => In (i, v) (combine ind x)) l ms /\
    (2 * length l <= length x + 1)%nat.
Proof.
  intros Hx Hi Hs Hm Hth.
  destruct (scanner_any x ind min_mag thresh Hx Hi Hm Hth)
    as (ind' & st & x' & Esc & Hf & Hlen & Hi' & Hcomb & Hsort).
  specialize (Hsort Hs).
  unfold scanner_branch. rewrite Esc. cbn [bind].
  destruct Hf as [F1 F2 F3 F4 F5 F6]. unfold confirmed in *.
  pose proof (ceil_half_bounds (Z.of_nat (length x'))) as Hcb.
  rewrite !slice_prefix by lia.
  rewrite (take_in_range ind' 0) by (rewrite Hi'; exact F5).
  cbn [bind]. eexists. eexists. split; [reflexivity | ].
  split; [ | split].
  - apply map_nth_sorted; [exact Hsort | exact F4 | rewrite Hi'; exact F5].
  - apply (Forall2_firstn_map _ _ 0 0%Q); [lia | lia | ].
    intros k Hk. apply Hcomb.
    assert (Hloc : 0 <= nth k (peak_loc st) 0 < Z.of_nat (length x')).
    { rewrite Forall_forall in F5. apply F5.
      rewrite <- (firstn_skipn (Z.to_nat (c_ind st)) (peak_loc st)) at 1.
      rewrite app_nth1 by (rewrite length_firstn; lia).
      apply nth_In. rewrite length_firstn. lia. }
    rewrite (F6 k Hk). unfold at_.
    rewrite <- (combine_nth ind' x' (Z.to_nat (nth k (peak_loc st) 0)) 0 0%Q Hi').
    apply nth_In. rewrite length_combine. lia.
  - rewrite length_map, length_firstn. lia.
Qed.

Lemma fold_max_ge (t : list Q) : forall a : Q,
  (a <= fold_left (fun m v => if Qltb m v then v else m) t a)%Q /\
  Forall (fun v => (v <= fold_left (fun m v => if Qltb m v then v else m) t a)%Q) t.
Proof.
  induction t as [ | b t IH]; intros a; cbn [fold_left].
  - split; [apply Qle_refl | constructor].
  - destruct (IH (if Qltb a b then b else a)) as [H1 H2].
    destruct (Qltb a b) eqn:E; qprop.
    + split; [lra | constructor; [exact H1 | exact H2]].
    + split; [exact H1 | constructor; [lra | exact H2]].
Qed.

Lemma default_thresh_nonneg (x0 : list Q) (t : Q) :
  default_thresh x0 = Return t -> (0 <= t)%Q.
Proof.
  destruct x0 as [ | a r]; unfold default_thresh; cbn [np_max np_min bind];
    intros H; [discriminate | ].
  injection H as <-.
  destruct (fold_max_ge r a) as [H1 _]. destruct (fold_min_le r a) as [H2 _].
  set (mx := fold_left _ r a) in *. set (mn := fold_left _ r a) in *.
  apply Qle_shift_div_l; [reflexivity | ]. lra.
Qed.

(** ** Calls with a valid threshold *)

(** With a threshold that is not negative a call returns two arrays with
    increasing indices or two empty lists, or raises [ValueError],
    [AssertionError] or [TypeError].  The scanner branch is taken from
    [scanner_branch_any]: nothing here depends on the candidates
    alternating. *)
Lemma peak_finder_Some_valid (x0 : ndarray) (t : Q) (extrema : Z) :
  (0 <= t)%Q ->
  match peak_finder x0 (Some t) extrema with
  | Return (inds, mags) =>
      (exists l m, inds = NpArray l /\ mags = NpArray m /\
                   StronglySorted Z.lt l /\ length l = length m) \/
      (inds = PyList [] /\ mags = PyList [])
  | Raise e => e = ValueError \/ e = AssertionError \/ e = TypeError
  | OutOfFuel => False
  end.
Proof.
  intros Ht. unfold peak_finder.
  destruct (2 <=? ndim x0)%nat eqn:Hnd; [cbn; auto | ].
  apply Nat.leb_gt in Hnd. cbn [bind resolve_thresh].
  destruct (negb ((extrema =? -1) || (extrema =? 1))); [cbn; auto | ].
  remember (working_signal extrema (flat x0)) as w eqn:Hw. clear Hw.
  destruct (ndim x0) as [ | [ | n]] eqn:Hn; [cbn; auto | | lia].
  pose proof (candidates_eq 1 w ltac:(discriminate)) as Hc.
  remember (firstn 1 w ++ interior w ++ skipn (length w - 1) w) as x eqn:Hx.
  remember ([0] ++ map (fun i => i + 1) (np_where (turn_mask w))
                ++ [Z.of_nat (length w) - 1]) as ind eqn:Hind.
  rewrite Hc. cbn [bind].
  destruct (np_min_cases x) as [[_ Hm] | (m & Hne & Hm)]; rewrite Hm;
    [cbn; auto | ].
  cbn [bind].
  assert (Hwne : w <> []).
  { intros ->. apply Hne. rewrite Hx. reflexivity. }
  assert (Hlen : length x = length ind).
  { rewrite Hx, Hind. apply candidates_lengths. exact Hwne. }
  destruct (2 <? Z.of_nat (length x)) eqn:Hbig.
  - apply Z.ltb_lt in Hbig.
    assert (Hw2 : (2 <= length w)%nat).
    { rewrite Hx in Hbig. destruct w as [ | a [ | b r]]; simpl in Hbig; try lia.
      cbn [length]. lia. }
    assert (Hsorted : StronglySorted Z.lt ind)
      by (rewrite Hind; apply candidates_ind_sorted; exact Hw2).
    destruct (scanner_branch_any x ind m t ltac:(lia) (eq_sym Hlen) Hsorted Hm Ht)
      as (l & ms & Eb & Hs & Hrec & _).
    rewrite Eb. cbn [bind].
    pose proof (Forall2_length Hrec) as Hl.
    destruct (extrema <? 0); cbn [imul_float bind len]; left;
      eexists; eexists; (split; [reflexivity | split; [reflexivity | ]]);
      (split; [exact Hs | ]); rewrite ?length_map; exact Hl.
  - destruct (degenerate_outcome x ind m t Hne Hlen) as [(i & v & Hd) | Hd];
      rewrite Hd; cbn [bind].
    + destruct (extrema <? 0); cbn; auto.
    + destruct (extrema <? 0); cbn; [auto | right; auto].
Qed.

Lemma peak_finder_valid_outcome
      (x0 : ndarray) (thresh : option Q) (extrema : Z) :
  (forall t, thresh = Some t -> (0 <= t)%Q) ->
  match peak_finder x0 thresh extrema with
  | Return (inds, mags) =>
      (exists l m, inds = NpArray l /\ mags = NpArray m /\
                   StronglySorted Z.lt l /\ length l = length m) \/
      (inds = PyList [] /\ mags = PyList [])
  | Raise e => e = ValueError \/ e = AssertionError \/ e = TypeError
  | OutOfFuel => False
  end.
Proof.
  intros Hv. destruct thresh as [t | ].
  - apply peak_finder_Some_valid. apply Hv. reflexivity.
  - destruct (default_thresh (flat x0)) as [t | e0 | ] eqn:Hd.
    + replace (peak_finder x0 None extrema)
        with (peak_finder x0 (Some t) extrema)
        by (unfold peak_finder, resolve_thresh; rewrite Hd; reflexivity).
      apply peak_finder_Some_valid. apply (default_thresh_nonneg _ _ Hd).
    + unfold peak_finder, resolve_thresh. rewrite Hd.
      assert (He0 : e0 = ValueError).
      { unfold default_thresh in Hd. destruct (flat x0) as [ | a r];
          cbn [np_max np_min bind] in Hd; congruence. }
      subst e0.
      destruct (2 <=? ndim x0)%nat; cbn [bind]; auto.
    + unfold default_thresh in Hd. destruct (flat x0) as [ | a r];
        cbn [np_max np_min bind] in Hd; discriminate.
Qed.

(** ** C4: the returned indices increase *)

(** C4.  Whatever the signal and the polarity, and for every valid
    threshold (omitted, or not negative), when [peak_finder] returns, the
    indices it returns are strictly increasing. *)
Theorem peak_finder_indices_increasing
        (x0 : ndarray) (thresh : option Q) (extrema : Z)
        (peak_inds : pyval Z) (peak_mags : pyval Q) :
  (forall t, thresh = Some t -> (0 <= t)%Q) ->
  peak_finder x0 thresh extrema = Return (peak_inds, peak_mags) ->
  StronglySorted Z.lt (items peak_inds).
Proof.
  intros Hv H. pose proof (peak_finder_valid_outcome x0 thresh extrema Hv) as Hok.
  rewrite H in Hok.
  destruct Hok as [(l & m & -> & _ & Hs & _) | [-> _]]; cbn [items].
  - exact Hs.
  - constructor.
Qed.

Lemma peak_finder_indices_increasing_witness :
  (forall t, Some 2%Q = Some t -> (0 <= t)%Q) /\
  peak_finder (vector (qs [0; 3; 0; 4; 1; 5; 2; 8; 0])) (Some 2%Q) 1
  = Return (NpArray [1; 3; 5; 7], NpArray (qs [3; 4; 5; 8])) /\
  StronglySorted Z.lt [1; 3; 5; 7].
Proof.
  assert (H1 : forall t, Some 2%Q = Some t -> (0 <= t)%Q)
    by (intros t Ht; injection Ht as <-; vm_compute; discriminate).
  assert (H2 : peak_finder (vector (qs [0; 3; 0; 4; 1; 5; 2; 8; 0])) (Some 2%Q) 1
               = Return (NpArray [1; 3; 5; 7], NpArray (qs [3; 4; 5; 8])))
    by (vm_compute; reflexivity).
  split; [exact H1 | ]. split; [exact H2 | ].
  exact (peak_finder_indices_increasing
           (vector (qs [0; 3; 0; 4; 1; 5; 2; 8; 0])) (Some 2%Q) 1
           (NpArray [1; 3; 5; 7]) (NpArray (qs [3; 4; 5; 8])) H1 H2).
Defined.

(** ** C5: plateaus *)

Lemma where_from_In (mask : list bool) : forall (n : Z) (j : nat),
  (j < length mask)%nat -> nth j mask false = true ->
  In (n + Z.of_nat j) (where_from n mask).
Proof.
  induction mask as [ | b mask IH]; intros n j Hj Hb; cbn [length] in Hj; [lia | ].
  destruct j as [ | j]; cbn [nth] in Hb; cbn [where_from].
  - subst b. left. lia.
  - assert (H : In (n + 1 + Z.of_nat j) (where_from (n + 1) mask))
      by (apply IH; [lia | exact Hb]).
    replace (n + Z.of_nat (S j)) with (n + 1 + Z.of_nat j) by lia.
    destruct b; [right | ]; exact H.
Qed.

Lemma where_from_In_inv (mask : list bool) : forall n i : Z,
  In i (where_from n mask) ->
  n <= i < n + Z.of_nat (length mask) /\
  nth (Z.to_nat (i - n)) mask false = true.
Proof.
  induction mask as [ | b mask IH]; intros n i Hi; [contradiction | ].
  cbn [where_from] in Hi.
  assert (Hrest : In i (where_from (n + 1) mask) ->
                  n <= i < n + Z.of_nat (length (b :: mask)) /\
                  nth (Z.to_nat (i - n)) (b :: mask) false = true).
  { intros H. destruct (IH (n + 1) i H) as [Hr Hn]. cbn [length]. split; [lia | ].
    replace (Z.to_nat (i - n)) with (S (Z.to_nat (i - (n + 1)))) by lia.
    exact Hn. }
  destruct b; [ | exact (Hrest Hi)].
  destruct Hi as [<- | Hi]; [ | exact (Hrest Hi)].
  cbn [length]. split; [lia | ].
  replace (Z.to_nat (n - n)) with 0%nat by lia. reflexivity.
Qed.

Lemma turn_mask_nth (l : list Q) : forall j : nat,
  (j + 2 < length l)%nat ->
  nth j (turn_mask l) false
  = xorb (Qltb (nth j l 0%Q) (nth (j + 1) l 0%Q))
         (Qltb (nth (j + 1) l 0%Q) (nth (j + 2) l 0%Q)).
Proof.
  induction l as [ | a l IH]; intros j Hj; [cbn in Hj; lia | ].
  destruct l as [ | b [ | c r]]; [cbn in Hj; lia | cbn in Hj; lia | ].
  rewrite turn_mask_cons, turn_xorb.
  destruct j as [ | j]; [reflexivity | ].
  cbn [nth Nat.add]. apply IH. cbn [length] in *. lia.
Qed.

(** The candidate indices are the two ends and the samples where the
    direction of the signal changes. *)
Lemma candidate_index (w : list Q) (i : Z) :
  In i ([0] ++ map (fun i => i + 1) (np_where (turn_mask w))
            ++ [Z.of_nat (length w) - 1])
  <-> i = 0 \/ i = Z.of_nat (length w) - 1 \/
      (1 <= i <= Z.of_nat (length w) - 2 /\ rises w (i - 1) <> rises w i).
Proof.
  assert (Hturn : forall j : Z, 0 <= j -> j + 2 < Z.of_nat (length w) ->
            nth (Z.to_nat j) (turn_mask w) false
            = xorb (rises w j) (rises w (j + 1))).
  { intros j Hj Hj2. rewrite turn_mask_nth by lia. unfold rises, at_.
    replace (Z.to_nat (j + 1)) with (Z.to_nat j + 1)%nat by lia.
    replace (Z.to_nat (j + 1 + 1)) with (Z.to_nat j + 2)%nat by lia.
    reflexivity. }
  rewrite !in_app_iff. split.
  - intros [[<- | []] | [H | [<- | []]]]; [left; reflexivity | | right; left; reflexivity].
    apply in_map_iff in H. destruct H as (j & <- & Hj).
    apply where_from_In_inv in Hj. destruct Hj as [Hr Hn].
    rewrite turn_mask_length in Hr. replace (j - 0) with j in Hn by lia.
    right. right. split; [lia | ].
    rewrite Hturn in Hn by lia. replace (j + 1 - 1) with j by lia.
    destruct (rises w j); destruct (rises w (j + 1)); cbn in Hn; congruence.
  - intros [-> | [-> | [Hi Hne]]];
      [left; left; reflexivity | right; right; left; reflexivity | ].
    right. left. apply in_map_iff. exists (0 + Z.of_nat (Z.to_nat (i - 1))).
    split; [lia | ]. apply where_from_In.
    + rewrite turn_mask_length. lia.
    + rewrite Hturn by lia. replace (i - 1 + 1) with i by lia.
      destruct (rises w (i - 1)); destruct (rises w i); try reflexivity; congruence.
Qed.

(** C5.  On [0, 5, 5, 5, 0] with threshold 1 the only record is the first
    sample of the plateau, index 1 with magnitude 5.  In general, after
    the zero differences are replaced by [-eps], the candidates of lines
    144-152 contain the sample that follows a rise (of at least [tiny]) and
    starts a run of equal values, and they contain no sample that continues
    such a run unless a rise follows it. *)
Theorem plateau_first_sample :
  peak_finder (vector (qs [0; 5; 5; 5; 0])) (Some 1%Q) 1
  = Return (NpArray [1], NpArray [5%Q]) /\
  (forall (x0 x : list Q) (ind : list Z) (i : Z),
     candidates 1 x0 = Return (x, ind) ->
     1 <= i -> i + 1 < Z.of_nat (length x0) ->
     (tiny <= at_ x0 i - at_ x0 (i - 1))%Q ->
     (at_ x0 (i + 1) == at_ x0 i)%Q ->
     In i ind) /\
  (forall (x0 x : list Q) (ind : list Z) (k : Z),
     candidates 1 x0 = Return (x, ind) ->
     1 <= k -> k + 1 < Z.of_nat (length x0) ->
     (at_ x0 k == at_ x0 (k - 1))%Q ->
     (at_ x0 (k + 1) <= at_ x0 k)%Q ->
     ~ In k ind).
Proof.
  split; [vm_compute; reflexivity | ].
  assert (Htiny : (0 < tiny)%Q) by reflexivity.
  split.
  - intros x0 x ind i Hc Hi Hi2 Hrise Hrun.
    rewrite candidates_eq in Hc by discriminate. injection Hc as _ <-.
    apply candidate_index. right. right. split; [lia | ].
    unfold rises. replace (i - 1 + 1) with i by lia.
    replace (Qltb (at_ x0 (i - 1)) (at_ x0 i)) with true
      by (symmetry; apply Qltb_lt; lra).
    replace (Qltb (at_ x0 i) (at_ x0 (i + 1))) with false
      by (symmetry; apply Qltb_ge; lra).
    discriminate.
  - intros x0 x ind k Hc Hk Hk2 Hrun Hnext Hin.
    rewrite candidates_eq in Hc by discriminate. injection Hc as _ <-.
    apply candidate_index in Hin.
    destruct Hin as [-> | [-> | [_ Hne]]]; [lia | lia | ].
    apply Hne. unfold rises. replace (k - 1 + 1) with k by lia.
    replace (Qltb (at_ x0 (k - 1)) (at_ x0 k)) with false
      by (symmetry; apply Qltb_ge; lra).
    replace (Qltb (at_ x0 k) (at_ x0 (k + 1))) with false
      by (symmetry; apply Qltb_ge; lra).
    reflexivity.
Qed.

Lemma plateau_first_sample_witness :
  candidates 1 (qs [0; 5; 5; 5; 0]) = Return (qs [0; 5; 0], [0; 1; 4]) /\
  (1 <= 1 /\ 1 + 1 < Z.of_nat (length (qs [0; 5; 5; 5; 0])) /\
   (tiny <= at_ (qs [0; 5; 5; 5; 0]%Z) 1 - at_ (qs [0; 5; 5; 5; 0]%Z) (1 - 1))%Q /\
   (at_ (qs [0; 5; 5; 5; 0]%Z) (1 + 1) == at_ (qs [0; 5; 5; 5; 0]%Z) 1)%Q /\
   In 1 [0; 1; 4]) /\
  (1 <= 2 /\ 2 + 1 < Z.of_nat (length (qs [0; 5; 5; 5; 0])) /\
   (at_ (qs [0; 5; 5; 5; 0]%Z) 2 == at_ (qs [0; 5; 5; 5; 0]%Z) (2 - 1))%Q /\
   (at_ (qs [0; 5; 5; 5; 0]%Z) (2 + 1) <= at_ (qs [0; 5; 5; 5; 0]%Z) 2)%Q /\
   ~ In 2 [0; 1; 4]).
Proof.
  assert (Hc : candidates 1 (qs [0; 5; 5; 5; 0]) = Return (qs [0; 5; 0], [0; 1; 4]))
    by (vm_compute; reflexivity).
  assert (A1 : 1 <= 1) by lia.
  assert (A2 : 1 + 1 < Z.of_nat (length (qs [0; 5; 5; 5; 0]))) by (vm_compute; reflexivity).
  assert (A3 : (tiny <= at_ (qs [0; 5; 5; 5; 0]%Z) 1 - at_ (qs [0; 5; 5; 5; 0]%Z) (1 - 1))%Q)
    by (vm_compute; discriminate).
  assert (A4 : (at_ (qs [0; 5; 5; 5; 0]%Z) (1 + 1) == at_ (qs [0; 5; 5; 5; 0]%Z) 1)%Q)
    by reflexivity.
  assert (B1 : 1 <= 2) by lia.
  assert (B2 : 2 + 1 < Z.of_nat (length (qs [0; 5; 5; 5; 0]))) by (vm_compute; reflexivity).
  assert (B3 : (at_ (qs [0; 5; 5; 5; 0]%Z) 2 == at_ (qs [0; 5; 5; 5; 0]%Z) (2 - 1))%Q)
    by reflexivity.
  assert (B4 : (at_ (qs [0; 5; 5; 5; 0]%Z) (2 + 1) <= at_ (qs [0; 5; 5; 5; 0]%Z) 2)%Q)
    by (vm_compute; discriminate).
  split; [exact Hc | ]. split.
  - split; [exact A1 | ]. split; [exact A2 | ]. split; [exact A3 | ].
    split; [exact A4 | ].
    exact (proj1 (proj2 plateau_first_sample) (qs [0; 5; 5; 5; 0]) (qs [0; 5; 0])
             [0; 1; 4] 1 Hc A1 A2 A3 A4).
  - split; [exact B1 | ]. split; [exact B2 | ]. split; [exact B3 | ].
    split; [exact B4 | ].
    exact (proj2 (proj2 plateau_first_sample) (qs [0; 5; 5; 5; 0]) (qs [0; 5; 0])
             [0; 1; 4] 2 Hc B1 B2 B3 B4).
Defined.

(** ** C6: a single oscillation *)

(** Settle the comparisons of the goal that follow from the hypotheses. *)
Ltac qdecide :=
  repeat match goal with
  | |- context [Qgtb ?a ?b] =>
      first [ replace (Qgtb a b) with true by (symmetry; apply Qgtb_gt; lra)
            | replace (Qgtb a b) with false by (symmetry; apply Qgtb_le; lra) ]
  | |- context [Qltb ?a ?b] =>
      first [ replace (Qltb a b) with true by (symmetry; apply Qltb_lt; lra)
            | replace (Qltb a b) with false by (symmetry; apply Qltb_ge; lra) ]
  end.

(** The signal [0, h, 0] for a positive [h] and a threshold that is not
    negative: one record at index 1 when [h] exceeds the threshold, none
    otherwise. *)
Lemma single_oscillation_outcome (h t : Q) :
  (0 < h)%Q -> (0 <= t)%Q ->
  peak_finder (vector [0%Q; h; 0%Q]) (Some t) 1
  = if Qgtb h t then Return (NpArray [1], NpArray [h])
    else Return (NpArray [], NpArray []).
Proof.
  intros Hh Ht.
  unfold peak_finder, vector. cbn [ndim flat resolve_thresh bind].
  change (2 <=? 1)%nat with false. cbv iota.
  change (negb ((1 =? -1) || (1 =? 1))) with false. cbv iota.
  change (working_signal 1 [0%Q; h; 0%Q]) with [0%Q; h; 0%Q].
  rewrite candidates_eq by discriminate.
  rewrite interior_cons, turn_xorb. unfold np_where.
  rewrite turn_mask_cons, turn_xorb.
  qdecide. cbn [xorb interior firstn skipn length Nat.sub app where_from map bind].
  change (turn_mask [h; 0%Q]) with (@nil bool).
  cbn [where_from map app Z.of_nat Pos.of_succ_nat Pos.succ Z.sub Z.add Z.opp Z.pos_sub Pos.pred_double].
  unfold np_min. cbn [fold_left]. qdecide. cbv iota. qdecide. cbv iota. cbn [bind].
  change (2 <? Z.of_nat (length [0%Q; h; 0%Q])) with true. cbv iota.
  unfold scanner_branch, scanner.
  assert (Ha : alt true [0%Q; h; 0%Q]).
  { cbn [alt negb]. repeat split; lra. }
  destruct (bootstrap_alt true [0%Q; h; 0%Q] [0; 1; 2] 3 Ha ltac:(cbn; lia)) as [Hb _].
  change (Z.of_nat (length [0%Q; h; 0%Q])) with 3.
  rewrite Hb. cbn [bind].
  change (ceil_half 3) with 2. change (Z.to_nat 3) with 3%nat.
  unfold init_state. change (Z.to_nat 2) with 2%nat. cbn [repeat].
  change (2 <? 3) with true. cbv iota.
  cbn [scan_loop ii]. change (0 <? 3 - 1) with true. cbv iota.
  unfold peak_step, reset_pending, reset_test, set_ii.
  cbn [ii found_peak temp_mag temp_loc left_min peak_loc peak_mag c_ind bind].
  change (0 + 1 =? 3 - 1) with false. cbv iota.
  unfold track_pending.
  cbn [ii found_peak temp_mag temp_loc left_min peak_loc peak_mag c_ind bind].
  change (getitem [0%Q; h; 0%Q] (0 + 1)) with (Return h). cbn [bind].
  unfold valley_step, end_point.
  destruct (Qgtb h t) eqn:E; qprop.
  - qdecide. cbn [andb].
    cbn [ii found_peak temp_mag temp_loc left_min peak_loc peak_mag c_ind bind negb].
    change (getitem [0%Q; h; 0%Q] (0 + 1 + 1)) with (Return 0%Q). cbn [bind].
    qdecide. cbn [read_local bind].
    change (setitem [0; 0] 0 (0 + 1)) with (Return [1; 0]).
    change (setitem [0%Q; 0%Q] 0 h) with (Return [h; 0%Q]). cbn [bind ii].
    change (0 + 1 + 1 <? 3 - 1) with false. cbv iota. cbn [bind].
    change (getitem [0%Q; h; 0%Q] (-1)) with (Return 0%Q). cbn [bind].
    cbn [ii found_peak temp_mag temp_loc left_min peak_loc peak_mag c_ind].
    qdecide. cbn [andb negb bind].
    cbn [ii found_peak temp_mag temp_loc left_min peak_loc peak_mag c_ind].
    reflexivity.
  - qdecide. cbn [andb].
    cbn [ii found_peak temp_mag temp_loc left_min peak_loc peak_mag c_ind bind negb].
    change (getitem [0%Q; h; 0%Q] (0 + 1 + 1)) with (Return 0%Q). cbn [bind].
    qdecide. cbv iota. cbn [bind ii].
    change (0 + 1 + 1 <? 3 - 1) with false. cbv iota. cbn [bind].
    change (getitem [0%Q; h; 0%Q] (-1)) with (Return 0%Q). cbn [bind].
    cbn [ii found_peak temp_mag temp_loc left_min peak_loc peak_mag c_ind].
    qdecide. cbn [andb negb bind].
    cbn [ii found_peak temp_mag temp_loc left_min peak_loc peak_mag c_ind].
    reflexivity.
Qed.

(** C6.  A single oscillation [0, h, 0] whose rise [h] is at least [tiny]
    is accepted exactly when [h] is strictly above the threshold; in
    particular [0, 1, 0] with threshold 2 gives no record and [0, 3, 0]
    with threshold 1 gives the record [(1, 3)].  (From the base line 0 the
    sums with the threshold on lines 204 and 210 are the threshold itself,
    and with [h] at least [tiny] the product [-h * h] of line 148 is not
    rounded to zero.) *)
Theorem single_oscillation :
  (forall h t : Q, (tiny <= h)%Q -> (0 <= t)%Q -> (t < h)%Q ->
     peak_finder (vector [0%Q; h; 0%Q]) (Some t) 1
     = Return (NpArray [1], NpArray [h])) /\
  (forall h t : Q, (tiny <= h)%Q -> (0 <= t)%Q -> (h <= t)%Q ->
     peak_finder (vector [0%Q; h; 0%Q]) (Some t) 1
     = Return (NpArray [], NpArray [])) /\
  peak_finder (vector (qs [0; 1; 0])) (Some 2%Q) 1 = Return (NpArray [], NpArray []) /\
  peak_finder (vector (qs [0; 3; 0])) (Some 1%Q) 1
  = Return (NpArray [1], NpArray [3%Q]).
Proof.
  assert (Htiny : (0 < tiny)%Q) by reflexivity.
  split; [ | split; [ | split; vm_compute; reflexivity]].
  - intros h t Hh Ht Hlt. rewrite single_oscillation_outcome by lra.
    replace (Qgtb h t) with true by (symmetry; apply Qgtb_gt; exact Hlt).
    reflexivity.
  - intros h t Hh Ht Hle. rewrite single_oscillation_outcome by lra.
    replace (Qgtb h t) with false by (symmetry; apply Qgtb_le; exact Hle).
    reflexivity.
Qed.

Lemma single_oscillation_witness :
  ((tiny <= 3)%Q /\ (0 <= 1)%Q /\ (1 < 3)%Q /\
   peak_finder (vector [0%Q; 3%Q; 0%Q]) (Some 1%Q) 1
   = Return (NpArray [1], NpArray [3%Q])) /\
  ((tiny <= 1)%Q /\ (0 <= 2)%Q /\ (1 <= 2)%Q /\
   peak_finder (vector [0%Q; 1%Q; 0%Q]) (Some 2%Q) 1
   = Return (NpArray [], NpArray [])).
Proof.
  assert (H1 : (tiny <= 3)%Q) by (vm_compute; discriminate).
  assert (H2 : (0 <= 1)%Q) by (vm_compute; discriminate).
  assert (H3 : (1 < 3)%Q) by reflexivity.
  assert (K1 : (tiny <= 1)%Q) by (vm_compute; discriminate).
  assert (K2 : (0 <= 2)%Q) by (vm_compute; discriminate).
  assert (K3 : (1 <= 2)%Q) by (vm_compute; discriminate).
  split.
  - split; [exact H1 | ]. split; [exact H2 | ]. split; [exact H3 | ].
    exact (proj1 single_oscillation 3%Q 1%Q H1 H2 H3).
  - split; [exact K1 | ]. split; [exact K2 | ]. split; [exact K3 | ].
    exact (proj1 (proj2 single_oscillation) 1%Q 2%Q K1 K2 K3).
Defined.

(** ** C7: the default threshold *)

Lemma fold_select_In (f : Q -> Q -> bool) (t : list Q) : forall a : Q,
  In (fold_left (fun m v => if f m v then v else m) t a) (a :: t).
Proof.
  induction t as [ | b t IH]; intros a; cbn [fold_left].
  - left. reflexivity.
  - destruct (IH (if f a b then b else a)) as [H | H].
    + destruct (f a b); [right; left; exact H | left; exact H].
    + right. right. exact H.
Qed.

(** C7.  For a non-empty signal, omitting the threshold is the same as
    passing [(max - min) / 4], where [max] and [min] are the largest and
    the smallest sample. *)
Theorem default_threshold (l : list Q) (extrema : Z) :
  l <> [] ->
  exists mx mn,
    In mx l /\ Forall (fun v => (v <= mx)%Q) l /\
    In mn l /\ Forall (fun v => (mn <= v)%Q) l /\
    peak_finder (vector l) None extrema
    = peak_finder (vector l) (Some ((mx - mn) / 4)%Q) extrema.
Proof.
  intros Hl. destruct l as [ | a t]; [congruence | ].
  exists (fold_left (fun m v => if Qltb m v then v else m) t a).
  exists (fold_left (fun m v => if Qltb v m then v else m) t a).
  split; [apply (fold_select_In (fun m v => Qltb m v)) | ].
  split; [destruct (fold_max_ge t a); constructor; assumption | ].
  split; [apply (fold_select_In (fun m v => Qltb v m)) | ].
  split; [destruct (fold_min_le t a); constructor; assumption | ].
  apply peak_finder_None; reflexivity.
Qed.

Lemma default_threshold_witness :
  qs [0; 3; 0; 4; 1; 5; 2; 8; 0] <> [] /\
  exists mx mn,
    In mx (qs [0; 3; 0; 4; 1; 5; 2; 8; 0]) /\
    Forall (fun v => (v <= mx)%Q) (qs [0; 3; 0; 4; 1; 5; 2; 8; 0]) /\
    In mn (qs [0; 3; 0; 4; 1; 5; 2; 8; 0]) /\
    Forall (fun v => (mn <= v)%Q) (qs [0; 3; 0; 4; 1; 5; 2; 8; 0]) /\
    peak_finder (vector (qs [0; 3; 0; 4; 1; 5; 2; 8; 0])) None (-1)
    = peak_finder (vector (qs [0; 3; 0; 4; 1; 5; 2; 8; 0]))
                  (Some ((mx - mn) / 4)%Q) (-1).
Proof.
  assert (H : qs [0; 3; 0; 4; 1; 5; 2; 8; 0] <> []) by (vm_compute; discriminate).
  split; [exact H | ].
  apply (default_threshold (qs [0; 3; 0; 4; 1; 5; 2; 8; 0]) (-1) H).
Defined.

(** ** C8: shape validation *)

(** C8.  An array of two or more dimensions is refused with [ValueError],
    whatever it holds and whatever the other arguments are: the test comes
    before the default threshold, the check of [extrema] and any
    differencing. *)
Theorem rank_two_raises (x0 : ndarray) (thresh : option Q) (extrema : Z) :
  (2 <= ndim x0)%nat -> peak_finder x0 thresh extrema = Raise ValueError.
Proof.
  intros H. unfold peak_finder.
  replace (2 <=? ndim x0)%nat with true by (symmetry; apply Nat.leb_le; exact H).
  reflexivity.
Qed.

Lemma rank_two_raises_witness :
  (2 <= ndim matrix_2x2)%nat /\
  peak_finder matrix_2x2 None 7 = Raise ValueError.
Proof.
  split.
  - simpl. lia.
  - apply (rank_two_raises matrix_2x2 None 7). simpl. lia.
Defined.

(** ** C9: the degenerate branch under minima *)

(** C9.  When the candidate subsequence of the working signal has at most
    two points, none of them exceeds the candidate minimum plus the
    threshold, and minima are asked for, [peak_finder] raises [TypeError]:
    line 244 multiplies the empty Python list by [-1.0]. *)
Theorem degenerate_minima_raises
        (x0 : list Q) (thresh : option Q) (t m : Q) (x : list Q) (ind : list Z) :
  resolve_thresh thresh x0 = Return t ->
  candidates 1 (working_signal (-1) x0) = Return (x, ind) ->
  (length x <= 2)%nat ->
  np_min x = Return m ->
  Forall (fun v => ~ (m + t < v)%Q) x ->
  peak_finder (vector x0) thresh (-1) = Raise TypeError.
Proof.
  intros Ht Hc Hlen Hm Hall.
  unfold peak_finder, vector. cbn [ndim flat].
  change (2 <=? 1)%nat with false. cbv iota.
  rewrite Ht. cbn [bind].
  change (negb ((-1 =? -1) || (-1 =? 1))) with false. cbv iota.
  rewrite Hc. cbn [bind]. rewrite Hm. cbn [bind].
  replace (2 <? Z.of_nat (length x)) with false
    by (symmetry; apply Z.ltb_ge; lia).
  unfold degenerate.
  destruct (np_argmax x) as [k | e | ] eqn:Hk;
    [ | destruct x; discriminate .. ].
  pose proof (np_argmax_range x k Hk) as Hr. cbn [bind].
  rewrite (getitem_in_range x k 0%Q Hr). cbn [bind].
  replace (Qgtb (nth (Z.to_nat k) x 0%Q) (m + t)) with false.
  - reflexivity.
  - symmetry. apply Qgtb_le. apply Qnot_lt_le.
    rewrite Forall_forall in Hall. apply Hall. apply nth_In. lia.
Qed.

Lemma degenerate_minima_raises_witness :
  resolve_thresh (Some 5%Q) (qs [1; 2; 3]) = Return 5%Q /\
  candidates 1 (working_signal (-1) (qs [1; 2; 3])) = Return (qs [-1; -3], [0; 2]) /\
  (length (qs [-1; -3]%Z) <= 2)%nat /\
  np_min (qs [-1; -3]) = Return (-3)%Q /\
  Forall (fun v => ~ (-3 + 5 < v)%Q) (qs [-1; -3]) /\
  peak_finder (vector (qs [1; 2; 3])) (Some 5%Q) (-1) = Raise TypeError.
Proof.
  assert (H1 : resolve_thresh (Some 5%Q) (qs [1; 2; 3]) = Return 5%Q)
    by reflexivity.
  assert (H2 : candidates 1 (working_signal (-1) (qs [1; 2; 3]))
               = Return (qs [-1; -3], [0; 2])) by (vm_compute; reflexivity).
  assert (H3 : (length (qs [-1; -3]%Z) <= 2)%nat) by (simpl; lia).
  assert (H4 : np_min (qs [-1; -3]) = Return (-3)%Q) by (vm_compute; reflexivity).
  assert (H5 : Forall (fun v => ~ (-3 + 5 < v)%Q) (qs [-1; -3])).
  { repeat constructor; intros H; vm_compute in H; discriminate. }
  split; [exact H1 | ]. split; [exact H2 | ]. split; [exact H3 | ].
  split; [exact H4 | ]. split; [exact H5 | ].
  exact (degenerate_minima_raises (qs [1; 2; 3]) (Some 5%Q) 5 (-3)
           (qs [-1; -3]) [0; 2] H1 H2 H3 H4 H5).
Defined.

(** ** C10: the preallocated arrays are large enough *)

(** C10.  On any list of more than two candidates (the candidates of lines
    144-152 in particular, whether or not they alternate between rises and
    falls) and for any threshold that is not negative, the scanner never
    writes outside [peak_loc] and [peak_mag]: it raises nothing, its loop
    ends, and the number of records after the end-point check is at most
    the size of the two arrays, which is [ceil(length / 2)] for the number
    [length] of candidates that the bootstrap of lines 168-181 keeps (all
    of them, or all but one). *)
Theorem scanner_writes_in_bounds
        (x : list Q) (ind : list Z) (min_mag thresh : Q) :
  (2 < length x)%nat ->
  length ind = length x ->
  np_min x = Return min_mag ->
  (0 <= thresh)%Q ->
  exists (ind' : list Z) (st : scan_state) (n : Z),
    scanner x ind min_mag thresh = Return (ind', st) /\
    0 <= c_ind st <= Z.of_nat (length (peak_loc st)) /\
    length (peak_mag st) = length (peak_loc st) /\
    Z.of_nat (length (peak_loc st)) = ceil_half n /\
    (n = Z.of_nat (length x) \/ n = Z.of_nat (length x) - 1).
Proof.
  intros Hlen Hi Hm Ht.
  destruct (scanner_any x ind min_mag thresh Hlen Hi Hm Ht)
    as (ind' & st & x' & Esc & Hf & Hx' & _).
  pose proof (ceil_half_bounds (Z.of_nat (length x'))) as Hb.
  destruct Hf as [F1 F2 F3 _ _ _].
  exists ind', st, (Z.of_nat (length x')).
  split; [exact Esc | ]. split; [lia | ]. split; [congruence | ].
  split; [lia | lia].
Qed.

Lemma scanner_writes_in_bounds_witness :
  (2 < length (qs [1; 0; 0; 1; 0]%Z))%nat /\
  length [0; 1; 3; 4; 5] = length (qs [1; 0; 0; 1; 0]) /\
  np_min (qs [1; 0; 0; 1; 0]) = Return 0%Q /\
  (0 <= 1 # 2)%Q /\
  exists (ind' : list Z) (st : scan_state) (n : Z),
    scanner (qs [1; 0; 0; 1; 0]) [0; 1; 3; 4; 5] 0 (1 # 2) = Return (ind', st) /\
    0 <= c_ind st <= Z.of_nat (length (peak_loc st)) /\
    length (peak_mag st) = length (peak_loc st) /\
    Z.of_nat (length (peak_loc st)) = ceil_half n /\
    (n = Z.of_nat (length (qs [1; 0; 0; 1; 0])) \/
     n = Z.of_nat (length (qs [1; 0; 0; 1; 0])) - 1).
Proof.
  assert (H1 : (2 < length (qs [1; 0; 0; 1; 0]%Z))%nat) by (simpl; lia).
  assert (H2 : length [0; 1; 3; 4; 5] = length (qs [1; 0; 0; 1; 0]))
    by reflexivity.
  assert (H3 : np_min (qs [1; 0; 0; 1; 0]) = Return 0%Q)
    by (vm_compute; reflexivity).
  assert (H4 : (0 <= 1 # 2)%Q) by (vm_compute; discriminate).
  split; [exact H1 | ]. split; [exact H2 | ]. split; [exact H3 | ].
  split; [exact H4 | ].
  exact (scanner_writes_in_bounds (qs [1; 0; 0; 1; 0]) [0; 1; 3; 4; 5] 0 (1 # 2)
           H1 H2 H3 H4).
Defined.

(** ** With a non-negative threshold the scanner branch returns *)

(** For a rank-1 signal with more than two candidates, a threshold that is
    not negative and a valid polarity, [peak_finder] raises nothing: it
    returns two arrays of the same length, with increasing indices. *)
Lemma scanner_branch_returns
      (x0 : list Q) (thresh : option Q) (t : Q) (extrema : Z)
      (x : list Q) (ind : list Z) :
  resolve_thresh thresh x0 = Return t ->
  (0 <= t)%Q ->
  extrema = 1 \/ extrema = -1 ->
  candidates 1 (working_signal extrema x0) = Return (x, ind) ->
  (2 < length x)%nat ->
  exists l m,
    peak_finder (vector x0) thresh extrema = Return (NpArray l, NpArray m) /\
    StronglySorted Z.lt l /\ length l = length m.
Proof.
  intros Ht Hpos He Hc Hlen.
  unfold peak_finder, vector. cbn [ndim flat].
  change (2 <=? 1)%nat with false. cbv iota. rewrite Ht. cbn [bind].
  replace (negb ((extrema =? -1) || (extrema =? 1))) with false
    by (destruct He; subst; reflexivity).
  rewrite Hc. cbn [bind].
  destruct (np_min_cases x) as [[-> _] | (mn & _ & Hm)];
    [cbn [length] in Hlen; lia | ].
  rewrite Hm. cbn [bind].
  replace (2 <? Z.of_nat (length x)) with true by (symmetry; apply Z.ltb_lt; lia).
  pose proof (scanner_branch_safe _ t x ind mn Hc Hlen Hm) as Hs.
  destruct (scanner_branch x ind mn t) as [[pi pm] | e | ]; cbn [safe bind] in *.
  - destruct Hs as (l & mags & E & Hsorted & Hl). inversion E; subst.
    destruct (extrema <? 0); cbn [imul_float bind len];
      eexists; eexists; (split; [reflexivity | split; [exact Hsorted | ]]);
      rewrite ?length_map; exact Hl.
  - destruct Hs as [_ Hneg]. exfalso. lra.
  - contradiction.
Qed.

(** * Further properties of [peak_finder] *)

(** ** The candidate subsequence *)

Lemma interior_In (l : list Q) : forall v, In v (interior l) -> In v l.
Proof.
  induction l as [ | a l IH]; intros v Hv; [exact Hv | ].
  destruct l as [ | b [ | c r]]; try contradiction.
  rewrite interior_cons in Hv.
  destruct (Qltb (nudge (b - a) * nudge (c - b)) 0).
  - destruct Hv as [<- | Hv]; [right; left; reflexivity | right; apply IH; exact Hv].
  - right. apply IH. exact Hv.
Qed.

Lemma last_as_nth (l : list Q) : last l 0%Q = nth (length l - 1) l 0%Q.
Proof.
  induction l as [ | a t IH]; [reflexivity | ].
  destruct t as [ | b t']; [reflexivity | ].
  change (last (a :: b :: t') 0%Q) with (last (b :: t') 0%Q). rewrite IH.
  cbn [length]. replace (S (S (length t')) - 1)%nat with (S (length t')) by lia.
  replace (S (length t') - 1)%nat with (length t') by lia. reflexivity.
Qed.

(** The candidates are the samples at the candidate indices. *)
Lemma candidates_map (x0 : list Q) (x : list Q) (ind : list Z) :
  x0 <> [] ->
  candidates 1 x0 = Return (x, ind) ->
  x = map (at_ x0) ind /\
  Forall (fun i => 0 <= i < Z.of_nat (length x0)) ind.
Proof.
  intros Hne Hc. rewrite candidates_eq in Hc by discriminate.
  assert (Hx : x = firstn 1 x0 ++ interior x0 ++ skipn (length x0 - 1) x0)
    by congruence.
  assert (Hind : ind = [0] ++ map (fun i => i + 1) (np_where (turn_mask x0))
                           ++ [Z.of_nat (length x0) - 1]) by congruence.
  clear Hc. unfold np_where in Hind.
  destruct (where_from_sorted (turn_mask x0) 0) as [_ Hr].
  rewrite turn_mask_length in Hr.
  assert (Hr1 : Forall (fun i => 0 <= i < Z.of_nat (length x0))
                  (map (fun i => i + 1) (where_from 0 (turn_mask x0)))).
  { rewrite Forall_map. eapply Forall_impl; [ | exact Hr]. cbv beta. intros; lia. }
  assert (Hlen : (0 < length x0)%nat) by (destruct x0; [congruence | cbn; lia]).
  split.
  - rewrite Hx, Hind, !map_app. f_equal; [ | f_equal].
    + destruct x0; [congruence | reflexivity].
    + pose proof (take_interior x0 []) as Ht. cbn [app length] in Ht.
      change (Z.of_nat 0) with 0 in Ht.
      rewrite (take_in_range x0 0%Q) in Ht by exact Hr1.
      injection Ht as Hi. rewrite <- Hi. reflexivity.
    + rewrite skipn_last by exact Hne. cbn [map]. unfold at_.
      replace (Z.to_nat (Z.of_nat (length x0) - 1)) with (length x0 - 1)%nat by lia.
      f_equal. apply last_as_nth.
  - rewrite Hind. cbn [app]. constructor; [lia | ].
    apply Forall_app. split; [exact Hr1 | constructor; [lia | constructor]].
Qed.

(** ** The values the scanner stores *)

Section ScanValues.
Variable x : list Q.
Variable L : Z.
Variable min_mag : Q.
Variable thresh : Q.
Variable cap : nat.

Hypothesis HL : L = Z.of_nat (length x).
Hypothesis HL2 : 2 <= L.
Hypothesis Hcap : L <= 2 * Z.of_nat cap <= L + 1.
Hypothesis Hmin : forall k, 0 <= k < L -> (min_mag <= at_ x k)%Q.
Hypothesis Halt : forall k, 0 <= k -> k + 2 < L ->
  ((at_ x k < at_ x (k + 1))%Q -> (at_ x (k + 2) <= at_ x (k + 1))%Q) /\
  ((at_ x (k + 1) <= at_ x k)%Q -> (at_ x (k + 1) < at_ x (k + 2))%Q).

Local Abbreviation Inv := (Inv x L min_mag thresh cap).
Local Abbreviation Post := (Post x L min_mag cap).
Local Abbreviation vals := (vals x min_mag thresh).

Ltac fields2 := unfold confirmed in *;
                cbn [ii found_peak temp_mag temp_loc left_min peak_loc
                        peak_mag c_ind] in *.

(** Writing one more record keeps the records in order. *)
Lemma records_add (pl : list Z) (pm : list Q) (c j : Z) (m : Q) :
  0 <= c < Z.of_nat (length pl) -> length pm = length pl ->
  (forall k, (k < Z.to_nat c)%nat ->
     nth k pm 0%Q = at_ x (nth k pl 0) /\ (min_mag + thresh < nth k pm 0%Q)%Q) ->
  m = at_ x j -> (min_mag + thresh < m)%Q ->
  forall k, (k < Z.to_nat (c + 1))%nat ->
    nth k (update pm (Z.to_nat c) m) 0%Q
    = at_ x (nth k (update pl (Z.to_nat c) j) 0) /\
    (min_mag + thresh < nth k (update pm (Z.to_nat c) m) 0%Q)%Q.
Proof.
  intros Hc Hlen Hrec Hm Hb k Hk.
  destruct (Nat.eq_dec k (Z.to_nat c)) as [-> | Hne].
  - rewrite !nth_update_same by lia. split; assumption.
  - rewrite !nth_update_other by exact Hne. apply Hrec. lia.
Qed.

Lemma body_vals (st : scan_state) :
  Inv st -> vals st -> ii st + 2 < L ->
  forall st3,
    (st1 <- peak_step x min_mag thresh st ;;
     st2 <- track_pending x thresh st1 ;;
     valley_step x thresh st2) = Return st3 ->
    vals st3.
Proof.
  destruct st as [v T tl F lm pl pm c]. intros (Hr & Hph & Hc) Hv Hlt st3.
  cbn [ii] in *.
  destruct (peak_step_cases x L min_mag thresh cap HL HL2 Hcap v T tl F lm pl pm c)
    as (T1 & F1 & E1 & H1); [lia | lia | apply Hc | ].
  rewrite E1. cbn [bind].
  edestruct (track_pending_cases x L thresh cap HL (v + 1) T1 tl F1 lm pl pm c)
    as (T2 & tl2 & E2 & H2); [lia | ].
  rewrite E2. cbn [bind].
  pose proof (mid_after_track x L min_mag thresh cap Hmin v T tl F lm pl pm c
                T1 F1 T2 tl2 ltac:(lia) ltac:(lia) Hph Hc H1 H2) as Hm.
  destruct Hm as [Mmin Mtop Mloc Mfresh Mneg].
  destruct Hv as [V1 V2 V3]. fields2.
  destruct Hc as [C1 C2 C3 C4 C5 C6 C7 C8 C9 C10 C11 C12]. fields2.
  pose proof (Hmin (v + 1) ltac:(lia)) as Hm1.
  pose proof (Hmin (v + 2) ltac:(lia)) as Hm2.
  (* the pending peak after the peak step and the update *)
  assert (P2 : T2 = min_mag \/
               exists j, tl2 = Some j /\ T2 = at_ x j /\ (min_mag + thresh < T2)%Q).
  { destruct H2 as [(-> & -> & _) | (-> & -> & _ & Hgt)].
    - destruct H1 as [[-> _] | [-> _]]; [exact V2 | left; reflexivity].
    - right. exists (v + 1). split; [reflexivity | split; [reflexivity | lra]]. }
  unfold valley_step. fields2.
  replace (v + 1 + 1) with (v + 2) by lia.
  rewrite (getitem_in_range x (v + 2) 0%Q) by lia. fold (at_ x (v + 2)).
  assert (Hkeep : forall lm', (min_mag <= lm')%Q ->
            Return (mk_state (v + 2) T2 tl2 F1 lm' pl pm c) = Return st3 ->
            vals st3).
  { intros lm' Hlm' E. injection E as <-. constructor; fields2; assumption. }
  assert (Hrest :
    (if Qltb (at_ x (v + 2)) lm
     then Return (mk_state (v + 2) T2 tl2 F1 (at_ x (v + 2)) pl pm c)
     else Return (mk_state (v + 2) T2 tl2 F1 lm pl pm c)) = Return st3 ->
    vals st3).
  { destruct (Qltb (at_ x (v + 2)) lm); apply Hkeep; assumption. }
  destruct F1; cbn [negb bind]; [exact Hrest | ].
  destruct (Qgtb T2 (thresh + at_ x (v + 2))) eqn:E; [ | exact Hrest].
  qprop. destruct tl2 as [j | ]; cbn [read_local bind]; [ | discriminate].
  assert (HT : (min_mag < T2)%Q).
  { destruct (Qlt_le_dec thresh 0) as [Hth | Hth].
    - destruct (Mneg Hth) as [H | H]; [exact H | discriminate].
    - lra. }
  rewrite (setitem_in_range pl c j) by lia.
  rewrite (setitem_in_range pm c T2) by lia.
  cbn [bind]. intros E3. injection E3 as <-.
  destruct P2 as [-> | (j' & Hj' & HTj & Hb)];
    [exfalso; apply (Qlt_irrefl _ HT) | ].
  injection Hj' as <-.
  constructor; fields2.
  - exact Hm2.
  - right. exists j. split; [reflexivity | split; assumption].
  - apply records_add; try assumption; lia.
Qed.

Lemma peak_step_vals (st st1 : scan_state) :
  Inv st -> vals st -> ii st + 1 < L ->
  peak_step x min_mag thresh st = Return st1 -> vals st1.
Proof.
  destruct st as [v T tl F lm pl pm c]. intros (Hr & Hph & Hc) Hv Hlt.
  cbn [ii] in *.
  destruct (peak_step_cases x L min_mag thresh cap HL HL2 Hcap v T tl F lm pl pm c)
    as (T1 & F1 & E1 & H1); [lia | lia | apply Hc | ].
  rewrite E1. intros E. injection E as <-.
  destruct Hv as [V1 V2 V3]. fields2. constructor; fields2; try assumption.
  destruct H1 as [[-> _] | [-> _]]; [exact V2 | left; reflexivity].
Qed.

Lemma scan_loop_vals (fuel : nat) : forall st st',
  Inv st -> vals st ->
  scan_loop x L min_mag thresh fuel st = Return st' -> vals st'.
Proof.
  induction fuel as [ | fuel IH]; intros st st' HI Hv; cbn [scan_loop].
  - destruct (ii st <? L - 1); [discriminate | ].
    intros E. injection E as <-. exact Hv.
  - destruct (ii st <? L - 1) eqn:E;
      [ | intros E'; injection E' as <-; exact Hv].
    apply Z.ltb_lt in E.
    destruct (peak_step x min_mag thresh st) as [st1 | e | ] eqn:E1;
      cbn [bind]; try discriminate.
    pose proof (peak_step_vals st st1 HI Hv ltac:(lia) E1) as Hv1.
    destruct (ii st1 =? L - 1) eqn:Eb;
      [intros E'; injection E' as <-; exact Hv1 | ].
    assert (Hii1 : ii st1 = ii st + 1).
    { destruct st as [v T tl F lm pl pm c]. destruct HI as (Hr & Hph & Hc).
      cbn [ii] in *.
      destruct (peak_step_cases x L min_mag thresh cap HL HL2 Hcap
                  v T tl F lm pl pm c) as (T1 & F1 & E1' & _);
        [lia | lia | apply Hc | ].
      rewrite E1' in E1. injection E1 as <-. reflexivity. }
    apply Z.eqb_neq in Eb.
    pose proof (body_safe x L min_mag thresh cap HL HL2 Hcap Hmin Halt st HI
                  ltac:(lia)) as Hb.
    pose proof (body_vals st HI Hv ltac:(lia)) as Hbv.
    rewrite E1 in Hb, Hbv. cbn [bind] in Hb, Hbv.
    destruct (track_pending x thresh st1) as [st2 | e | ]; cbn [bind] in *;
      try discriminate.
    destruct (valley_step x thresh st2) as [st3 | e | ]; cbn [bind safe] in *;
      try discriminate.
    intros Hloop. apply (IH st3 st'); [apply Hb | apply Hbv; reflexivity | exact Hloop].
Qed.

Lemma end_point_vals (st st' : scan_state) :
  Post st -> vals st ->
  end_point x L min_mag thresh st = Return st' -> vals st'.
Proof.
  destruct st as [v T tl F lm pl pm c].
  intros [P1 P2 P3 P4 P5 P6 P7 P8 P9] [V1 V2 V3]. fields2.
  unfold end_point. fields2.
  rewrite (getitem_last x 0%Q) by lia.
  replace (length x - 1)%nat with (Z.to_nat (L - 1)) by lia.
  fold (at_ x (L - 1)). cbn [bind].
  destruct (Qgtb (at_ x (L - 1)) T && Qgtb (at_ x (L - 1)) (lm + thresh)) eqn:E1.
  - qprop.
    assert (Hroom : 2 * c <= L - 1) by (destruct P6 as [H6 | [_ H6]]; [exact H6 | lra]).
    rewrite (setitem_in_range pl c (L - 1)) by lia.
    rewrite (setitem_in_range pm c (at_ x (L - 1))) by lia.
    cbn [bind]. intros E. injection E as <-.
    constructor; fields2; try assumption.
    apply records_add; try assumption; try lia; try reflexivity. lra.
  - destruct (negb F && Qgtb T min_mag) eqn:E2.
    + qprop. destruct (P9 H H0) as (j & -> & Hj & Hlt). cbn [read_local bind].
      assert (Hroom : 2 * c <= L - 1)
        by (destruct P6 as [H6 | [H6 _]]; [exact H6 | congruence]).
      rewrite (setitem_in_range pl c j) by lia.
      rewrite (setitem_in_range pm c T) by lia.
      cbn [bind]. intros E. injection E as <-.
      destruct V2 as [-> | (j' & Hj' & HTj & Hb)];
        [exfalso; apply (Qlt_irrefl _ H0) | ].
      injection Hj' as <-.
      constructor; fields2; try assumption.
      * right. exists j. split; [reflexivity | split; assumption].
      * apply records_add; try assumption; lia.
    + intros E. injection E as <-. constructor; fields2; assumption.
Qed.

Lemma vals_init (ii0 maxPeaks : Z) : vals (init_state ii0 min_mag maxPeaks).
Proof.
  unfold init_state. constructor; fields2.
  - apply Qle_refl.
  - left. reflexivity.
  - intros k Hk. cbn in Hk. lia.
Qed.

Lemma scan_vals (ii0 maxPeaks : Z) (st' : scan_state) :
  ii0 = -1 \/ ii0 = 0 -> phase x L ii0 -> cap = Z.to_nat maxPeaks ->
  (st <- scan_loop x L min_mag thresh (Z.to_nat L)
                   (init_state ii0 min_mag maxPeaks) ;;
   end_point x L min_mag thresh st) = Return st' ->
  vals st'.
Proof.
  intros Hii Hph Hmax.
  assert (HI : Inv (init_state ii0 min_mag maxPeaks))
    by (apply Inv_init; assumption).
  pose proof (scan_loop_safe x L min_mag thresh cap HL HL2 Hcap Hmin Halt
                (Z.to_nat L) _ HI) as Hs.
  destruct (scan_loop x L min_mag thresh (Z.to_nat L) _) as [st | e | ] eqn:El;
    cbn [bind]; try discriminate.
  intros E. apply (end_point_vals st st'); [ | | exact E].
  - apply Hs. unfold init_state. cbn [ii]. lia.
  - apply (scan_loop_vals _ _ st HI (vals_init ii0 maxPeaks) El).
Qed.
End ScanValues.

Lemma scanner_values (x0 : list Q) (thresh : Q) (x : list Q) (ind : list Z)
      (min_mag : Q) (ind' : list Z) (st : scan_state) :
  candidates 1 x0 = Return (x, ind) ->
  (2 < length x)%nat ->
  np_min x = Return min_mag ->
  scanner x ind min_mag thresh = Return (ind', st) ->
  vals x min_mag thresh st.
Proof.
  intros Hc Hlen Hm. rewrite candidates_eq in Hc by discriminate.
  assert (Hx : x = firstn 1 x0 ++ interior x0 ++ skipn (length x0 - 1) x0)
    by congruence.
  clear Hc.
  destruct x0 as [ | a [ | b r]];
    [ rewrite Hx in Hlen; simpl in Hlen; lia
    | rewrite Hx in Hlen; simpl in Hlen; lia | ].
  assert (Ha : alt (Qltb a b) x) by (rewrite Hx; apply candidates_alt).
  clear Hx.
  unfold scanner.
  remember (Z.of_nat (length x)) as L eqn:HL.
  pose proof (ceil_half_bounds L) as Hcb.
  destruct (bootstrap_alt (Qltb a b) x ind L Ha Hlen) as [Hb Hup].
  rewrite Hb. cbn [bind].
  set (ii0 := if Qltb a b then 0 else -1).
  assert (Halt : forall k, 0 <= k -> k + 2 < L ->
    ((at_ x k < at_ x (k + 1))%Q -> (at_ x (k + 2) <= at_ x (k + 1))%Q) /\
    ((at_ x (k + 1) <= at_ x k)%Q -> (at_ x (k + 1) < at_ x (k + 2))%Q)).
  { intros k Hk Hk2. apply (alt_at (Qltb a b)); [exact Ha | exact Hk | lia]. }
  assert (HL2 : 2 <= L) by lia.
  assert (Hcap : L <= 2 * Z.of_nat (Z.to_nat (ceil_half L)) <= L + 1) by lia.
  assert (Hii : ii0 = -1 \/ ii0 = 0) by (unfold ii0; destruct (Qltb a b); auto).
  assert (Hph : phase x L ii0).
  { unfold phase, ii0. destruct (Qltb a b) eqn:E.
    - symmetry in Hup. apply Qltb_lt in Hup. split.
      + intros _ _. exact Hup.
      + intros H. apply (Halt 0); [lia | lia | exact Hup].
    - symmetry in Hup. apply Qltb_ge in Hup. split.
      + intros H. lia.
      + intros _. exact Hup. }
  pose proof (scan_vals x L min_mag thresh (Z.to_nat (ceil_half L))
                HL HL2 Hcap (fun k Hk => np_min_at x min_mag k Hm ltac:(lia)) Halt
                ii0 (ceil_half L)) as Hv.
  destruct (scan_loop x L min_mag thresh (Z.to_nat L) _) as [s1 | e | ] eqn:El;
    cbn [bind] in *; try discriminate.
  destruct (end_point x L min_mag thresh s1) as [s2 | e | ] eqn:Ee;
    cbn [bind]; try discriminate.
  intros E. injection E as _ <-. apply (Hv s2 Hii Hph eq_refl eq_refl).
Qed.

(** ** What a call that returns has gone through *)

Lemma bind_returns {A B : Type} (m : outcome A) (k : A -> outcome B) (b : B) :
  bind m k = Return b -> exists a, m = Return a /\ k a = Return b.
Proof.
  destruct m as [a | e | ]; cbn [bind]; intros H; try discriminate.
  exists a. split; [reflexivity | exact H].
Qed.

(** A call on a rank-1 array that returns had a threshold, a valid polarity
    and a non-empty signal, and either went through the scanner and returns
    its arrays (with the sign restored), or found nothing in the degenerate
    branch under maxima. *)
Lemma peak_finder_returns_inv
      (x0 : list Q) (thresh : option Q) (extrema : Z)
      (inds : pyval Z) (mags : pyval Q) :
  peak_finder (vector x0) thresh extrema = Return (inds, mags) ->
  exists t x ind m,
    resolve_thresh thresh x0 = Return t /\
    (extrema = 1 \/ extrema = -1) /\
    x0 <> [] /\
    candidates 1 (working_signal extrema x0) = Return (x, ind) /\
    np_min x = Return m /\
    (((2 < length x)%nat /\
      exists l ms,
        scanner_branch x ind m t = Return (NpArray l, NpArray ms) /\
        inds = NpArray l /\
        mags = NpArray (if extrema <? 0 then map (fun a => (a * -1)%Q) ms else ms)) \/
     ((length x <= 2)%nat /\ extrema = 1 /\
      degenerate x ind m t = Return (PyList [], PyList []) /\
      inds = PyList [] /\ mags = PyList [])).
Proof.
  unfold peak_finder, vector. cbn [ndim flat].
  change (2 <=? 1)%nat with false. cbv iota. intros H.
  apply bind_returns in H. destruct H as (t & Ht & H).
  destruct (negb ((extrema =? -1) || (extrema =? 1))) eqn:He; [discriminate | ].
  assert (Hext : extrema = 1 \/ extrema = -1).
  { apply negb_false_iff, orb_true_iff in He.
    destruct He as [He | He]; apply Z.eqb_eq in He; auto. }
  apply bind_returns in H. destruct H as ([x ind] & Hc & H).
  apply bind_returns in H. destruct H as (m & Hm & H).
  apply bind_returns in H. destruct H as ([pi pm] & Hbr & H).
  apply bind_returns in H. destruct H as (pm' & Hmul & H).
  apply bind_returns in H. destruct H as (n & Hlen & H).
  injection H as <- <-.
  assert (Hne : x0 <> []).
  { intros ->. replace (working_signal extrema []) with (@nil Q) in Hc
      by (unfold working_signal; destruct (extrema =? -1); reflexivity).
    vm_compute in Hc. injection Hc as <- _. discriminate. }
  exists t, x, ind, m. repeat (split; [assumption | ]).
  destruct (2 <? Z.of_nat (length x)) eqn:Hbig.
  - apply Z.ltb_lt in Hbig. left. split; [lia | ].
    pose proof (scanner_branch_safe _ t x ind m Hc ltac:(lia) Hm) as Hs.
    rewrite Hbr in Hs. cbn [safe] in Hs.
    destruct Hs as (l & ms & E & _). injection E as -> ->.
    exists l, ms. split; [exact Hbr | split; [reflexivity | ]].
    destruct (extrema <? 0); cbn [imul_float] in Hmul; injection Hmul as <-;
      reflexivity.
  - apply Z.ltb_ge in Hbig. right. split; [lia | ].
    assert (Hlenxi : length x = length ind).
    { rewrite candidates_eq in Hc by discriminate. injection Hc as <- <-.
      apply candidates_lengths. unfold working_signal.
      destruct (extrema =? -1); [ | exact Hne].
      destruct x0; [congruence | discriminate]. }
    assert (Hx : x <> []) by (destruct x; [discriminate | discriminate]).
    destruct (degenerate_outcome x ind m t Hx Hlenxi) as [(i & v & Hd) | Hd];
      rewrite Hd in Hbr; injection Hbr as <- <-.
    + destruct (extrema <? 0); cbn [imul_float] in Hmul; injection Hmul as <-;
        discriminate.
    + destruct Hext as [-> | ->]; [ | discriminate].
      cbn in Hmul. injection Hmul as <-. auto.
Qed.

(** ** The records of the scanner branch *)

Lemma where_from_length (mask : list bool) : forall n : Z,
  (length (where_from n mask) <= length mask)%nat.
Proof.
  induction mask as [ | b mask IH]; intros n; cbn [where_from length]; [lia | ].
  specialize (IH (n + 1)). destruct b; cbn [length]; lia.
Qed.

(** There are no more candidates than samples, once there are two samples. *)
Lemma candidates_count (w x : list Q) (ind : list Z) :
  candidates 1 w = Return (x, ind) -> (2 <= length w)%nat ->
  (length x <= length w)%nat.
Proof.
  intros Hc Hw. rewrite candidates_eq in Hc by discriminate.
  assert (Hx : x = firstn 1 w ++ interior w ++ skipn (length w - 1) w)
    by congruence.
  rewrite Hx, skipn_last by (destruct w; [cbn in Hw; lia | discriminate]).
  rewrite !length_app, (interior_length w 0).
  pose proof (where_from_length (turn_mask w) 0) as H.
  rewrite turn_mask_length in H.
  destruct w as [ | a r]; [cbn in Hw; lia | ]. cbn [firstn length] in *. lia.
Qed.

(** Every record of the scanner branch is a sample of the working signal,
    more than the threshold above the smallest candidate, and the records
    number at most half the samples, rounded up. *)
Lemma scanner_branch_records (w : list Q) (t : Q) (x : list Q) (ind : list Z)
      (m : Q) (l : list Z) (ms : list Q) :
  candidates 1 w = Return (x, ind) ->
  (2 < length x)%nat ->
  np_min x = Return m ->
  scanner_branch x ind m t = Return (NpArray l, NpArray ms) ->
  Forall2 (fun i v => 0 <= i < Z.of_nat (length w) /\ v = at_ w i /\ (m + t < v)%Q)
          l ms /\
  (2 * length l <= length w + 1)%nat.
Proof.
  intros Hc Hbig Hm Hbr.
  assert (Hw : w <> []).
  { intros ->. vm_compute in Hc. injection Hc as <- _. cbn in Hbig. lia. }
  destruct (candidates_map w x ind Hw Hc) as [Hx Hir].
  assert (Hlen : length x = length ind) by (rewrite Hx; apply length_map).
  assert (Hw2 : (2 <= length w)%nat).
  { destruct w as [ | a [ | b r]]; [congruence | | cbn; lia].
    vm_compute in Hc. injection Hc as <- _. cbn in Hbig. lia. }
  pose proof (candidates_count w x ind Hc Hw2) as Hcount.
  pose proof (scanner_safe w t x ind m Hc Hbig Hm) as Hs.
  unfold scanner_branch in Hbr.
  destruct (scanner x ind m t) as [[ind' st] | e | ] eqn:Esc;
    cbn [bind safe] in *; try discriminate.
  pose proof (scanner_values w t x ind m ind' st Hc Hbig Hm Esc) as Hv.
  destruct Hs as [Hi HF]. cbn [fst snd] in *. subst ind'.
  destruct HF as [F1 F2 F3 F4 F5]. unfold confirmed in *.
  destruct Hv as [_ _ V3].
  rewrite !slice_prefix in Hbr by lia.
  rewrite (take_in_range ind 0) in Hbr by (rewrite <- Hlen; exact F5).
  cbn [bind] in Hbr. injection Hbr as <- <-.
  pose proof (ceil_half_bounds (Z.of_nat (length x))) as Hcb.
  split.
  - apply (Forall2_firstn_map _ _ 0 0%Q); [lia | lia | ].
    intros k Hk. destruct (V3 k Hk) as [Hval Hgt].
    assert (Hloc : 0 <= nth k (peak_loc st) 0 < Z.of_nat (length x)).
    { rewrite Forall_forall in F5. apply F5.
      rewrite <- (firstn_skipn (Z.to_nat (c_ind st)) (peak_loc st)) at 1.
      rewrite app_nth1 by (rewrite length_firstn; lia).
      apply nth_In. rewrite length_firstn. lia. }
    assert (Hin : 0 <= nth (Z.to_nat (nth k (peak_loc st) 0)) ind 0
                    < Z.of_nat (length w)).
    { rewrite Forall_forall in Hir. apply Hir. apply nth_In. lia. }
    split; [exact Hin | split; [ | exact Hgt]].
    rewrite Hval. unfold at_ at 1. rewrite Hx.
    rewrite (nth_indep _ 0%Q (at_ w 0)) by (rewrite length_map; lia).
    apply map_nth.
  - rewrite length_map, length_firstn. lia.
Qed.

Lemma Qmult_minus_one_twice (v : Q) : (inject_Z (-1) * v * -1)%Q = v.
Proof.
  destruct v as [n d]. unfold Qmult, inject_Z. cbn [Qnum Qden].
  f_equal.
  - destruct n; cbn; rewrite ?Pos.mul_1_r; reflexivity.
  - cbn. apply Pos.mul_1_r.
Qed.

Lemma working_signal_length (extrema : Z) (x0 : list Q) :
  length (working_signal extrema x0) = length x0.
Proof.
  unfold working_signal. destruct (extrema =? -1); [apply length_map | reflexivity].
Qed.

Lemma working_signal_at (x0 : list Q) (i : Z) :
  0 <= i < Z.of_nat (length x0) ->
  at_ (working_signal (-1) x0) i = (- at_ x0 i)%Q.
Proof.
  intros Hi. unfold working_signal, at_. cbv iota.
  change (-1 =? -1) with true. cbv iota.
  rewrite (nth_indep _ 0%Q (inject_Z (-1) * 0)%Q) by (rewrite length_map; lia).
  rewrite (map_nth (fun v => (inject_Z (-1) * v)%Q)).
  apply Qmult_minus_one.
Qed.

Lemma np_min_In (l : list Q) (m : Q) : np_min l = Return m -> In m l.
Proof.
  destruct l as [ | a t]; cbn [np_min]; intros H; [discriminate | ].
  injection H as <-. apply (fold_select_In (fun m v => Qltb v m)).
Qed.

(** Every call on a rank-1 array that returns: the records are samples of
    the signal, each more than the threshold above some sample of the
    working signal, and there are at most half as many as samples, rounded
    up. *)
Lemma peak_finder_records_inv
      (x0 : list Q) (thresh : option Q) (extrema : Z)
      (inds : pyval Z) (mags : pyval Q) :
  peak_finder (vector x0) thresh extrema = Return (inds, mags) ->
  exists t m,
    resolve_thresh thresh x0 = Return t /\
    (extrema = 1 \/ extrema = -1) /\
    In m (working_signal extrema x0) /\
    Forall2 (fun i v => 0 <= i < Z.of_nat (length x0) /\ v = at_ x0 i /\
                        (m + t < at_ (working_signal extrema x0) i)%Q)
            (items inds) (items mags) /\
    (2 * length (items inds) <= length x0 + 1)%nat.
Proof.
  intros H. apply peak_finder_returns_inv in H.
  destruct H as (t & x & ind & m & Ht & Hext & Hne & Hc & Hm & Hcases).
  exists t, m. split; [exact Ht | split; [exact Hext | ]].
  assert (Hwne : working_signal extrema x0 <> []).
  { intros E. apply (f_equal (@length Q)) in E.
    rewrite working_signal_length in E. destruct x0; [congruence | discriminate]. }
  destruct (candidates_map _ x ind Hwne Hc) as [Hx Hir].
  assert (Hin : In m (working_signal extrema x0)).
  { apply np_min_In in Hm. rewrite Hx in Hm. apply in_map_iff in Hm.
    destruct Hm as (i & <- & Hi). rewrite Forall_forall in Hir.
    specialize (Hir i Hi). unfold at_. apply nth_In. lia. }
  split; [exact Hin | ].
  destruct Hcases as [(Hbig & l & ms & Hbr & -> & ->) | (_ & _ & _ & -> & ->)];
    [ | cbn [items length]; split; [constructor | lia]].
  destruct (scanner_branch_records _ t x ind m l ms Hc Hbig Hm Hbr) as [Hrec Hcnt].
  rewrite working_signal_length in Hrec, Hcnt. cbn [items].
  split; [ | exact Hcnt].
  destruct Hext as [-> | ->].
  - change (1 <? 0) with false. cbv iota.
    change (working_signal 1 x0) with x0 in *.
    eapply Forall2_impl; [ | exact Hrec]. cbv beta.
    intros i v (Hi & Hv & Hgt). rewrite <- Hv. auto.
  - change (-1 <? 0) with true. cbv iota.
    clear Hcnt Hbr. induction Hrec as [ | i v l ms (Hi & Hv & Hgt) Hrec IH];
      cbn [map]; [constructor | ]. constructor; [ | exact IH].
    split; [exact Hi | split].
    + rewrite Hv. unfold working_signal, at_.
      change (-1 =? -1) with true. cbv iota.
      rewrite (nth_indep _ 0%Q (inject_Z (-1) * 0)%Q) by (rewrite length_map; lia).
      rewrite (map_nth (fun v => (inject_Z (-1) * v)%Q)).
      apply Qmult_minus_one_twice.
    + rewrite <- Hv. exact Hgt.
Qed.

Lemma records_in_range
      (x0 : list Q) (thresh : option Q) (extrema : Z)
      (inds : pyval Z) (mags : pyval Q) :
  peak_finder (vector x0) thresh extrema = Return (inds, mags) ->
  Forall (fun i => 0 <= i < Z.of_nat (length x0)) (items inds).
Proof.
  intros H. apply peak_finder_records_inv in H.
  destruct H as (t & m & _ & _ & _ & Hrec & _).
  induction Hrec as [ | i v l ms (Hi & _) _ IH]; constructor; assumption.
Qed.

(** X1.  With a valid threshold (omitted, or not negative) no call of
    [peak_finder] raises [IndexError] or [UnboundLocalError], and the
    scanning loop of every call comes to an end: whatever the array and the
    polarity, each read and write of lines 129-251 is within bounds, and
    [temp_loc] is bound wherever it is read. *)
Theorem peak_finder_never_index_error
        (x0 : ndarray) (thresh : option Q) (extrema : Z) :
  (forall t, thresh = Some t -> (0 <= t)%Q) ->
  peak_finder x0 thresh extrema <> Raise IndexError /\
  peak_finder x0 thresh extrema <> Raise UnboundLocalError /\
  peak_finder x0 thresh extrema <> OutOfFuel.
Proof.
  intros Hv.
  pose proof (peak_finder_valid_outcome x0 thresh extrema Hv) as H.
  destruct (peak_finder x0 thresh extrema) as [r | e | ].
  - repeat split; discriminate.
  - repeat split; try discriminate; intros E; injection E as ->;
      destruct H as [H | [H | H]]; discriminate.
  - contradiction.
Qed.

Lemma peak_finder_never_index_error_witness :
  (forall t, Some 2%Q = Some t -> (0 <= t)%Q) /\
  peak_finder (vector (qs [0; 3; 0; 4; 1; 5; 2; 8; 0])) (Some 2%Q) 1
  <> Raise IndexError /\
  peak_finder (vector (qs [0; 3; 0; 4; 1; 5; 2; 8; 0])) (Some 2%Q) 1
  <> Raise UnboundLocalError /\
  peak_finder (vector (qs [0; 3; 0; 4; 1; 5; 2; 8; 0])) (Some 2%Q) 1
  <> OutOfFuel.
Proof.
  assert (H1 : forall t, Some 2%Q = Some t -> (0 <= t)%Q)
    by (intros t Ht; injection Ht as <-; vm_compute; discriminate).
  split; [exact H1 | ].
  exact (peak_finder_never_index_error
           (vector (qs [0; 3; 0; 4; 1; 5; 2; 8; 0])) (Some 2%Q) 1 H1).
Defined.

Lemma In_combine_map {A B : Type} (f : A -> B) (l : list A) (a : A) (b : B) :
  In (a, b) (combine l (map f l)) -> In a l /\ b = f a.
Proof.
  induction l as [ | c r IH]; cbn [map combine]; intros H; [contradiction | ].
  destruct H as [E | H].
  - injection E as <- <-. split; [left; reflexivity | reflexivity].
  - destruct (IH H) as [H1 H2]. split; [right; exact H1 | exact H2].
Qed.

(** X2.  With a valid threshold (omitted, or not negative) every record
    returned is a sample of the input: the index is a position of the
    signal and the magnitude is the value of the signal at that position,
    for maxima and, the sign being restored, for minima. *)
Theorem records_are_samples
        (x0 : list Q) (thresh : option Q) (extrema : Z)
        (peak_inds : pyval Z) (peak_mags : pyval Q) :
  (forall t, thresh = Some t -> (0 <= t)%Q) ->
  peak_finder (vector x0) thresh extrema = Return (peak_inds, peak_mags) ->
  Forall2 (fun i v => 0 <= i < Z.of_nat (length x0) /\ v = at_ x0 i)
          (items peak_inds) (items peak_mags).
Proof.
  intros Hv H. apply peak_finder_returns_inv in H.
  destruct H as (t & x & ind & m & Ht & Hext & Hne & Hc & Hm & Hcases).
  destruct Hcases as [(Hbig & l & ms & Hbr & -> & ->) | (_ & _ & _ & -> & ->)];
    cbn [items]; [ | constructor].
  assert (Htpos : (0 <= t)%Q).
  { destruct thresh as [t' | ]; cbn [resolve_thresh] in Ht.
    - injection Ht as <-. apply Hv. reflexivity.
    - apply (default_thresh_nonneg _ _ Ht). }
  assert (Hwne : working_signal extrema x0 <> []).
  { intros E. apply (f_equal (@length Q)) in E.
    rewrite working_signal_length in E. destruct x0; [congruence | discriminate]. }
  destruct (candidates_map _ x ind Hwne Hc) as [Hx Hir].
  assert (Hlen : length ind = length x) by (rewrite Hx; symmetry; apply length_map).
  assert (Hsorted : StronglySorted Z.lt ind).
  { rewrite candidates_eq in Hc by discriminate. injection Hc as Hx' <-.
    apply candidates_ind_sorted. rewrite <- Hx' in Hbig.
    destruct (working_signal extrema x0) as [ | a [ | b r]]; simpl in Hbig; try lia.
    cbn [length]. lia. }
  destruct (scanner_branch_any x ind m t Hbig Hlen Hsorted Hm Htpos)
    as (l' & ms' & Eb & _ & Hrec & _).
  rewrite Eb in Hbr. injection Hbr as -> ->.
  assert (Hpair : forall i v, In (i, v) (combine ind x) ->
            0 <= i < Z.of_nat (length x0) /\ v = at_ (working_signal extrema x0) i).
  { intros i v Hin. rewrite Hx in Hin.
    apply In_combine_map in Hin. destruct Hin as [H1 ->].
    rewrite Forall_forall in Hir. specialize (Hir i H1).
    rewrite working_signal_length in Hir. split; [exact Hir | reflexivity]. }
  destruct Hext as [-> | ->].
  - change (1 <? 0) with false. cbv iota.
    change (working_signal 1 x0) with x0 in *.
    eapply Forall2_impl; [ | exact Hrec]. cbv beta.
    intros i v Hin. exact (Hpair i v Hin).
  - change (-1 <? 0) with true. cbv iota.
    clear Eb. induction Hrec as [ | i v l ms Hin Hrec IH];
      cbn [map]; [constructor | ]. constructor; [ | exact IH].
    destruct (Hpair i v Hin) as [Hi Hval]. split; [exact Hi | ].
    rewrite Hval. unfold working_signal, at_.
    change (-1 =? -1) with true. cbv iota.
    rewrite (nth_indep _ 0%Q (inject_Z (-1) * 0)%Q) by (rewrite length_map; lia).
    rewrite (map_nth (fun v => (inject_Z (-1) * v)%Q)).
    apply Qmult_minus_one_twice.
Qed.

Lemma records_are_samples_witness :
  (forall t, @None Q = Some t -> (0 <= t)%Q) /\
  peak_finder (vector (qs [0; 3; 0; 4; 1; 5; 2; 8; 0])) None (-1)
  = Return (NpArray [0; 2; 4; 6; 8], NpArray (qs [0; 0; 1; 2; 0])) /\
  Forall2 (fun i v => 0 <= i < Z.of_nat (length (qs [0; 3; 0; 4; 1; 5; 2; 8; 0]))
                      /\ v = at_ (qs [0; 3; 0; 4; 1; 5; 2; 8; 0]) i)
          [0; 2; 4; 6; 8] (qs [0; 0; 1; 2; 0]).
Proof.
  assert (H : peak_finder (vector (qs [0; 3; 0; 4; 1; 5; 2; 8; 0])) None (-1)
              = Return (NpArray [0; 2; 4; 6; 8], NpArray (qs [0; 0; 1; 2; 0])))
    by (vm_compute; reflexivity).
  assert (H0 : forall t, @None Q = Some t -> (0 <= t)%Q)
    by (intros t Ht; discriminate).
  split; [exact H0 | ]. split; [exact H | ].
  exact (records_are_samples (qs [0; 3; 0; 4; 1; 5; 2; 8; 0]) None (-1)
           (NpArray [0; 2; 4; 6; 8]) (NpArray (qs [0; 0; 1; 2; 0])) H0 H).
Defined.

(** X3.  The two sequences returned have the same length, and a signal of
    [n] samples gives at most [ceil(n / 2)] records. *)
Theorem record_count_bound
        (x0 : list Q) (thresh : option Q) (extrema : Z)
        (peak_inds : pyval Z) (peak_mags : pyval Q) :
  peak_finder (vector x0) thresh extrema = Return (peak_inds, peak_mags) ->
  length (items peak_inds) = length (items peak_mags) /\
  (2 * length (items peak_inds) <= length x0 + 1)%nat.
Proof.
  intros H. apply peak_finder_records_inv in H.
  destruct H as (t & m & _ & _ & _ & Hrec & Hcnt).
  split; [exact (Forall2_length Hrec) | exact Hcnt].
Qed.

Lemma record_count_bound_witness :
  peak_finder (vector (qs [0; 3; 0; 4; 1; 5; 2; 8; 0])) None (-1)
  = Return (NpArray [0; 2; 4; 6; 8], NpArray (qs [0; 0; 1; 2; 0])) /\
  length [0; 2; 4; 6; 8] = length (qs [0; 0; 1; 2; 0]) /\
  (2 * length [0; 2; 4; 6; 8] <= length (qs [0; 3; 0; 4; 1; 5; 2; 8; 0]%Z) + 1)%nat.
Proof.
  assert (H : peak_finder (vector (qs [0; 3; 0; 4; 1; 5; 2; 8; 0])) None (-1)
              = Return (NpArray [0; 2; 4; 6; 8], NpArray (qs [0; 0; 1; 2; 0])))
    by (vm_compute; reflexivity).
  split; [exact H | ].
  exact (record_count_bound (qs [0; 3; 0; 4; 1; 5; 2; 8; 0]) None (-1)
           (NpArray [0; 2; 4; 6; 8]) (NpArray (qs [0; 0; 1; 2; 0])) H).
Defined.

Lemma Forall2_right {A B : Type} (R : A -> B -> Prop) (P : B -> Prop)
      (la : list A) (lb : list B) :
  Forall2 R la lb -> (forall a b, R a b -> P b) -> Forall P lb.
Proof.
  intros H HP. induction H as [ | a b la lb Hab _ IH]; constructor.
  - exact (HP a b Hab).
  - exact IH.
Qed.

(** X4.  Under maxima every magnitude returned is more than the threshold
    above the smallest sample of the signal. *)
Theorem maxima_clear_threshold
        (x0 : list Q) (thresh : option Q) (t mn : Q)
        (peak_inds : pyval Z) (peak_mags : pyval Q) :
  peak_finder (vector x0) thresh 1 = Return (peak_inds, peak_mags) ->
  resolve_thresh thresh x0 = Return t ->
  Forall (fun v => (mn <= v)%Q) x0 ->
  Forall (fun v => (mn + t < v)%Q) (items peak_mags).
Proof.
  intros H Ht Hmn. apply peak_finder_records_inv in H.
  destruct H as (t' & m & Ht' & _ & Hin & Hrec & _).
  rewrite Ht in Ht'. injection Ht' as <-.
  change (working_signal 1 x0) with x0 in *.
  rewrite Forall_forall in Hmn. specialize (Hmn m Hin).
  apply (Forall2_right _ _ _ _ Hrec). cbv beta.
  intros i v (_ & -> & Hgt). lra.
Qed.

Lemma maxima_clear_threshold_witness :
  peak_finder (vector (qs [0; 3; 0; 4; 1; 5; 2; 8; 0])) (Some 2%Q) 1
  = Return (NpArray [1; 3; 5; 7], NpArray (qs [3; 4; 5; 8])) /\
  resolve_thresh (Some 2%Q) (qs [0; 3; 0; 4; 1; 5; 2; 8; 0]) = Return 2%Q /\
  Forall (fun v => (0 <= v)%Q) (qs [0; 3; 0; 4; 1; 5; 2; 8; 0]) /\
  Forall (fun v => (0 + 2 < v)%Q) (qs [3; 4; 5; 8]).
Proof.
  assert (H1 : peak_finder (vector (qs [0; 3; 0; 4; 1; 5; 2; 8; 0])) (Some 2%Q) 1
               = Return (NpArray [1; 3; 5; 7], NpArray (qs [3; 4; 5; 8])))
    by (vm_compute; reflexivity).
  assert (H2 : resolve_thresh (Some 2%Q) (qs [0; 3; 0; 4; 1; 5; 2; 8; 0])
               = Return 2%Q) by reflexivity.
  assert (H3 : Forall (fun v => (0 <= v)%Q) (qs [0; 3; 0; 4; 1; 5; 2; 8; 0])).
  { repeat constructor; vm_compute; discriminate. }
  split; [exact H1 | ]. split; [exact H2 | ]. split; [exact H3 | ].
  exact (maxima_clear_threshold (qs [0; 3; 0; 4; 1; 5; 2; 8; 0]) (Some 2%Q) 2 0
           (NpArray [1; 3; 5; 7]) (NpArray (qs [3; 4; 5; 8])) H1 H2 H3).
Defined.

(** X5.  Under minima every magnitude returned is more than the threshold
    below the largest sample of the signal. *)
Theorem minima_clear_threshold
        (x0 : list Q) (thresh : option Q) (t mx : Q)
        (peak_inds : pyval Z) (peak_mags : pyval Q) :
  peak_finder (vector x0) thresh (-1) = Return (peak_inds, peak_mags) ->
  resolve_thresh thresh x0 = Return t ->
  Forall (fun v => (v <= mx)%Q) x0 ->
  Forall (fun v => (v < mx - t)%Q) (items peak_mags).
Proof.
  intros H Ht Hmx. apply peak_finder_records_inv in H.
  destruct H as (t' & m & Ht' & _ & Hin & Hrec & _).
  rewrite Ht in Ht'. injection Ht' as <-.
  assert (Hm : (- mx <= m)%Q).
  { unfold working_signal in Hin. change (-1 =? -1) with true in Hin.
    cbv iota in Hin. apply in_map_iff in Hin. destruct Hin as (u & <- & Hu).
    rewrite Forall_forall in Hmx. specialize (Hmx u Hu).
    replace (inject_Z (-1) * u)%Q with (- u)%Q
      by (symmetry; apply Qmult_minus_one).
    lra. }
  apply (Forall2_right _ _ _ _ Hrec). cbv beta.
  intros i v (Hi & -> & Hgt). rewrite working_signal_at in Hgt by exact Hi. lra.
Qed.

Lemma minima_clear_threshold_witness :
  peak_finder (vector (qs [0; 3; 0; 4; 1; 5; 2; 8; 0])) (Some 2%Q) (-1)
  = Return (NpArray [0; 2; 4; 6; 8], NpArray (qs [0; 0; 1; 2; 0])) /\
  resolve_thresh (Some 2%Q) (qs [0; 3; 0; 4; 1; 5; 2; 8; 0]) = Return 2%Q /\
  Forall (fun v => (v <= 8)%Q) (qs [0; 3; 0; 4; 1; 5; 2; 8; 0]) /\
  Forall (fun v => (v < 8 - 2)%Q) (qs [0; 0; 1; 2; 0]).
Proof.
  assert (H1 : peak_finder (vector (qs [0; 3; 0; 4; 1; 5; 2; 8; 0])) (Some 2%Q) (-1)
               = Return (NpArray [0; 2; 4; 6; 8], NpArray (qs [0; 0; 1; 2; 0])))
    by (vm_compute; reflexivity).
  assert (H2 : resolve_thresh (Some 2%Q) (qs [0; 3; 0; 4; 1; 5; 2; 8; 0])
               = Return 2%Q) by reflexivity.
  assert (H3 : Forall (fun v => (v <= 8)%Q) (qs [0; 3; 0; 4; 1; 5; 2; 8; 0])).
  { repeat constructor; vm_compute; discriminate. }
  split; [exact H1 | ]. split; [exact H2 | ]. split; [exact H3 | ].
  exact (minima_clear_threshold (qs [0; 3; 0; 4; 1; 5; 2; 8; 0]) (Some 2%Q) 2 8
           (NpArray [0; 2; 4; 6; 8]) (NpArray (qs [0; 0; 1; 2; 0])) H1 H2 H3).
Defined.

(** ** Calls that are sure to return, and calls that are sure to fail *)

(** X6.  With a valid polarity, a threshold that is omitted or not
    negative, and a signal that has more than two candidates, [peak_finder]
    raises nothing and returns two arrays. *)
Theorem scanner_branch_call_returns
        (x0 : list Q) (thresh : option Q) (extrema : Z)
        (x : list Q) (ind : list Z) :
  (forall t, thresh = Some t -> (0 <= t)%Q) ->
  extrema = 1 \/ extrema = -1 ->
  candidates 1 (working_signal extrema x0) = Return (x, ind) ->
  (2 < length x)%nat ->
  exists l m, peak_finder (vector x0) thresh extrema
              = Return (NpArray l, NpArray m).
Proof.
  intros Hpos He Hc Hlen.
  assert (Hne : x0 <> []).
  { intros ->. replace (working_signal extrema []) with (@nil Q) in Hc
      by (unfold working_signal; destruct (extrema =? -1); reflexivity).
    vm_compute in Hc. injection Hc as <- _. cbn in Hlen. lia. }
  assert (Ht : exists t, resolve_thresh thresh x0 = Return t /\ (0 <= t)%Q).
  { destruct thresh as [t | ]; cbn [resolve_thresh].
    - exists t. split; [reflexivity | apply Hpos; reflexivity].
    - destruct (default_thresh x0) as [t | e | ] eqn:E.
      + exists t. split; [reflexivity | apply (default_thresh_nonneg x0 t E)].
      + destruct x0; [congruence | discriminate].
      + destruct x0; [congruence | discriminate]. }
  destruct Ht as (t & Ht & Htpos).
  destruct (scanner_branch_returns x0 thresh t extrema x ind Ht Htpos He Hc Hlen)
    as (l & m & H & _).
  exists l, m. exact H.
Qed.

Lemma scanner_branch_call_returns_witness :
  (forall t, @None Q = Some t -> (0 <= t)%Q) /\
  (-1 = 1 \/ -1 = -1) /\
  candidates 1 (working_signal (-1) (qs [0; 3; 0; 4; 1; 5; 2; 8; 0]))
  = Return (qs [0; -3; 0; -4; -1; -5; -2; -8; 0], [0; 1; 2; 3; 4; 5; 6; 7; 8]) /\
  (2 < length (qs [0; -3; 0; -4; -1; -5; -2; -8; 0]%Z))%nat /\
  exists l m, peak_finder (vector (qs [0; 3; 0; 4; 1; 5; 2; 8; 0])) None (-1)
              = Return (NpArray l, NpArray m).
Proof.
  assert (H1 : forall t, @None Q = Some t -> (0 <= t)%Q) by (intros t H; discriminate).
  assert (H2 : -1 = 1 \/ -1 = -1) by (right; reflexivity).
  assert (H3 : candidates 1 (working_signal (-1) (qs [0; 3; 0; 4; 1; 5; 2; 8; 0]))
               = Return (qs [0; -3; 0; -4; -1; -5; -2; -8; 0],
                         [0; 1; 2; 3; 4; 5; 6; 7; 8])) by (vm_compute; reflexivity).
  assert (H4 : (2 < length (qs [0; -3; 0; -4; -1; -5; -2; -8; 0]%Z))%nat)
    by (simpl; lia).
  split; [exact H1 | ]. split; [exact H2 | ]. split; [exact H3 | ].
  split; [exact H4 | ].
  exact (scanner_branch_call_returns (qs [0; 3; 0; 4; 1; 5; 2; 8; 0]) None (-1)
           (qs [0; -3; 0; -4; -1; -5; -2; -8; 0]) [0; 1; 2; 3; 4; 5; 6; 7; 8]
           H1 H2 H3 H4).
Defined.

(** X7.  A threshold at least as large as the range of the signal leaves
    nothing to find: under maxima the call returns, and it returns no
    record. *)
Theorem threshold_above_range_finds_nothing
        (x0 : list Q) (t mn mx : Q) :
  x0 <> [] ->
  Forall (fun v => (mn <= v)%Q) x0 ->
  Forall (fun v => (v <= mx)%Q) x0 ->
  (mx - mn <= t)%Q ->
  exists peak_inds peak_mags,
    peak_finder (vector x0) (Some t) 1 = Return (peak_inds, peak_mags) /\
    items peak_inds = [] /\ items peak_mags = [].
Proof.
  intros Hne Hmn Hmx Ht.
  assert (Htpos : (0 <= t)%Q).
  { destruct x0 as [ | a r]; [congruence | ].
    inversion Hmn; inversion Hmx; subst. lra. }
  pose proof (candidates_eq 1 x0 ltac:(discriminate)) as Hc.
  remember (firstn 1 x0 ++ interior x0 ++ skipn (length x0 - 1) x0) as x eqn:Hx.
  remember ([0] ++ map (fun i => i + 1) (np_where (turn_mask x0))
                ++ [Z.of_nat (length x0) - 1]) as ind eqn:Hind.
  destruct (candidates_map x0 x ind Hne Hc) as [Hxm Hir].
  assert (Hsub : forall v, In v x -> In v x0).
  { intros v Hv. rewrite Hxm in Hv. apply in_map_iff in Hv.
    destruct Hv as (i & <- & Hi). rewrite Forall_forall in Hir.
    specialize (Hir i Hi). unfold at_. apply nth_In. lia. }
  rewrite Forall_forall in Hmn, Hmx.
  destruct (le_lt_dec (length x) 2) as [Hsmall | Hbig].
  - (* the degenerate branch *)
    exists (PyList []), (PyList []). split; [ | split; reflexivity].
    unfold peak_finder, vector. cbn [ndim flat resolve_thresh bind].
    change (2 <=? 1)%nat with false. cbv iota.
    change (negb ((1 =? -1) || (1 =? 1))) with false. cbv iota.
    change (working_signal 1 x0) with x0. rewrite Hc. cbn [bind].
    destruct (np_min_cases x) as [[Hx0 _] | (m & Hxne & Hm)].
    { exfalso. rewrite Hx0 in Hx. destruct x0; [congruence | discriminate]. }
    rewrite Hm. cbn [bind].
    replace (2 <? Z.of_nat (length x)) with false
      by (symmetry; apply Z.ltb_ge; lia).
    unfold degenerate.
    destruct (np_argmax x) as [k | e | ] eqn:Hk;
      [ | destruct x; [congruence | discriminate] .. ].
    pose proof (np_argmax_range x k Hk) as Hr. cbn [bind].
    rewrite (getitem_in_range x k 0%Q Hr). cbn [bind].
    replace (Qgtb (nth (Z.to_nat k) x 0%Q) (m + t)) with false; [reflexivity | ].
    symmetry. apply Qgtb_le.
    assert (H1 : (nth (Z.to_nat k) x 0 <= mx)%Q)
      by (apply Hmx, Hsub, nth_In; lia).
    assert (H2 : (mn <= m)%Q) by (apply Hmn, Hsub, np_min_In; exact Hm).
    lra.
  - (* the scanner branch *)
    destruct (scanner_branch_returns x0 (Some t) t 1 x ind eq_refl Htpos
                ltac:(left; reflexivity) Hc Hbig) as (l & m & H & _).
    exists (NpArray l), (NpArray m). split; [exact H | ].
    pose proof (peak_finder_records_inv _ _ _ _ _ H) as Hinv.
    destruct Hinv as (t' & m0 & Ht' & _ & Hin & Hrec & _).
    injection Ht' as <-. change (working_signal 1 x0) with x0 in *.
    cbn [items] in *.
    destruct Hrec as [ | i v l m (Hi & Hv & Hgt) _]; [split; reflexivity | ].
    exfalso.
    assert (H1 : (at_ x0 i <= mx)%Q) by (apply Hmx; unfold at_; apply nth_In; lia).
    assert (H2 : (mn <= m0)%Q) by (apply Hmn; exact Hin).
    lra.
Qed.

Lemma threshold_above_range_finds_nothing_witness :
  qs [0; 3; 0; 4; 1; 5; 2; 8; 0] <> [] /\
  Forall (fun v => (0 <= v)%Q) (qs [0; 3; 0; 4; 1; 5; 2; 8; 0]) /\
  Forall (fun v => (v <= 8)%Q) (qs [0; 3; 0; 4; 1; 5; 2; 8; 0]) /\
  (8 - 0 <= 8)%Q /\
  exists peak_inds peak_mags,
    peak_finder (vector (qs [0; 3; 0; 4; 1; 5; 2; 8; 0])) (Some 8%Q) 1
    = Return (peak_inds, peak_mags) /\
    items peak_inds = [] /\ items peak_mags = [].
Proof.
  assert (H1 : qs [0; 3; 0; 4; 1; 5; 2; 8; 0] <> []) by (vm_compute; discriminate).
  assert (H2 : Forall (fun v => (0 <= v)%Q) (qs [0; 3; 0; 4; 1; 5; 2; 8; 0])).
  { repeat constructor; vm_compute; discriminate. }
  assert (H3 : Forall (fun v => (v <= 8)%Q) (qs [0; 3; 0; 4; 1; 5; 2; 8; 0])).
  { repeat constructor; vm_compute; discriminate. }
  assert (H4 : (8 - 0 <= 8)%Q) by (vm_compute; discriminate).
  split; [exact H1 | ]. split; [exact H2 | ]. split; [exact H3 | ].
  split; [exact H4 | ].
  exact (threshold_above_range_finds_nothing (qs [0; 3; 0; 4; 1; 5; 2; 8; 0])
           8 0 8 H1 H2 H3 H4).
Defined.

(** X8.  An empty rank-1 array is refused with [ValueError]: by [np.max]
    when the threshold is omitted, by [np.min] on the empty candidates when
    it is given and the polarity is valid. *)
Theorem empty_signal_raises (thresh : option Q) (extrema : Z) :
  thresh = None \/ extrema = 1 \/ extrema = -1 ->
  peak_finder (vector []) thresh extrema = Raise ValueError.
Proof.
  intros [-> | H].
  - reflexivity.
  - destruct thresh as [t | ]; [ | reflexivity].
    destruct H as [-> | ->]; reflexivity.
Qed.

Lemma empty_signal_raises_witness :
  (Some 1%Q = None \/ -1 = 1 \/ -1 = -1) /\
  peak_finder (vector []) (Some 1%Q) (-1) = Raise ValueError.
Proof.
  assert (H : Some 1%Q = None \/ -1 = 1 \/ -1 = -1) by (right; right; reflexivity).
  split; [exact H | ].
  exact (empty_signal_raises (Some 1%Q) (-1) H).
Defined.

(** X9.  A 0-dimensional array passes the shape test and the default
    threshold, and is then refused by [np.diff] with [ValueError]. *)
Theorem zero_dim_raises (v : Q) (thresh : option Q) (extrema : Z) :
  extrema = 1 \/ extrema = -1 ->
  peak_finder (mk_ndarray 0 [v]) thresh extrema = Raise ValueError.
Proof.
  intros H. unfold peak_finder. cbn [ndim flat].
  change (2 <=? 0)%nat with false. cbv iota.
  destruct thresh as [t | ]; cbn [resolve_thresh default_thresh np_max np_min
                                  fold_left bind];
    destruct H as [-> | ->]; reflexivity.
Qed.

Lemma zero_dim_raises_witness :
  (1 = 1 \/ 1 = -1) /\
  peak_finder (mk_ndarray 0 [5%Q]) None 1 = Raise ValueError.
Proof.
  assert (H : 1 = 1 \/ 1 = -1) by (left; reflexivity).
  split; [exact H | ].
  exact (zero_dim_raises 5 None 1 H).
Defined.

(** X10.  A polarity other than [1] and [-1] stops the call at the
    assertion of line 139, for every array of rank below 2 whose threshold
    is given or whose signal is not empty; nothing of the signal is looked
    at beyond the default threshold. *)
Theorem invalid_extrema_raises (x0 : ndarray) (thresh : option Q) (extrema : Z) :
  (ndim x0 < 2)%nat ->
  thresh <> None \/ flat x0 <> [] ->
  extrema <> 1 -> extrema <> -1 ->
  peak_finder x0 thresh extrema = Raise AssertionError.
Proof.
  intros Hnd Hth H1 H2. unfold peak_finder.
  replace (2 <=? ndim x0)%nat with false by (symmetry; apply Nat.leb_gt; lia).
  assert (Ht : exists t, resolve_thresh thresh (flat x0) = Return t).
  { destruct thresh as [t | ]; [exists t; reflexivity | ].
    destruct Hth as [H | H]; [congruence | ].
    destruct (flat x0) as [ | a r]; [congruence | ].
    eexists. reflexivity. }
  destruct Ht as (t & ->). cbn [bind].
  replace (negb ((extrema =? -1) || (extrema =? 1))) with true; [reflexivity | ].
  symmetry. apply negb_true_iff, orb_false_iff.
  split; apply Z.eqb_neq; assumption.
Qed.

Lemma invalid_extrema_raises_witness :
  (ndim (vector []) < 2)%nat /\
  (Some 1%Q <> None \/ flat (vector []) <> []) /\
  0 <> 1 /\ 0 <> -1 /\
  peak_finder (vector []) (Some 1%Q) 0 = Raise AssertionError.
Proof.
  assert (H1 : (ndim (vector []) < 2)%nat) by (simpl; lia).
  assert (H2 : Some 1%Q <> None \/ flat (vector []) <> []) by (left; discriminate).
  assert (H3 : 0 <> 1) by lia.
  assert (H4 : 0 <> -1) by lia.
  split; [exact H1 | ]. split; [exact H2 | ]. split; [exact H3 | ].
  split; [exact H4 | ].
  exact (invalid_extrema_raises (vector []) (Some 1%Q) 0 H1 H2 H3 H4).
Defined.

(** ** Monotone signals *)

Lemma rising_no_turn (l : list Q) :
  rising l -> forall n : Z, where_from n (turn_mask l) = [].
Proof.
  induction l as [ | a l IH]; intros H n; [reflexivity | ].
  destruct l as [ | b [ | c r]]; try reflexivity.
  rewrite turn_mask_cons, turn_xorb. cbn [rising] in H.
  destruct H as (Hab & Hbc & Hr).
  replace (Qltb a b) with true by (symmetry; apply Qltb_lt; exact Hab).
  replace (Qltb b c) with true by (symmetry; apply Qltb_lt; exact Hbc).
  cbn [xorb where_from]. apply IH. cbn [rising]. split; assumption.
Qed.

Lemma falling_no_turn (l : list Q) :
  falling l -> forall n : Z, where_from n (turn_mask l) = [].
Proof.
  induction l as [ | a l IH]; intros H n; [reflexivity | ].
  destruct l as [ | b [ | c r]]; try reflexivity.
  rewrite turn_mask_cons, turn_xorb. cbn [falling] in H.
  destruct H as (Hab & Hbc & Hr).
  replace (Qltb a b) with false by (symmetry; apply Qltb_ge; exact Hab).
  replace (Qltb b c) with false by (symmetry; apply Qltb_ge; exact Hbc).
  cbn [xorb where_from]. apply IH. cbn [falling]. split; assumption.
Qed.

Lemma rising_ends (l : list Q) (a : Q) :
  rising (a :: l) -> l <> [] -> (a < last (a :: l) 0)%Q.
Proof.
  revert a. induction l as [ | b l IH]; intros a H Hne; [congruence | ].
  cbn [rising] in H. destruct H as [Hab Hr].
  change (last (a :: b :: l) 0%Q) with (last (b :: l) 0%Q).
  destruct l as [ | c l']; [exact Hab | ].
  specialize (IH b Hr ltac:(discriminate)). lra.
Qed.

Lemma falling_ends (l : list Q) (a : Q) :
  falling (a :: l) -> (last (a :: l) 0 <= a)%Q.
Proof.
  revert a. induction l as [ | b l IH]; intros a H; [apply Qle_refl | ].
  cbn [falling] in H. destruct H as [Hab Hr].
  change (last (a :: b :: l) 0%Q) with (last (b :: l) 0%Q).
  specialize (IH b Hr). lra.
Qed.

Lemma rising_negated (l : list Q) :
  rising l -> falling (map (fun v => (inject_Z (-1) * v)%Q) l).
Proof.
  induction l as [ | a l IH]; intros H; [exact I | ].
  destruct l as [ | b r]; [exact I | ].
  cbn [rising] in H. destruct H as [Hab Hr].
  specialize (IH Hr). cbn [map] in *. cbn [falling]. split; [ | exact IH].
  rewrite (Qmult_minus_one a), (Qmult_minus_one b). lra.
Qed.

(** A signal without interior candidate has its two end points as
    candidates. *)
Lemma end_point_candidates (l : list Q) :
  l <> [] -> (forall n : Z, where_from n (turn_mask l) = []) ->
  candidates 1 l
  = Return ([hd 0%Q l; last l 0%Q], [0; Z.of_nat (length l) - 1]).
Proof.
  intros Hne Hno. rewrite candidates_eq by discriminate.
  assert (Hi : interior l = []).
  { pose proof (interior_length l 0) as H. rewrite Hno in H.
    destruct (interior l); [reflexivity | discriminate]. }
  unfold np_where. rewrite Hi, Hno, skipn_last by exact Hne.
  destruct l as [ | a r]; [congruence | reflexivity].
Qed.

(** The call on a signal whose candidates are its two end points [a] and
    [z]. *)
Lemma end_point_call (x0 : list Q) (t : Q) (extrema : Z) (a z : Q) (s : Z) :
  extrema = 1 \/ extrema = -1 ->
  candidates 1 (working_signal extrema x0) = Return ([a; z], [0; s]) ->
  peak_finder (vector x0) (Some t) extrema
  = if Qgtb (if Qltb a z then z else a) ((if Qltb z a then z else a) + t)
    then Raise TypeError
    else if extrema <? 0 then Raise TypeError
         else Return (PyList [], PyList []).
Proof.
  intros He Hc. unfold peak_finder, vector. cbn [ndim flat resolve_thresh bind].
  change (2 <=? 1)%nat with false. cbv iota.
  replace (negb ((extrema =? -1) || (extrema =? 1))) with false
    by (destruct He; subst; reflexivity).
  rewrite Hc. cbn [bind np_min fold_left length].
  change (2 <? Z.of_nat 2) with false. cbv iota.
  unfold degenerate. cbn [np_argmax argmax_from bind].
  destruct (Qltb a z) eqn:Eaz.
  - change (getitem [a; z] 1) with (Return z). cbn [bind].
    destruct (Qgtb z _).
    + change (getitem [0; s] 1) with (Return s). cbn [bind].
      destruct (extrema <? 0); reflexivity.
    + cbn [bind]. destruct (extrema <? 0); reflexivity.
  - change (getitem [a; z] 0) with (Return a). cbn [bind].
    destruct (Qgtb a _).
    + change (getitem [0; s] 0) with (Return 0). cbn [bind].
      destruct (extrema <? 0); reflexivity.
    + cbn [bind]. destruct (extrema <? 0); reflexivity.
Qed.

(** ** The places the scanner stores *)

Section ScanTops.
Variable x : list Q.
Variable L : Z.
Variable min_mag : Q.
Variable thresh : Q.
Variable cap : nat.

Hypothesis HL : L = Z.of_nat (length x).
Hypothesis HL2 : 2 <= L.
Hypothesis Hcap : L <= 2 * Z.of_nat cap <= L + 1.
Hypothesis Hmin : forall k, 0 <= k < L -> (min_mag <= at_ x k)%Q.
Hypothesis Halt : forall k, 0 <= k -> k + 2 < L ->
  ((at_ x k < at_ x (k + 1))%Q -> (at_ x (k + 2) <= at_ x (k + 1))%Q) /\
  ((at_ x (k + 1) <= at_ x k)%Q -> (at_ x (k + 1) < at_ x (k + 2))%Q).

Local Abbreviation Inv := (Inv x L min_mag thresh cap).
Local Abbreviation Post := (Post x L min_mag cap).
Local Abbreviation tops := (tops x L thresh).

Ltac fields3 := unfold confirmed in *;
                cbn [ii found_peak temp_mag temp_loc left_min peak_loc
                        peak_mag c_ind] in *.

(** The candidate after a valley is a local maximum. *)
Lemma phase_top (v : Z) :
  -1 <= v -> v + 1 < L -> phase x L v -> top x L (v + 1).
Proof.
  intros Hv Hv1 [P1 P2]. split.
  - intros H. replace (v + 1 - 1) with v by lia. apply P1; lia.
  - intros H. replace (v + 1 + 1) with (v + 2) by lia. apply P2. lia.
Qed.

Lemma tops_add (pl : list Z) (c j : Z) :
  0 <= c < Z.of_nat (length pl) ->
  (forall k, (k < Z.to_nat c)%nat -> top x L (nth k pl 0)) ->
  top x L j ->
  forall k, (k < Z.to_nat (c + 1))%nat ->
    top x L (nth k (update pl (Z.to_nat c) j) 0).
Proof.
  intros Hc Hrec Hj k Hk.
  destruct (Nat.eq_dec k (Z.to_nat c)) as [-> | Hne].
  - rewrite nth_update_same by lia. exact Hj.
  - rewrite nth_update_other by exact Hne. apply Hrec. lia.
Qed.

Lemma body_tops (st : scan_state) :
  Inv st -> tops st -> ii st + 2 < L ->
  forall st3,
    (st1 <- peak_step x min_mag thresh st ;;
     st2 <- track_pending x thresh st1 ;;
     valley_step x thresh st2) = Return st3 ->
    tops st3.
Proof.
  destruct st as [v T tl F lm pl pm c]. intros (Hr & Hph & Hc) Hv Hlt st3.
  cbn [ii] in *.
  destruct (peak_step_cases x L min_mag thresh cap HL HL2 Hcap v T tl F lm pl pm c)
    as (T1 & F1 & E1 & H1); [lia | lia | apply Hc | ].
  rewrite E1. cbn [bind].
  edestruct (track_pending_cases x L thresh cap HL (v + 1) T1 tl F1 lm pl pm c)
    as (T2 & tl2 & E2 & H2); [lia | ].
  rewrite E2. cbn [bind].
  pose proof (mid_after_track x L min_mag thresh cap Hmin v T tl F lm pl pm c
                T1 F1 T2 tl2 ltac:(lia) ltac:(lia) Hph Hc H1 H2) as Hm.
  destruct Hm as [Mmin Mtop Mloc Mfresh Mneg].
  pose proof (phase_top v ltac:(lia) ltac:(lia) Hph) as Htop.
  destruct Hv as [V1 V2 V3]. fields3.
  destruct Hc as [C1 C2 C3 C4 C5 C6 C7 C8 C9 C10 C11 C12]. fields3.
  assert (Hdown : (at_ x (v + 2) <= at_ x (v + 1))%Q) by (apply Hph; lia).
  (* the pending location after the peak step and the update *)
  assert (P2 : forall j, tl2 = Some j -> top x L j).
  { destruct H2 as [(_ & -> & _) | (_ & -> & _)]; [exact V1 | ].
    intros j Hj. injection Hj as <-. exact Htop. }
  (* the valley is not above the pending magnitude, or within the
     threshold of [left_min] *)
  assert (Hend : (at_ x (v + 2) <= T2)%Q \/
                 ((0 <= thresh)%Q /\ (at_ x (v + 2) <= lm + thresh)%Q)).
  { destruct (Qlt_le_dec thresh 0) as [Hth | Hth].
    - left. specialize (Mtop Hth). lra.
    - destruct H2 as [(-> & _ & [H | H]) | (-> & _)].
      + left. lra.
      + right. split; [exact Hth | lra].
      + left. exact Hdown. }
  unfold valley_step. fields3.
  replace (v + 1 + 1) with (v + 2) by lia.
  rewrite (getitem_in_range x (v + 2) 0%Q) by lia. fold (at_ x (v + 2)).
  assert (Hkeep : forall lm', lm' = lm \/ lm' = at_ x (v + 2) ->
            Return (mk_state (v + 2) T2 tl2 F1 lm' pl pm c) = Return st3 ->
            tops st3).
  { intros lm' Hlm' E. injection E as <-. constructor; fields3;
      [exact P2 | exact V2 | ].
    intros _. right.
    destruct Hend as [H | [Hth H]]; [left; exact H | right].
    destruct Hlm' as [-> | ->]; lra. }
  assert (Hrest :
    (if Qltb (at_ x (v + 2)) lm
     then Return (mk_state (v + 2) T2 tl2 F1 (at_ x (v + 2)) pl pm c)
     else Return (mk_state (v + 2) T2 tl2 F1 lm pl pm c)) = Return st3 ->
    tops st3).
  { destruct (Qltb (at_ x (v + 2)) lm); apply Hkeep; auto. }
  destruct F1; cbn [negb bind]; [exact Hrest | ].
  destruct (Qgtb T2 (thresh + at_ x (v + 2))) eqn:E; [ | exact Hrest].
  qprop. destruct tl2 as [j | ]; cbn [read_local bind]; [ | discriminate].
  rewrite (setitem_in_range pl c j) by lia.
  rewrite (setitem_in_range pm c T2) by lia.
  cbn [bind]. intros E3. injection E3 as <-.
  constructor; fields3.
  - exact P2.
  - apply tops_add; [lia | exact V2 | apply P2; reflexivity].
  - intros _. right.
    destruct Hend as [H | [Hth H]]; [left; exact H | right; lra].
Qed.

(** Leaving the loop on line 200: the cursor is on a local maximum. *)
Lemma break_tops (st st1 : scan_state) :
  Inv st -> tops st -> ii st + 1 < L ->
  peak_step x min_mag thresh st = Return st1 -> ii st1 = L - 1 -> tops st1.
Proof.
  destruct st as [v T tl F lm pl pm c]. intros (Hr & Hph & Hc) Hv Hlt.
  cbn [ii] in *.
  destruct (peak_step_cases x L min_mag thresh cap HL HL2 Hcap v T tl F lm pl pm c)
    as (T1 & F1 & E1 & H1); [lia | lia | apply Hc | ].
  rewrite E1. intros E. injection E as <-. cbn [ii]. intros Hii.
  destruct Hv as [V1 V2 V3]. fields3. constructor; fields3; try assumption.
  intros _. left. apply phase_top; [lia | lia | exact Hph].
Qed.

Lemma scan_loop_tops (fuel : nat) : forall st st',
  Inv st -> tops st ->
  scan_loop x L min_mag thresh fuel st = Return st' -> tops st'.
Proof.
  induction fuel as [ | fuel IH]; intros st st' HI Hv; cbn [scan_loop].
  - destruct (ii st <? L - 1); [discriminate | ].
    intros E. injection E as <-. exact Hv.
  - destruct (ii st <? L - 1) eqn:E;
      [ | intros E'; injection E' as <-; exact Hv].
    apply Z.ltb_lt in E.
    destruct (peak_step x min_mag thresh st) as [st1 | e | ] eqn:E1;
      cbn [bind]; try discriminate.
    destruct (ii st1 =? L - 1) eqn:Eb.
    { apply Z.eqb_eq in Eb. intros E'. injection E' as <-.
      apply (break_tops st st1 HI Hv ltac:(lia) E1 Eb). }
    assert (Hii1 : ii st1 = ii st + 1).
    { destruct st as [v T tl F lm pl pm c]. destruct HI as (Hr & Hph & Hc).
      cbn [ii] in *.
      destruct (peak_step_cases x L min_mag thresh cap HL HL2 Hcap
                  v T tl F lm pl pm c) as (T1 & F1 & E1' & _);
        [lia | lia | apply Hc | ].
      rewrite E1' in E1. injection E1 as <-. reflexivity. }
    apply Z.eqb_neq in Eb.
    pose proof (body_safe x L min_mag thresh cap HL HL2 Hcap Hmin Halt st HI
                  ltac:(lia)) as Hb.
    pose proof (body_tops st HI Hv ltac:(lia)) as Hbv.
    rewrite E1 in Hb, Hbv. cbn [bind] in Hb, Hbv.
    destruct (track_pending x thresh st1) as [st2 | e | ]; cbn [bind] in *;
      try discriminate.
    destruct (valley_step x thresh st2) as [st3 | e | ]; cbn [bind safe] in *;
      try discriminate.
    intros Hloop. apply (IH st3 st'); [apply Hb | apply Hbv; reflexivity | exact Hloop].
Qed.

Lemma end_point_tops (st st' : scan_state) :
  Post st -> tops st ->
  end_point x L min_mag thresh st = Return st' -> tops st'.
Proof.
  destruct st as [v T tl F lm pl pm c].
  intros [P1 P2 P3 P4 P5 P6 P7 P8 P9] [V1 V2 V3]. fields3.
  unfold end_point. fields3.
  rewrite (getitem_last x 0%Q) by lia.
  replace (length x - 1)%nat with (Z.to_nat (L - 1)) by lia.
  fold (at_ x (L - 1)). cbn [bind].
  destruct (Qgtb (at_ x (L - 1)) T && Qgtb (at_ x (L - 1)) (lm + thresh)) eqn:E1.
  - qprop.
    assert (Hroom : 2 * c <= L - 1) by (destruct P6 as [H6 | [_ H6]]; [exact H6 | lra]).
    rewrite (setitem_in_range pl c (L - 1)) by lia.
    rewrite (setitem_in_range pm c (at_ x (L - 1))) by lia.
    cbn [bind]. intros E. injection E as <-.
    constructor; fields3; try assumption.
    apply tops_add; [lia | exact V2 | ].
    subst v. destruct (V3 ltac:(lia)) as [Ht | [Ht | Ht]]; [exact Ht | lra | lra].
  - destruct (negb F && Qgtb T min_mag) eqn:E2.
    + qprop. destruct (P9 H H0) as (j & -> & Hj & Hlt). cbn [read_local bind].
      assert (Hroom : 2 * c <= L - 1)
        by (destruct P6 as [H6 | [H6 _]]; [exact H6 | congruence]).
      rewrite (setitem_in_range pl c j) by lia.
      rewrite (setitem_in_range pm c T) by lia.
      cbn [bind]. intros E. injection E as <-.
      constructor; fields3; try assumption.
      apply tops_add; [lia | exact V2 | apply V1; reflexivity].
    + intros E. injection E as <-. constructor; fields3; assumption.
Qed.

Lemma tops_init (ii0 maxPeaks : Z) :
  ii0 = -1 \/ ii0 = 0 -> tops (init_state ii0 min_mag maxPeaks).
Proof.
  intros Hii. unfold init_state. constructor; fields3.
  - intros j Hj. discriminate.
  - intros k Hk. cbn in Hk. lia.
  - intros H. lia.
Qed.

Lemma scan_tops (ii0 maxPeaks : Z) (st' : scan_state) :
  ii0 = -1 \/ ii0 = 0 -> phase x L ii0 -> cap = Z.to_nat maxPeaks ->
  (st <- scan_loop x L min_mag thresh (Z.to_nat L)
                   (init_state ii0 min_mag maxPeaks) ;;
   end_point x L min_mag thresh st) = Return st' ->
  tops st'.
Proof.
  intros Hii Hph Hmax.
  assert (HI : Inv (init_state ii0 min_mag maxPeaks))
    by (apply Inv_init; assumption).
  pose proof (scan_loop_safe x L min_mag thresh cap HL HL2 Hcap Hmin Halt
                (Z.to_nat L) _ HI) as Hs.
  destruct (scan_loop x L min_mag thresh (Z.to_nat L) _) as [st | e | ] eqn:El;
    cbn [bind]; try discriminate.
  intros E. apply (end_point_tops st st'); [ | | exact E].
  - apply Hs. unfold init_state. cbn [ii]. lia.
  - apply (scan_loop_tops _ _ st HI (tops_init ii0 maxPeaks Hii) El).
Qed.
End ScanTops.

(** ** From the candidates back to the signal *)

Lemma sorted_gap (l : list Z) (k : nat) (j : Z) :
  StronglySorted Z.lt l -> (S k < length l)%nat ->
  nth k l 0 < j < nth (S k) l 0 -> ~ In j l.
Proof.
  intros Hs Hk Hj Hin.
  apply (In_nth _ _ 0) in Hin. destruct Hin as (m & Hm & Hnm).
  destruct (Nat.lt_trichotomy m k) as [H | [H | H]].
  - pose proof (sorted_nth l Hs m k 0 ltac:(lia)). lia.
  - subst m. lia.
  - destruct (Nat.eq_dec m (S k)) as [-> | Hne]; [lia | ].
    pose proof (sorted_nth l Hs (S k) m 0 ltac:(lia)). lia.
Qed.

Lemma Forall_firstn_map {A C : Type} (f : A -> C) (P : C -> Prop) (da : A)
      (n : nat) : forall la : list A,
  (n <= length la)%nat ->
  (forall k, (k < n)%nat -> P (f (nth k la da))) ->
  Forall P (map f (firstn n la)).
Proof.
  induction n as [ | n IH]; intros la Ha H; [constructor | ].
  destruct la as [ | a la]; cbn [length] in Ha; [lia | ].
  cbn [firstn map]. constructor.
  - apply (H 0%nat). lia.
  - apply IH; [lia | ]. intros k Hk. apply (H (S k)). lia.
Qed.

Section Runs.
Variable w : list Q.

Lemma run_const (p q : Z) :
  (forall j, p < j < q -> rises w (j - 1) = rises w j) ->
  forall j, p <= j < q -> rises w j = rises w p.
Proof.
  intros H.
  assert (Hn : forall n : nat, p + Z.of_nat n < q ->
                 rises w (p + Z.of_nat n) = rises w p).
  { induction n as [ | n IH]; intros Hq.
    - replace (p + Z.of_nat 0) with p by lia. reflexivity.
    - rewrite <- IH by lia. rewrite <- (H (p + Z.of_nat (S n))) by lia.
      f_equal. lia. }
  intros j Hj. replace j with (p + Z.of_nat (Z.to_nat (j - p))) by lia.
  apply Hn. lia.
Qed.

Lemma run_chain (d : bool) (p : Z) : forall n : nat,
  (forall j, p <= j <= p + Z.of_nat n -> rises w j = d) ->
  Qltb (at_ w p) (at_ w (p + Z.of_nat n + 1)) = d.
Proof.
  induction n as [ | n IH]; intros H.
  - replace (p + Z.of_nat 0 + 1) with (p + 1) by lia. apply (H p). lia.
  - assert (H1 : Qltb (at_ w p) (at_ w (p + Z.of_nat n + 1)) = d)
      by (apply IH; intros j Hj; apply H; lia).
    pose proof (H (p + Z.of_nat n + 1) ltac:(lia)) as H2. unfold rises in H2.
    replace (p + Z.of_nat (S n) + 1) with (p + Z.of_nat n + 1 + 1) by lia.
    destruct d.
    + apply Qltb_lt in H1, H2. apply Qltb_lt. lra.
    + apply Qltb_ge in H1, H2. apply Qltb_ge. lra.
Qed.

(** A sample where the direction changes is a candidate. *)
Lemma turn_In (i : Z) :
  1 <= i <= Z.of_nat (length w) - 2 -> rises w (i - 1) <> rises w i ->
  In i ([0] ++ map (fun i => i + 1) (np_where (turn_mask w))
            ++ [Z.of_nat (length w) - 1]).
Proof.
  intros Hi Hne. rewrite !in_app_iff. right. left.
  apply in_map_iff. exists (0 + Z.of_nat (Z.to_nat (i - 1))).
  split; [lia | ]. apply where_from_In.
  - rewrite turn_mask_length. lia.
  - rewrite turn_mask_nth by lia. unfold rises, at_ in Hne.
    replace (Z.to_nat (i - 1 + 1)) with (Z.to_nat (i - 1) + 1)%nat in Hne by lia.
    replace (Z.to_nat i) with (Z.to_nat (i - 1) + 1)%nat in Hne by lia.
    replace (Z.to_nat (i + 1)) with (Z.to_nat (i - 1) + 2)%nat in Hne by lia.
    destruct (Qltb (nth (Z.to_nat (i - 1)) w 0%Q)
                   (nth (Z.to_nat (i - 1) + 1) w 0%Q));
      destruct (Qltb (nth (Z.to_nat (i - 1) + 1) w 0%Q)
                     (nth (Z.to_nat (i - 1) + 2) w 0%Q));
      try reflexivity; congruence.
Qed.

(** Between two neighbouring candidates the signal keeps its direction, so
    the step between the two candidates, the step that leaves the first and
    the step that reaches the second all go the same way. *)
Lemma candidates_run (k : nat) :
  (2 <= length w)%nat ->
  let ind := [0] ++ map (fun i => i + 1) (np_where (turn_mask w))
                 ++ [Z.of_nat (length w) - 1] in
  (S k < length ind)%nat ->
  Qltb (at_ w (nth k ind 0)) (at_ w (nth (S k) ind 0)) = rises w (nth k ind 0) /\
  Qltb (at_ w (nth k ind 0)) (at_ w (nth (S k) ind 0))
  = rises w (nth (S k) ind 0 - 1).
Proof.
  intros Hw ind Hk.
  pose proof (candidates_ind_sorted w Hw) as Hs. fold ind in Hs.
  assert (Hr : Forall (fun i => 0 <= i < Z.of_nat (length w)) ind).
  { unfold ind. apply Forall_app. split; [repeat constructor; lia | ].
    apply Forall_app. split; [ | repeat constructor; lia].
    apply Forall_forall. intros i Hi. apply in_map_iff in Hi.
    destruct Hi as (j & <- & Hj).
    destruct (where_from_sorted (turn_mask w) 0) as [_ Hb].
    rewrite Forall_forall in Hb. specialize (Hb j Hj).
    rewrite turn_mask_length in Hb. lia. }
  rewrite Forall_forall in Hr.
  pose proof (Hr _ (nth_In ind 0 (n := k) ltac:(lia))) as Hp.
  pose proof (Hr _ (nth_In ind 0 (n := S k) ltac:(lia))) as Hq.
  pose proof (sorted_nth ind Hs k (S k) 0 ltac:(lia)) as Hpq.
  set (p := nth k ind 0) in *. set (q := nth (S k) ind 0) in *.
  assert (Hsame : forall j, p < j < q -> rises w (j - 1) = rises w j).
  { intros j Hj.
    destruct (bool_dec (rises w (j - 1)) (rises w j)) as [E | E]; [exact E | ].
    exfalso. apply (sorted_gap ind k j Hs Hk Hj).
    apply turn_In; [lia | exact E]. }
  pose proof (run_const p q Hsame) as Hc.
  pose proof (run_chain (rises w p) p (Z.to_nat (q - p - 1))) as Hch.
  replace (p + Z.of_nat (Z.to_nat (q - p - 1)) + 1) with q in Hch by lia.
  assert (E : Qltb (at_ w p) (at_ w q) = rises w p)
    by (apply Hch; intros j Hj; apply Hc; lia).
  split; [exact E | ]. rewrite E. symmetry. apply Hc. lia.
Qed.
End Runs.

Lemma nth_snoc_last {A : Type} (l : list A) (z d : A) :
  nth (length (l ++ [z]) - 1) (l ++ [z]) d = z.
Proof.
  rewrite length_app. cbn [length].
  replace (length l + 1 - 1)%nat with (length l) by lia. apply nth_middle.
Qed.

(** A candidate that is a local maximum of the candidates is a local maximum
    of the signal. *)
Lemma top_lift (w x : list Q) (ind : list Z) (k : Z) :
  candidates 1 w = Return (x, ind) ->
  (2 <= length w)%nat ->
  0 <= k < Z.of_nat (length x) ->
  top x (Z.of_nat (length x)) k ->
  top w (Z.of_nat (length w)) (nth (Z.to_nat k) ind 0).
Proof.
  intros Hc Hw Hk [T1 T2].
  assert (Hne : w <> []) by (destruct w; [cbn in Hw; lia | discriminate]).
  destruct (candidates_map w x ind Hne Hc) as [Hx Hir].
  rewrite candidates_eq in Hc by discriminate.
  assert (Hind : ind = [0] ++ map (fun i => i + 1) (np_where (turn_mask w))
                           ++ [Z.of_nat (length w) - 1]) by congruence.
  clear Hc.
  assert (Hlen : length x = length ind) by (rewrite Hx; apply length_map).
  assert (Hat : forall j, 0 <= j < Z.of_nat (length x) ->
                  at_ x j = at_ w (nth (Z.to_nat j) ind 0)).
  { intros j Hj. unfold at_ at 1. rewrite Hx.
    rewrite (nth_indep _ 0%Q (at_ w 0)) by (rewrite length_map; lia).
    apply map_nth. }
  assert (Hfirst : nth 0 ind 0 = 0) by (rewrite Hind; reflexivity).
  assert (Hlast : nth (length ind - 1) ind 0 = Z.of_nat (length w) - 1).
  { rewrite Hind, !app_assoc. apply nth_snoc_last. }
  split.
  - intros Hpos.
    assert (Hk1 : 0 < k).
    { destruct (Z.eq_dec k 0) as [-> | ]; [ | lia].
      change (Z.to_nat 0) with 0%nat in Hpos. lia. }
    specialize (T1 Hk1).
    pose proof (candidates_run w (Z.to_nat (k - 1)) Hw) as Hrun.
    cbv zeta in Hrun. rewrite <- Hind in Hrun.
    destruct (Hrun ltac:(lia)) as [_ E].
    replace (S (Z.to_nat (k - 1))) with (Z.to_nat k) in E by lia.
    rewrite (Hat (k - 1)), (Hat k) in T1 by lia.
    apply Qltb_lt in T1. rewrite T1 in E. symmetry in E. apply Qltb_lt in E.
    replace (nth (Z.to_nat k) ind 0 - 1 + 1) with (nth (Z.to_nat k) ind 0) in E
      by lia.
    exact E.
  - intros Hin.
    assert (Hk1 : k + 1 < Z.of_nat (length x)).
    { destruct (Z.eq_dec k (Z.of_nat (length x) - 1)) as [-> | ]; [ | lia].
      replace (Z.to_nat (Z.of_nat (length x) - 1)) with (length ind - 1)%nat in Hin
        by lia.
      lia. }
    specialize (T2 Hk1).
    pose proof (candidates_run w (Z.to_nat k) Hw) as Hrun.
    cbv zeta in Hrun. rewrite <- Hind in Hrun.
    destruct (Hrun ltac:(lia)) as [E _].
    replace (S (Z.to_nat k)) with (Z.to_nat (k + 1)) in E by lia.
    rewrite (Hat k), (Hat (k + 1)) in T2 by lia.
    apply Qltb_ge in T2. rewrite T2 in E. symmetry in E. apply Qltb_ge in E.
    exact E.
Qed.

Lemma scanner_tops (x0 : list Q) (thresh : Q) (x : list Q) (ind : list Z)
      (min_mag : Q) (ind' : list Z) (st : scan_state) :
  candidates 1 x0 = Return (x, ind) ->
  (2 < length x)%nat ->
  np_min x = Return min_mag ->
  scanner x ind min_mag thresh = Return (ind', st) ->
  tops x (Z.of_nat (length x)) thresh st.
Proof.
  intros Hc Hlen Hm. rewrite candidates_eq in Hc by discriminate.
  assert (Hx : x = firstn 1 x0 ++ interior x0 ++ skipn (length x0 - 1) x0)
    by congruence.
  clear Hc.
  destruct x0 as [ | a [ | b r]];
    [ rewrite Hx in Hlen; simpl in Hlen; lia
    | rewrite Hx in Hlen; simpl in Hlen; lia | ].
  assert (Ha : alt (Qltb a b) x) by (rewrite Hx; apply candidates_alt).
  clear Hx.
  unfold scanner.
  remember (Z.of_nat (length x)) as L eqn:HL.
  pose proof (ceil_half_bounds L) as Hcb.
  destruct (bootstrap_alt (Qltb a b) x ind L Ha Hlen) as [Hb Hup].
  rewrite Hb. cbn [bind].
  set (ii0 := if Qltb a b then 0 else -1).
  assert (Halt : forall k, 0 <= k -> k + 2 < L ->
    ((at_ x k < at_ x (k + 1))%Q -> (at_ x (k + 2) <= at_ x (k + 1))%Q) /\
    ((at_ x (k + 1) <= at_ x k)%Q -> (at_ x (k + 1) < at_ x (k + 2))%Q)).
  { intros k Hk Hk2. apply (alt_at (Qltb a b)); [exact Ha | exact Hk | lia]. }
  assert (HL2 : 2 <= L) by lia.
  assert (Hcap : L <= 2 * Z.of_nat (Z.to_nat (ceil_half L)) <= L + 1) by lia.
  assert (Hii : ii0 = -1 \/ ii0 = 0) by (unfold ii0; destruct (Qltb a b); auto).
  assert (Hph : phase x L ii0).
  { unfold phase, ii0. destruct (Qltb a b) eqn:E.
    - symmetry in Hup. apply Qltb_lt in Hup. split.
      + intros _ _. exact Hup.
      + intros H. apply (Halt 0); [lia | lia | exact Hup].
    - symmetry in Hup. apply Qltb_ge in Hup. split.
      + intros H. lia.
      + intros _. exact Hup. }
  pose proof (scan_tops x L min_mag thresh (Z.to_nat (ceil_half L))
                HL HL2 Hcap (fun k Hk => np_min_at x min_mag k Hm ltac:(lia)) Halt
                ii0 (ceil_half L)) as Hv.
  destruct (scan_loop x L min_mag thresh (Z.to_nat L) _) as [s1 | e | ] eqn:El;
    cbn [bind] in *; try discriminate.
  destruct (end_point x L min_mag thresh s1) as [s2 | e | ] eqn:Ee;
    cbn [bind]; try discriminate.
  intros E. injection E as _ <-. apply (Hv s2 Hii Hph eq_refl eq_refl).
Qed.

(** Every index that the scanner branch returns is a local maximum of the
    working signal. *)
Lemma scanner_branch_tops (w : list Q) (t : Q) (x : list Q) (ind : list Z)
      (m : Q) (l : list Z) (ms : list Q) :
  candidates 1 w = Return (x, ind) ->
  (2 < length x)%nat ->
  np_min x = Return m ->
  scanner_branch x ind m t = Return (NpArray l, NpArray ms) ->
  Forall (top w (Z.of_nat (length w))) l.
Proof.
  intros Hc Hbig Hm Hbr.
  assert (Hw : w <> []).
  { intros ->. vm_compute in Hc. injection Hc as <- _. cbn in Hbig. lia. }
  destruct (candidates_map w x ind Hw Hc) as [Hx Hir].
  assert (Hlen : length x = length ind) by (rewrite Hx; apply length_map).
  assert (Hw2 : (2 <= length w)%nat).
  { destruct w as [ | a [ | b r]]; [congruence | | cbn; lia].
    vm_compute in Hc. injection Hc as <- _. cbn in Hbig. lia. }
  pose proof (scanner_safe w t x ind m Hc Hbig Hm) as Hs.
  unfold scanner_branch in Hbr.
  destruct (scanner x ind m t) as [[ind' st] | e | ] eqn:Esc;
    cbn [bind safe] in *; try discriminate.
  pose proof (scanner_tops w t x ind m ind' st Hc Hbig Hm Esc) as Hv.
  destruct Hs as [Hi HF]. cbn [fst snd] in *. subst ind'.
  destruct HF as [F1 F2 F3 F4 F5]. unfold confirmed in *.
  destruct Hv as [_ V2 _].
  rewrite !slice_prefix in Hbr by lia.
  rewrite (take_in_range ind 0) in Hbr by (rewrite <- Hlen; exact F5).
  cbn [bind] in Hbr. injection Hbr as <- _.
  pose proof (ceil_half_bounds (Z.of_nat (length x))) as Hcb.
  apply (Forall_firstn_map _ _ 0); [lia | ].
  intros k Hk.
  assert (Hloc : 0 <= nth k (peak_loc st) 0 < Z.of_nat (length x)).
  { rewrite Forall_forall in F5. apply F5.
    rewrite <- (firstn_skipn (Z.to_nat (c_ind st)) (peak_loc st)) at 1.
    rewrite app_nth1 by (rewrite length_firstn; lia).
    apply nth_In. rewrite length_firstn. lia. }
  apply (top_lift w x ind _ Hc Hw2 Hloc). apply V2. exact Hk.
Qed.

(** Checks [well_separated] on a list of numerals. *)
Ltac separated :=
  cbn [well_separated qs map];
  repeat match goal with
         | |- _ /\ _ => split
         | |- True => exact I
         | |- _ \/ _ =>
             first [ left; reflexivity
                   | right; left; vm_compute; discriminate
                   | right; right; vm_compute; discriminate ]
         end.

(** X11.  With a valid threshold (omitted, or not negative), on a signal
    whose neighbouring samples are equal or at least [tiny] apart, every
    index returned for maxima is a local maximum of the signal: the sample
    before it, if there is one, is lower, and the sample after it, if
    there is one, is not higher.  On a plateau this is the first of the
    repeated samples. *)
Theorem maxima_are_local_maxima
        (x0 : list Q) (thresh : option Q)
        (peak_inds : pyval Z) (peak_mags : pyval Q) :
  (forall t, thresh = Some t -> (0 <= t)%Q) ->
  well_separated x0 ->
  peak_finder (vector x0) thresh 1 = Return (peak_inds, peak_mags) ->
  Forall (top x0 (Z.of_nat (length x0))) (items peak_inds).
Proof.
  intros _ _ H. apply peak_finder_returns_inv in H.
  destruct H as (t & x & ind & m & _ & _ & _ & Hc & Hm & Hcases).
  change (working_signal 1 x0) with x0 in Hc.
  destruct Hcases as [(Hbig & l & ms & Hbr & -> & _) | (_ & _ & _ & -> & _)];
    cbn [items]; [ | constructor].
  exact (scanner_branch_tops x0 t x ind m l ms Hc Hbig Hm Hbr).
Qed.

Lemma maxima_are_local_maxima_witness :
  (forall t, Some 2%Q = Some t -> (0 <= t)%Q) /\
  well_separated (qs [0; 3; 3; 0; 4; 1; 5; 2; 8]) /\
  peak_finder (vector (qs [0; 3; 3; 0; 4; 1; 5; 2; 8])) (Some 2%Q) 1
  = Return (NpArray [1; 4; 6; 8], NpArray (qs [3; 4; 5; 8])) /\
  Forall (top (qs [0; 3; 3; 0; 4; 1; 5; 2; 8])
              (Z.of_nat (length (qs [0; 3; 3; 0; 4; 1; 5; 2; 8]))))
         [1; 4; 6; 8].
Proof.
  assert (H1 : forall t, Some 2%Q = Some t -> (0 <= t)%Q)
    by (intros t Ht; injection Ht as <-; vm_compute; discriminate).
  assert (H2 : well_separated (qs [0; 3; 3; 0; 4; 1; 5; 2; 8])) by separated.
  assert (H : peak_finder (vector (qs [0; 3; 3; 0; 4; 1; 5; 2; 8])) (Some 2%Q) 1
              = Return (NpArray [1; 4; 6; 8], NpArray (qs [3; 4; 5; 8])))
    by (vm_compute; reflexivity).
  split; [exact H1 | ]. split; [exact H2 | ]. split; [exact H | ].
  exact (maxima_are_local_maxima (qs [0; 3; 3; 0; 4; 1; 5; 2; 8]) (Some 2%Q)
           (NpArray [1; 4; 6; 8]) (NpArray (qs [3; 4; 5; 8])) H1 H2 H).
Defined.

(** X12.  With a valid threshold (omitted, or not negative), on a signal
    whose neighbouring samples are equal or at least [tiny] apart, every
    index returned for minima is a local minimum of the signal: the sample
    before it, if there is one, is higher, and the sample after it, if
    there is one, is not lower. *)
Theorem minima_are_local_minima
        (x0 : list Q) (thresh : option Q)
        (peak_inds : pyval Z) (peak_mags : pyval Q) :
  (forall t, thresh = Some t -> (0 <= t)%Q) ->
  well_separated x0 ->
  peak_finder (vector x0) thresh (-1) = Return (peak_inds, peak_mags) ->
  Forall (bottom x0 (Z.of_nat (length x0))) (items peak_inds).
Proof.
  intros _ _ H.
  pose proof (records_in_range x0 thresh (-1) peak_inds peak_mags H) as Hr.
  apply peak_finder_returns_inv in H.
  destruct H as (t & x & ind & m & _ & _ & _ & Hc & Hm & Hcases).
  destruct Hcases as [(Hbig & l & ms & Hbr & -> & _) | (_ & _ & _ & -> & _)];
    cbn [items] in *; [ | constructor].
  pose proof (scanner_branch_tops _ t x ind m l ms Hc Hbig Hm Hbr) as Ht.
  rewrite working_signal_length in Ht.
  rewrite Forall_forall in *. intros i Hi.
  specialize (Hr i Hi). destruct (Ht i Hi) as [T1 T2]. split.
  - intros H. specialize (T1 H).
    rewrite !working_signal_at in T1 by lia. lra.
  - intros H. specialize (T2 H).
    rewrite !working_signal_at in T2 by lia. lra.
Qed.

Lemma minima_are_local_minima_witness :
  (forall t, Some 2%Q = Some t -> (0 <= t)%Q) /\
  well_separated (qs [0; 3; 0; 4; 1; 1; 5; 2; 8; 0]) /\
  peak_finder (vector (qs [0; 3; 0; 4; 1; 1; 5; 2; 8; 0])) (Some 2%Q) (-1)
  = Return (NpArray [0; 2; 4; 7; 9], NpArray (qs [0; 0; 1; 2; 0])) /\
  Forall (bottom (qs [0; 3; 0; 4; 1; 1; 5; 2; 8; 0])
                 (Z.of_nat (length (qs [0; 3; 0; 4; 1; 1; 5; 2; 8; 0]))))
         [0; 2; 4; 7; 9].
Proof.
  assert (H1 : forall t, Some 2%Q = Some t -> (0 <= t)%Q)
    by (intros t Ht; injection Ht as <-; vm_compute; discriminate).
  assert (H2 : well_separated (qs [0; 3; 0; 4; 1; 1; 5; 2; 8; 0])) by separated.
  assert (H : peak_finder (vector (qs [0; 3; 0; 4; 1; 1; 5; 2; 8; 0])) (Some 2%Q) (-1)
              = Return (NpArray [0; 2; 4; 7; 9], NpArray (qs [0; 0; 1; 2; 0])))
    by (vm_compute; reflexivity).
  split; [exact H1 | ]. split; [exact H2 | ]. split; [exact H | ].
  exact (minima_are_local_minima (qs [0; 3; 0; 4; 1; 1; 5; 2; 8; 0]) (Some 2%Q)
           (NpArray [0; 2; 4; 7; 9]) (NpArray (qs [0; 0; 1; 2; 0])) H1 H2 H).
Defined.

(** ** Signals without a turning point *)

(** The call for maxima on a rising signal, in exact arithmetic. *)
Lemma rising_call (l : list Q) (t : Q) :
  l <> [] -> rising l ->
  peak_finder (vector l) (Some t) 1
  = if Qgtb (last l 0%Q) (hd 0%Q l + t) then Raise TypeError
    else Return (PyList [], PyList []).
Proof.
  intros Hne Hr.
  pose proof (end_point_candidates l Hne (rising_no_turn l Hr)) as Hc.
  rewrite (end_point_call l t 1 _ _ _ (or_introl eq_refl) Hc).
  change (1 <? 0) with false. cbv iota.
  destruct l as [ | a r]; [congruence | ]. cbn [hd].
  destruct r as [ | b r'].
  - cbn [last]. destruct (Qltb a a); reflexivity.
  - pose proof (rising_ends (b :: r') a Hr ltac:(discriminate)) as Hlt.
    replace (Qltb a (last (a :: b :: r') 0%Q)) with true
      by (symmetry; apply Qltb_lt; exact Hlt).
    replace (Qltb (last (a :: b :: r') 0%Q) a) with false
      by (symmetry; apply Qltb_ge; lra).
    reflexivity.
Qed.

(** The call for maxima on a signal that never rises, in exact
    arithmetic. *)
Lemma falling_call (l : list Q) (t : Q) :
  l <> [] -> falling l ->
  peak_finder (vector l) (Some t) 1
  = if Qgtb (hd 0%Q l) (last l 0%Q + t) then Raise TypeError
    else Return (PyList [], PyList []).
Proof.
  intros Hne Hf.
  pose proof (end_point_candidates l Hne (falling_no_turn l Hf)) as Hc.
  rewrite (end_point_call l t 1 _ _ _ (or_introl eq_refl) Hc).
  change (1 <? 0) with false. cbv iota.
  destruct l as [ | a r]; [congruence | ]. cbn [hd].
  pose proof (falling_ends r a Hf) as Hle.
  replace (Qltb a (last (a :: r) 0%Q)) with false
    by (symmetry; apply Qltb_ge; exact Hle).
  destruct (Qltb (last (a :: r) 0%Q) a) eqn:E; [reflexivity | ].
  apply Qltb_ge in E.
  destruct (Qgtb a (a + t)) eqn:E1; destruct (Qgtb a (last (a :: r) 0%Q + t)) eqn:E2;
    try reflexivity; exfalso.
  - apply Qgtb_gt in E1. apply Qgtb_le in E2. lra.
  - apply Qgtb_le in E1. apply Qgtb_gt in E2. lra.
Qed.

(** X13.  On a signal that rises from sample to sample, a call for maxima
    never returns a record: it raises [TypeError] ([len] of the scalar
    index bound on line 237) or returns the two empty lists, and it returns
    the two empty lists whenever the last sample is at most the first plus
    the threshold. *)
Theorem rising_signal_maxima (l : list Q) (t : Q) :
  l <> [] -> rising l ->
  (peak_finder (vector l) (Some t) 1 = Raise TypeError \/
   peak_finder (vector l) (Some t) 1 = Return (PyList [], PyList [])) /\
  ((last l 0 <= hd 0 l + t)%Q ->
   peak_finder (vector l) (Some t) 1 = Return (PyList [], PyList [])).
Proof.
  intros Hne Hr. rewrite (rising_call l t Hne Hr). split.
  - destruct (Qgtb (last l 0%Q) (hd 0%Q l + t)); auto.
  - intros Hle.
    replace (Qgtb (last l 0%Q) (hd 0%Q l + t)) with false
      by (symmetry; apply Qgtb_le; exact Hle).
    reflexivity.
Qed.

Lemma rising_signal_maxima_witness :
  qs [1; 2; 4; 7] <> [] /\ rising (qs [1; 2; 4; 7]) /\
  (last (qs [1; 2; 4; 7]%Z) 0 <= hd 0 (qs [1; 2; 4; 7]%Z) + 6)%Q /\
  peak_finder (vector (qs [1; 2; 4; 7])) (Some 6%Q) 1
  = Return (PyList [], PyList []).
Proof.
  assert (H1 : qs [1; 2; 4; 7] <> []) by discriminate.
  assert (H2 : rising (qs [1; 2; 4; 7]))
    by (cbn; repeat split; reflexivity).
  assert (H3 : (last (qs [1; 2; 4; 7]%Z) 0 <= hd 0 (qs [1; 2; 4; 7]%Z) + 6)%Q)
    by (vm_compute; discriminate).
  split; [exact H1 | ]. split; [exact H2 | ]. split; [exact H3 | ].
  exact (proj2 (rising_signal_maxima (qs [1; 2; 4; 7]) 6 H1 H2) H3).
Defined.

(** X14.  On a signal that never rises from one sample to the next
    (constant signals and single samples included), a call for maxima never
    returns a record: it raises [TypeError] or returns the two empty lists,
    and it returns the two empty lists whenever the first sample is at most
    the last plus the threshold. *)
Theorem falling_signal_maxima (l : list Q) (t : Q) :
  l <> [] -> falling l ->
  (peak_finder (vector l) (Some t) 1 = Raise TypeError \/
   peak_finder (vector l) (Some t) 1 = Return (PyList [], PyList [])) /\
  ((hd 0 l <= last l 0 + t)%Q ->
   peak_finder (vector l) (Some t) 1 = Return (PyList [], PyList [])).
Proof.
  intros Hne Hf. rewrite (falling_call l t Hne Hf). split.
  - destruct (Qgtb (hd 0%Q l) (last l 0%Q + t)); auto.
  - intros Hle.
    replace (Qgtb (hd 0%Q l) (last l 0%Q + t)) with false
      by (symmetry; apply Qgtb_le; exact Hle).
    reflexivity.
Qed.

Lemma falling_signal_maxima_witness :
  qs [7; 4; 4; 1] <> [] /\ falling (qs [7; 4; 4; 1]) /\
  (hd 0 (qs [7; 4; 4; 1]%Z) <= last (qs [7; 4; 4; 1]%Z) 0 + 6)%Q /\
  peak_finder (vector (qs [7; 4; 4; 1])) (Some 6%Q) 1
  = Return (PyList [], PyList []).
Proof.
  assert (H1 : qs [7; 4; 4; 1] <> []) by discriminate.
  assert (H2 : falling (qs [7; 4; 4; 1]))
    by (cbn; repeat split; discriminate).
  assert (H3 : (hd 0 (qs [7; 4; 4; 1]%Z) <= last (qs [7; 4; 4; 1]%Z) 0 + 6)%Q)
    by (vm_compute; discriminate).
  split; [exact H1 | ]. split; [exact H2 | ]. split; [exact H3 | ].
  exact (proj2 (falling_signal_maxima (qs [7; 4; 4; 1]) 6 H1 H2) H3).
Defined.

(** X15.  On a signal that rises from sample to sample, a call for minima
    raises [TypeError] whatever the threshold: either [len] is applied to a
    scalar index, or line 244 multiplies the empty list by [-1.0]. *)
Theorem rising_signal_minima (l : list Q) (t : Q) :
  l <> [] -> rising l ->
  peak_finder (vector l) (Some t) (-1) = Raise TypeError.
Proof.
  intros Hne Hr.
  assert (Hw : working_signal (-1) l = map (fun v => (inject_Z (-1) * v)%Q) l)
    by reflexivity.
  assert (Hwne : working_signal (-1) l <> [])
    by (rewrite Hw; destruct l; [congruence | discriminate]).
  assert (Hf : falling (working_signal (-1) l))
    by (rewrite Hw; apply rising_negated; exact Hr).
  pose proof (end_point_candidates _ Hwne (falling_no_turn _ Hf)) as Hc.
  rewrite (end_point_call l t (-1) _ _ _ (or_intror eq_refl) Hc).
  change (-1 <? 0) with true. cbv iota.
  match goal with |- (if ?b then _ else _) = _ => destruct b end; reflexivity.
Qed.

Lemma rising_signal_minima_witness :
  qs [1; 2; 4; 7] <> [] /\ rising (qs [1; 2; 4; 7]) /\
  peak_finder (vector (qs [1; 2; 4; 7])) (Some 2%Q) (-1) = Raise TypeError.
Proof.
  assert (H1 : qs [1; 2; 4; 7] <> []) by discriminate.
  assert (H2 : rising (qs [1; 2; 4; 7]))
    by (cbn; repeat split; reflexivity).
  split; [exact H1 | ]. split; [exact H2 | ].
  exact (rising_signal_minima (qs [1; 2; 4; 7]) 2 H1 H2).
Defined.

(** ** Minima as maxima of the negated signal *)

(** X16.  When the call for maxima on the negated signal returns two arrays,
    the call for minima on the signal returns the same indices, and the
    magnitudes multiplied by [-1.0]. *)
Theorem minima_of_signal_are_maxima_of_negation
        (S : list Q) (t : Q) (l : list Z) (ms : list Q) :
  peak_finder (vector (map Qopp S)) (Some t) 1 = Return (NpArray l, NpArray ms) ->
  peak_finder (vector S) (Some t) (-1)
  = Return (NpArray l, NpArray (map (fun v => (v * -1)%Q) ms)).
Proof.
  intros H. rewrite minima_mirror, H. reflexivity.
Qed.

Lemma minima_of_signal_are_maxima_of_negation_witness :
  peak_finder (vector (map Qopp (qs [0; 3; 0; 4; 1; 5; 2; 8; 0]))) (Some 2%Q) 1
  = Return (NpArray [0; 2; 4; 6; 8], NpArray (qs [0; 0; -1; -2; 0])) /\
  peak_finder (vector (qs [0; 3; 0; 4; 1; 5; 2; 8; 0])) (Some 2%Q) (-1)
  = Return (NpArray [0; 2; 4; 6; 8],
            NpArray (map (fun v => (v * -1)%Q) (qs [0; 0; -1; -2; 0]))).
Proof.
  assert (H : peak_finder (vector (map Qopp (qs [0; 3; 0; 4; 1; 5; 2; 8; 0])))
                          (Some 2%Q) 1
              = Return (NpArray [0; 2; 4; 6; 8], NpArray (qs [0; 0; -1; -2; 0])))
    by (vm_compute; reflexivity).
  split; [exact H | ].
  exact (minima_of_signal_are_maxima_of_negation
           (qs [0; 3; 0; 4; 1; 5; 2; 8; 0]) 2 [0; 2; 4; 6; 8]
           (qs [0; 0; -1; -2; 0]) H).
Defined.

(** ** The scanner branch on any candidate list *)

(** X17.  On any list of more than two candidates with increasing positions
    (alternating or not: in float64 a product of line 148 that is rounded
    to zero hides a turning point) and for any threshold that is not
    negative, lines 158-232 raise nothing and return two arrays: the
    indices increase strictly, every record pairs a position of the list
    with the candidate at that position, and a list of [n] candidates
    gives at most [ceil(n / 2)] records. *)
Theorem scanner_branch_on_any_candidates
        (x : list Q) (ind : list Z) (min_mag thresh : Q) :
  (2 < length x)%nat ->
  length ind = length x ->
  StronglySorted Z.lt ind ->
  np_min x = Return min_mag ->
  (0 <= thresh)%Q ->
  exists (l : list Z) (ms : list Q),
    scanner_branch x ind min_mag thresh = Return (NpArray l, NpArray ms) /\
    StronglySorted Z.lt l /\
    Forall2 (fun i v => In (i, v) (combine ind x)) l ms /\
    (2 * length l <= length x + 1)%nat.
Proof.
  intros Hx Hi Hs Hm Hth.
  exact (scanner_branch_any x ind min_mag thresh Hx Hi Hs Hm Hth).
Qed.

Lemma scanner_branch_on_any_candidates_witness :
  (2 < length (qs [1; 0; 0; 1; 0]%Z))%nat /\
  length [0; 1; 3; 4; 5] = length (qs [1; 0; 0; 1; 0]) /\
  StronglySorted Z.lt [0; 1; 3; 4; 5] /\
  np_min (qs [1; 0; 0; 1; 0]) = Return 0%Q /\
  (0 <= 1 # 2)%Q /\
  exists (l : list Z) (ms : list Q),
    scanner_branch (qs [1; 0; 0; 1; 0]) [0; 1; 3; 4; 5] 0 (1 # 2)
    = Return (NpArray l, NpArray ms) /\
    StronglySorted Z.lt l /\
    Forall2 (fun i v => In (i, v) (combine [0; 1; 3; 4; 5] (qs [1; 0; 0; 1; 0])))
            l ms /\
    (2 * length l <= length (qs [1; 0; 0; 1; 0]%Z) + 1)%nat.
Proof.
  assert (H1 : (2 < length (qs [1; 0; 0; 1; 0]%Z))%nat) by (simpl; lia).
  assert (H2 : length [0; 1; 3; 4; 5] = length (qs [1; 0; 0; 1; 0]))
    by reflexivity.
  assert (H3 : StronglySorted Z.lt [0; 1; 3; 4; 5])
    by (repeat constructor; lia).
  assert (H4 : np_min (qs [1; 0; 0; 1; 0]) = Return 0%Q)
    by (vm_compute; reflexivity).
  assert (H5 : (0 <= 1 # 2)%Q) by (vm_compute; discriminate).
  split; [exact H1 | ]. split; [exact H2 | ]. split; [exact H3 | ].
  split; [exact H4 | ]. split; [exact H5 | ].
  exact (scanner_branch_on_any_candidates (qs [1; 0; 0; 1; 0]) [0; 1; 3; 4; 5]
           0 (1 # 2) H1 H2 H3 H4 H5).
Defined.
